(** * Noise-C sample programs: the JSON test-vector driver and the echo server

    A shallow embedding of [tests/vector/test-vector.c] and
    [examples/echo/echo-server/echo-server.c].  Both programs are clients of
    the Noise library ([noise/protocol.h]), of the JSON reader
    ([json-reader.h]) and of the echo helpers ([echo-common.h]); those
    collaborators are interfaces here (type classes), and every statement
    below holds for any implementation of them.

    C data is kept as the programs have it: [int] and [size_t] values are
    [Z] (with the wrap-around written out where the code can wrap), bytes
    are [Z] in [0, 256), [char *] strings are [string], a pointer that may
    be [NULL] is an [option]. *)

From stdpp Require Import base list strings.
From Stdlib Require Import ZArith Lia Ascii.

Open Scope Z_scope.

(** ** C scalars and strings *)

(** [(uint8_t)x]. *)
Definition uint8_t (x : Z) : Z := x mod 256.

(** Arithmetic on [size_t] wraps at [2^64]. *)
Definition size_t (x : Z) : Z := x mod 2 ^ 64.

(** The code of a character constant, ['0'] being 48. *)
Definition char_code (c : ascii) : Z := Z.of_N (N_of_ascii c).

(** A [char] read from a string and promoted to [int]: plain [char] is
    signed on the usual ABIs, so bytes from 0x80 up are negative. *)
Definition char_to_int (c : ascii) : Z :=
  let n := char_code c in if n <? 128 then n else n - 256.

(** The C string held in a buffer ends at the first NUL. *)
Fixpoint cstring (s : string) : string :=
  match s with
  | EmptyString => EmptyString
  | String c s' => if Ascii.eqb c zero then EmptyString else String c (cstring s')
  end.

Definition strlen (s : string) : Z := Z.of_nat (String.length (cstring s)).

(** [strcmp]: zero exactly when the two C strings are equal. *)
Definition strcmp (a b : string) : Z :=
  match String.compare (cstring a) (cstring b) with
  | Eq => 0
  | Lt => -1
  | Gt => 1
  end.

(** [s[i]]; the byte at [strlen s] is the terminating NUL. *)
Definition char_at (s : string) (i : nat) : Z :=
  match String.get i (cstring s) with
  | Some c => char_to_int c
  | None => 0
  end.

(** The one-character string holding a double quote. *)
Definition dquote : string := String (ascii_of_nat 34) EmptyString.

(** [p != 0] for a pointer. *)
Definition is_Some_bool {A : Type} (p : option A) : bool :=
  match p with Some _ => true | None => false end.

(** [memcmp(a, b, n)] on two buffers holding at least [n] bytes. *)
Fixpoint memcmp (a b : list Z) (n : nat) : Z :=
  match n, a, b with
  | S n', x :: a', y :: b' => if x =? y then memcmp a' b' n' else x - y
  | _, _, _ => 0
  end.

(** ** The JSON reader interface ([json-reader.h]) *)

Inductive JSONToken : Type :=
  | JSON_TOKEN_STRING
  | JSON_TOKEN_COLON
  | JSON_TOKEN_COMMA
  | JSON_TOKEN_LSQUARE
  | JSON_TOKEN_RSQUARE
  | JSON_TOKEN_LBRACE
  | JSON_TOKEN_RBRACE
  | JSON_TOKEN_END
  | JSON_TOKEN_OTHER (code : Z).

Definition JSONToken_eqb (a b : JSONToken) : bool :=
  match a, b with
  | JSON_TOKEN_STRING, JSON_TOKEN_STRING
  | JSON_TOKEN_COLON, JSON_TOKEN_COLON
  | JSON_TOKEN_COMMA, JSON_TOKEN_COMMA
  | JSON_TOKEN_LSQUARE, JSON_TOKEN_LSQUARE
  | JSON_TOKEN_RSQUARE, JSON_TOKEN_RSQUARE
  | JSON_TOKEN_LBRACE, JSON_TOKEN_LBRACE
  | JSON_TOKEN_RBRACE, JSON_TOKEN_RBRACE
  | JSON_TOKEN_END, JSON_TOKEN_END => true
  | JSON_TOKEN_OTHER x, JSON_TOKEN_OTHER y => x =? y
  | _, _ => false
  end.

(** The fields of [JSONReader] the functions below touch; [lexer] stands
    for the rest of the structure (the stream and the look-ahead). *)
Record JSONReader (Lexer : Type) : Type := mkReader {
  errors : Z;
  token : JSONToken;
  str_value : option string;
  lexer : Lexer
}.
Arguments mkReader {Lexer}.
Arguments errors {Lexer}.
Arguments token {Lexer}.
Arguments str_value {Lexer}.
Arguments lexer {Lexer}.

(** The functions of [json-reader.c] the driver calls. *)
Class JsonLibrary : Type := {
  Lexer : Type;
  json_next_token : JSONReader Lexer -> JSONReader Lexer;
  json_error : JSONReader Lexer -> string -> JSONReader Lexer;
  json_is_name : JSONReader Lexer -> string -> bool
}.

(** ** The Noise library interface ([noise/protocol.h])

    The library keeps its objects behind pointers; [World] is everything
    the library and the operating system hold (the objects, the random
    source, the sockets), and a function that changes it takes the world
    and returns the new one.  The three handle types are the non-[NULL]
    pointers.  A buffer passed with its length is a list; a buffer the
    library fills is returned with the size it stored. *)

Record NoiseProtocolId : Type := mkProtocolId {
  prefix_id : Z;
  pattern_id : Z;
  dh_id : Z;
  cipher_id : Z;
  hash_id : Z;
  reserved_id : Z
}.

Class NoiseLibrary : Type := {
  World : Type;
  NoiseHandshakeState : Type;
  NoiseCipherState : Type;
  NoiseDHState : Type;
  (* identifiers *)
  NOISE_ERROR_NONE : Z;
  NOISE_ERROR_UNKNOWN_ID : Z;
  NOISE_PREFIX_STANDARD : Z;
  NOISE_PREFIX_PSK : Z;
  NOISE_PATTERN_CATEGORY : Z;
  NOISE_DH_CATEGORY : Z;
  NOISE_CIPHER_CATEGORY : Z;
  NOISE_HASH_CATEGORY : Z;
  NOISE_DH_CURVE25519 : Z;
  NOISE_DH_CURVE448 : Z;
  NOISE_ROLE_INITIATOR : Z;
  NOISE_ROLE_RESPONDER : Z;
  NOISE_ACTION_WRITE_MESSAGE : Z;
  NOISE_ACTION_READ_MESSAGE : Z;
  NOISE_ACTION_SPLIT : Z;
  (* names *)
  noise_id_to_name : Z -> Z -> option string;
  noise_protocol_name_to_id : string -> Z -> Z * NoiseProtocolId;
  (* HandshakeState *)
  noise_handshakestate_new_by_name :
    option string -> Z -> World -> (Z * option NoiseHandshakeState) * World;
  noise_handshakestate_new_by_id :
    NoiseProtocolId -> Z -> World -> (Z * option NoiseHandshakeState) * World;
  noise_handshakestate_free : option NoiseHandshakeState -> World -> Z * World;
  noise_handshakestate_get_local_keypair_dh :
    option NoiseHandshakeState -> World -> option NoiseDHState;
  noise_handshakestate_get_remote_public_key_dh :
    option NoiseHandshakeState -> World -> option NoiseDHState;
  noise_handshakestate_get_fixed_ephemeral_dh_ :
    option NoiseHandshakeState -> World -> option NoiseDHState;
  noise_handshakestate_needs_local_keypair : option NoiseHandshakeState -> World -> Z;
  noise_handshakestate_needs_remote_public_key : option NoiseHandshakeState -> World -> Z;
  noise_handshakestate_set_prologue :
    option NoiseHandshakeState -> list Z -> World -> Z * World;
  noise_handshakestate_set_pre_shared_key :
    option NoiseHandshakeState -> list Z -> World -> Z * World;
  noise_handshakestate_start : option NoiseHandshakeState -> World -> Z * World;
  noise_handshakestate_get_action : option NoiseHandshakeState -> World -> Z;
  (* payload (NULL or a buffer), capacity of the message buffer *)
  noise_handshakestate_write_message :
    option NoiseHandshakeState -> option (list Z) -> Z -> World -> (Z * list Z) * World;
  (* message, capacity of the payload buffer (NULL or a buffer) *)
  noise_handshakestate_read_message :
    option NoiseHandshakeState -> list Z -> option Z -> World -> (Z * list Z) * World;
  (* the two pointers stored through the output arguments, in order *)
  noise_handshakestate_split :
    option NoiseHandshakeState -> World ->
    (Z * option NoiseCipherState * option NoiseCipherState) * World;
  (* DHState *)
  noise_dhstate_get_dh_id : option NoiseDHState -> World -> Z;
  noise_dhstate_set_keypair_private : option NoiseDHState -> list Z -> World -> Z * World;
  noise_dhstate_set_public_key : option NoiseDHState -> list Z -> World -> Z * World;
  (* CipherState: associated data, the data encrypted or decrypted in place *)
  noise_cipherstate_encrypt_with_ad :
    option NoiseCipherState -> option (list Z) -> list Z -> World -> (Z * list Z) * World;
  noise_cipherstate_decrypt_with_ad :
    option NoiseCipherState -> option (list Z) -> list Z -> World -> (Z * list Z) * World;
  noise_cipherstate_free : option NoiseCipherState -> World -> Z * World
}.

Module TestVector.

Section Parser.
Context `{JL : JsonLibrary}.

Abbreviation Reader := (JSONReader Lexer).

(** [!reader->errors] *)
Definition no_errors (reader : Reader) : bool := errors reader =? 0.

Definition expect_token (reader : Reader) (tok : JSONToken) (name : string) : Reader :=
  if negb (no_errors reader) then reader
  else if JSONToken_eqb (token reader) tok then json_next_token reader
  else json_error reader ("Expecting '" +:+ name +:+ "'").

Definition expect_name (reader : Reader) (name : string) : Reader :=
  if negb (no_errors reader) then reader
  else if json_is_name reader name then
    expect_token (json_next_token reader) JSON_TOKEN_COLON ":"
  else json_error reader ("Expecting " +:+ dquote +:+ name +:+ dquote).

Definition from_hex_digit (ch : Z) : Z :=
  if (char_code "0" <=? ch) && (ch <=? char_code "9") then ch - char_code "0"
  else if (char_code "A" <=? ch) && (ch <=? char_code "F") then ch - char_code "A" + 10
  else if (char_code "a" <=? ch) && (ch <=? char_code "f") then ch - char_code "a" + 10
  else -1.

(** The [for (posn = 0; posn < size; ++posn)] loop of [expect_binary_field]:
    [n] iterations remain, [value] is the buffer so far.  The flag is
    [false] when the loop left through the invalid-digit [return]. *)
Fixpoint hex_loop (n : nat) (posn : nat) (hex : string) (value : list Z) : list Z * bool :=
  match n with
  | O => (value, true)
  | S n' =>
    let digit1 := from_hex_digit (char_at hex (posn * 2)) in
    let digit2 := from_hex_digit (char_at hex (posn * 2 + 1)) in
    if (digit1 <? 0) || (digit2 <? 0) then (value, false)
    else hex_loop n' (S posn) hex (<[posn := uint8_t (digit1 * 16 + digit2)]> value)
  end.

(** [expect_binary_field(reader, &value)]: the result is the returned size,
    the pointer left in [*value] and the reader.  [calloc_ok] says whether
    the allocation succeeds; [None] is the undefined [strlen(NULL)]. *)
Definition expect_binary_field (calloc_ok : bool) (reader : Reader) (value : option (list Z))
  : option (Z * option (list Z) * Reader) :=
  let reader := json_next_token reader in
  let reader := expect_token reader JSON_TOKEN_COLON ":" in
  if no_errors reader && JSONToken_eqb (token reader) JSON_TOKEN_STRING then
    match str_value reader with
    | None => None
    | Some hex =>
      let size := strlen hex / 2 in
      if calloc_ok then
        match hex_loop (Z.to_nat size) 0 hex (replicate (Z.to_nat (size + 1)) 0) with
        | (buf, false) =>
          Some (0, Some buf, json_error reader "Invalid hexadecimal data")
        | (buf, true) =>
          let reader := json_next_token reader in
          let reader :=
            if no_errors reader && JSONToken_eqb (token reader) JSON_TOKEN_COMMA
            then json_next_token reader else reader in
          Some (size, Some buf, reader)
        end
      else Some (0, None, json_error reader "Out of memory")
    end
  else Some (0, value, reader).

(** *** [process_test_vectors]

    The per-vector parser and runner [process_test_vector] is a parameter:
    it consumes tokens and returns non-zero when the vector passed.  Two
    ghost events record what the loop does: one for every call of
    [process_test_vector], one for each of the three closing
    [expect_token] calls after the loop. *)

Inductive ParseEvent : Type :=
  | EvVector
  | EvClosing (tok : JSONToken).

Inductive LoopExit : Type :=
  | LoopCondition
  | GotoEnd
  | OutOfFuel.

Section Vectors.
Variable process_test_vector : Reader -> Z * Reader.

(** The [while] loop; [count] is the [REMOVEME] counter. *)
Fixpoint vectors_loop (fuel : nat) (count : Z) (ok : bool) (reader : Reader)
    (log : list ParseEvent) : LoopExit * (Z * bool * Reader * list ParseEvent) :=
  match fuel with
  | O => (OutOfFuel, (count, ok, reader, log))
  | S fuel' =>
    if no_errors reader && negb (JSONToken_eqb (token reader) JSON_TOKEN_RSQUARE) then
      let reader := expect_token reader JSON_TOKEN_LBRACE "{" in
      let '(retval, reader) := process_test_vector reader in
      let log := log ++ [EvVector] in
      let ok := if retval =? 0 then false else ok in
      let reader := expect_token reader JSON_TOKEN_RBRACE "}" in
      let reader :=
        if no_errors reader && JSONToken_eqb (token reader) JSON_TOKEN_COMMA
        then expect_token reader JSON_TOKEN_COMMA "," else reader in
      let count := count - 1 in
      if count <=? 0 then (GotoEnd, (count, ok, reader, log))
      else vectors_loop fuel' count ok reader log
    else (LoopCondition, (count, ok, reader, log))
  end.

(** The code from the [end:] label on. *)
Definition end_label (ok : bool) (reader : Reader) : Reader :=
  if negb ok
  then mkReader (errors reader + 1) (token reader) (str_value reader) (lexer reader)
  else reader.

Definition process_test_vectors (fuel : nat) (reader : Reader)
  : option (Reader * list ParseEvent) :=
  let count := 128 in
  let ok := true in
  let reader := json_next_token reader in
  let reader := expect_token reader JSON_TOKEN_LBRACE "{" in
  let reader := expect_name reader "vectors" in
  let reader := expect_token reader JSON_TOKEN_LSQUARE "[" in
  match vectors_loop fuel count ok reader [] with
  | (OutOfFuel, _) => None
  | (GotoEnd, (_, ok, reader, log)) => Some (end_label ok reader, log)
  | (LoopCondition, (_, ok, reader, log)) =>
    let reader := expect_token reader JSON_TOKEN_RSQUARE "]" in
    let reader := expect_token reader JSON_TOKEN_RBRACE "}" in
    let reader := expect_token reader JSON_TOKEN_END "EOF" in
    Some (end_label ok reader,
          log ++ [EvClosing JSON_TOKEN_RSQUARE; EvClosing JSON_TOKEN_RBRACE;
                  EvClosing JSON_TOKEN_END])
  end.

End Vectors.

End Parser.

(** *** Running one vector

    [longjmp(test_jump_back, v)] ends the test with value [v]; [Undefined]
    is a [strlen] of a [NULL] field. *)

Inductive Res (A : Type) : Type :=
  | Ok (a : A)
  | Longjmp (v : Z)
  | Undefined.
Arguments Ok {A}.
Arguments Longjmp {A}.
Arguments Undefined {A}.

(** One message of a vector; both buffers are present in every vector that
    is run ([process_test_vector] reports a missing one as an error). *)
Record TestMessage : Type := mkMessage {
  payload : list Z;
  ciphertext : list Z
}.

(** [TestVector]: a pointer field with its [_len] field is one optional
    list, [messages] holds the first [num_messages] entries. *)
Record TestVector : Type := mkVector {
  line_number : Z;
  name : option string;
  pattern : option string;
  dh : option string;
  cipher : option string;
  hash : option string;
  init_static : option (list Z);
  init_public_static : option (list Z);
  resp_static : option (list Z);
  resp_public_static : option (list Z);
  init_ephemeral : option (list Z);
  resp_ephemeral : option (list Z);
  init_prologue : option (list Z);
  resp_prologue : option (list Z);
  init_psk : option (list Z);
  resp_psk : option (list Z);
  messages : list TestMessage
}.

Definition num_messages (vec : TestVector) : Z := Z.of_nat (length (messages vec)).

Definition MAX_MESSAGE_SIZE : Z := 256.

(** Ghost events: the key installed at each of the six places of
    [test_connection], and the two library calls of every exchange with the
    loop index and the role of the side called. *)
Inductive KeySite : Type :=
  | InitStatic
  | InitPublicStatic
  | RespStatic
  | RespPublicStatic
  | InitEphemeral
  | RespEphemeral.

Inductive TestEvent : Type :=
  | EvSetKey (site : KeySite)
  | EvWriteMessage (index : nat) (sender : Z)
  | EvReadMessage (index : nat) (receiver : Z).

Section Runner.
Context `{NL : NoiseLibrary}.

Record RunState : Type := mkRun {
  world : World;
  trace : list TestEvent
}.

Definition Test (A : Type) : Type := RunState -> Res A * RunState.

Definition ret {A : Type} (a : A) : Test A := fun s => (Ok a, s).

Definition bind {A B : Type} (m : Test A) (k : A -> Test B) : Test B :=
  fun s =>
    match m s with
    | (Ok a, s') => k a s'
    | (Longjmp v, s') => (Longjmp v, s')
    | (Undefined, s') => (Undefined, s')
    end.

Definition longjmp {A : Type} (v : Z) : Test A := fun s => (Longjmp v, s).

Definition undefined {A : Type} : Test A := fun s => (Undefined, s).

(** A library call that changes the world, and one that only reads it. *)
Definition call {A : Type} (f : World -> A * World) : Test A :=
  fun s => let '(a, w) := f (world s) in (Ok a, mkRun w (trace s)).

Definition query {A : Type} (f : World -> A) : Test A :=
  fun s => (Ok (f (world s)), s).

Definition emit (e : TestEvent) : Test unit :=
  fun s => (Ok tt, mkRun (world s) (trace s ++ [e])).

#[export] Instance Test_ret : MRet Test := @ret.
#[export] Instance Test_bind : MBind Test := fun A B k m => bind m k.

(** The [compare] and [verify] macros. *)
Definition compare (actual expected : Z) : Test unit :=
  if actual =? expected then ret tt else longjmp 1.

Definition verify (condition : bool) : Test unit :=
  if condition then ret tt else longjmp 1.

(** The [compare_blocks] macro; [actual_len] and [expected_len] are the
    lengths of the two lists. *)
Definition compare_blocks (actual expected : list Z) : Test unit :=
  if negb (Z.of_nat (length actual) =? Z.of_nat (length expected))
     || negb (memcmp actual expected (length actual) =? 0)
  then longjmp 1 else ret tt.

Definition check_id (id category : Z) (name : option string) : Test unit :=
  let n := noise_id_to_name category id in
  match name with
  | None => longjmp 1                        (* verify(name != 0) *)
  | Some name =>
    match n with
    | None => longjmp 1                      (* verify(n != 0) *)
    | Some n => verify (strcmp name n =? 0)  (* verify(!strcmp(name, n)) *)
    end
  end.

Definition test_name_parsing (vec : TestVector) : Test unit :=
  match name vec with
  | None => undefined
  | Some nm =>
    let '(err, id) := noise_protocol_name_to_id nm (strlen nm) in
    compare err NOISE_ERROR_NONE;;
    (if is_Some_bool (init_psk vec) || is_Some_bool (resp_psk vec)
     then compare (prefix_id id) NOISE_PREFIX_PSK
     else compare (prefix_id id) NOISE_PREFIX_STANDARD);;
    check_id (pattern_id id) NOISE_PATTERN_CATEGORY (pattern vec);;
    check_id (dh_id id) NOISE_DH_CATEGORY (dh vec);;
    check_id (cipher_id id) NOISE_CIPHER_CATEGORY (cipher vec);;
    check_id (hash_id id) NOISE_HASH_CATEGORY (hash vec);;
    compare (reserved_id id) 0
  end.

(** [test_connection], in the order of the source: the two ends are
    created, the keys of the vector are installed, the handshakes are
    started, the messages are exchanged, the two ends are freed. *)

Definition create_ends (vec : TestVector)
  : Test (option NoiseHandshakeState * option NoiseHandshakeState) :=
  '(err, initiator) ← call (noise_handshakestate_new_by_name (name vec) NOISE_ROLE_INITIATOR);
  compare err NOISE_ERROR_NONE;;
  '(err, responder) ← call (noise_handshakestate_new_by_name (name vec) NOISE_ROLE_RESPONDER);
  compare err NOISE_ERROR_NONE;;
  mret (initiator, responder).

(** One [if (vec->key) { dh = ...; compare(set(dh, key, len), NONE); }]. *)
Definition install_key (site : KeySite) (dh : World -> option NoiseDHState)
    (set : option NoiseDHState -> list Z -> World -> Z * World) (key : list Z) : Test unit :=
  dh ← query dh;
  emit (EvSetKey site);;
  err ← call (set dh key);
  compare err NOISE_ERROR_NONE.

Definition set_static_and_initiator_keys (vec : TestVector)
    (initiator responder : option NoiseHandshakeState) : Test unit :=
  (match init_static vec with
   | Some key =>
     install_key InitStatic (noise_handshakestate_get_local_keypair_dh initiator)
       noise_dhstate_set_keypair_private key
   | None => mret tt
   end);;
  (match init_public_static vec with
   | Some key =>
     install_key InitPublicStatic (noise_handshakestate_get_remote_public_key_dh responder)
       noise_dhstate_set_public_key key
   | None => mret tt
   end);;
  (match resp_static vec with
   | Some key =>
     install_key RespStatic (noise_handshakestate_get_local_keypair_dh responder)
       noise_dhstate_set_keypair_private key
   | None => mret tt
   end);;
  (match resp_public_static vec with
   | Some key =>
     install_key RespPublicStatic (noise_handshakestate_get_remote_public_key_dh initiator)
       noise_dhstate_set_public_key key
   | None => mret tt
   end);;
  (match init_ephemeral vec with
   | Some key =>
     install_key InitEphemeral (noise_handshakestate_get_fixed_ephemeral_dh_ initiator)
       noise_dhstate_set_keypair_private key
   | None => mret tt
   end).

(** [if (vec->resp_ephemeral && strlen(vec->pattern) != 1) { ... }];
    [&&] evaluates [strlen] only when the key is there. *)
Definition set_responder_ephemeral (vec : TestVector)
    (responder : option NoiseHandshakeState) : Test unit :=
  match resp_ephemeral vec with
  | None => mret tt
  | Some key =>
    match pattern vec with
    | None => undefined
    | Some p =>
      if negb (strlen p =? 1) then
        install_key RespEphemeral (noise_handshakestate_get_fixed_ephemeral_dh_ responder)
          noise_dhstate_set_keypair_private key
      else mret tt
    end
  end.

Definition set_prologues_and_psks (vec : TestVector)
    (initiator responder : option NoiseHandshakeState) : Test unit :=
  (match init_prologue vec with
   | Some data =>
     err ← call (noise_handshakestate_set_prologue initiator data);
     compare err NOISE_ERROR_NONE
   | None => mret tt
   end);;
  (match resp_prologue vec with
   | Some data =>
     err ← call (noise_handshakestate_set_prologue responder data);
     compare err NOISE_ERROR_NONE
   | None => mret tt
   end);;
  (match init_psk vec with
   | Some key =>
     err ← call (noise_handshakestate_set_pre_shared_key initiator key);
     compare err NOISE_ERROR_NONE
   | None => mret tt
   end);;
  (match resp_psk vec with
   | Some key =>
     err ← call (noise_handshakestate_set_pre_shared_key responder key);
     compare err NOISE_ERROR_NONE
   | None => mret tt
   end).

Definition start_both (initiator responder : option NoiseHandshakeState) : Test unit :=
  err ← call (noise_handshakestate_start initiator);
  compare err NOISE_ERROR_NONE;;
  err ← call (noise_handshakestate_start responder);
  compare err NOISE_ERROR_NONE.

(** The body of the message loop after the [break] test: the value is the
    new [role]. *)
Definition exchange (initiator responder : option NoiseHandshakeState)
    (index : nat) (role : Z) (m : TestMessage) : Test Z :=
  let '(send, recv, role') :=
    if role =? NOISE_ROLE_INITIATOR
    then (initiator, responder, NOISE_ROLE_RESPONDER)
    else (responder, initiator, NOISE_ROLE_INITIATOR) in
  let sender :=
    if role =? NOISE_ROLE_INITIATOR then NOISE_ROLE_INITIATOR else NOISE_ROLE_RESPONDER in
  action ← query (noise_handshakestate_get_action send);
  compare action NOISE_ACTION_WRITE_MESSAGE;;
  action ← query (noise_handshakestate_get_action recv);
  compare action NOISE_ACTION_READ_MESSAGE;;
  emit (EvWriteMessage index sender);;
  '(err, message) ← call (noise_handshakestate_write_message send (Some (payload m))
                            MAX_MESSAGE_SIZE);
  compare err NOISE_ERROR_NONE;;
  compare_blocks message (ciphertext m);;
  emit (EvReadMessage index role');;
  '(err, payload') ← call (noise_handshakestate_read_message recv message
                             (Some MAX_MESSAGE_SIZE));
  compare err NOISE_ERROR_NONE;;
  compare_blocks payload' (payload m);;
  mret role'.

(** [for (index = 0; index < vec->num_messages; ++index)]: [msgs] are the
    messages from [index] on. *)
Fixpoint message_loop (initiator responder : option NoiseHandshakeState)
    (msgs : list TestMessage) (index : nat) (role : Z) : Test unit :=
  match msgs with
  | [] => mret tt
  | m :: rest =>
    init_action ← query (noise_handshakestate_get_action initiator);
    resp_action ← query (noise_handshakestate_get_action responder);
    if (init_action =? NOISE_ACTION_SPLIT) && (resp_action =? NOISE_ACTION_SPLIT)
    then mret tt
    else
      role' ← exchange initiator responder index role m;
      message_loop initiator responder rest (S index) role'
  end.

Definition free_both (initiator responder : option NoiseHandshakeState) : Test unit :=
  err ← call (noise_handshakestate_free initiator);
  compare err NOISE_ERROR_NONE;;
  err ← call (noise_handshakestate_free responder);
  compare err NOISE_ERROR_NONE.

Definition test_connection (vec : TestVector) : Test unit :=
  '(initiator, responder) ← create_ends vec;
  set_static_and_initiator_keys vec initiator responder;;
  set_responder_ephemeral vec responder;;
  set_prologues_and_psks vec initiator responder;;
  start_both initiator responder;;
  message_loop initiator responder (messages vec) 0 NOISE_ROLE_INITIATOR;;
  free_both initiator responder.

(** [test_vector_run]: [setjmp] yields 0 first and the [longjmp] value
    afterwards. *)
Definition test_vector_run (vec : TestVector) (s : RunState) : option Z * RunState :=
  match (test_name_parsing vec;; test_connection vec) s with
  | (Ok _, s') => (Some 1, s')
  | (Longjmp v, s') => if v =? 2 then (Some 1, s') else (Some 0, s')
  | (Undefined, s') => (None, s')
  end.

End Runner.

End TestVector.

(** ** Parsing one vector and running it ([process_test_vector])

    Here [TestVector] is kept as [process_test_vector] fills it: every
    pointer has its own [_len] field and [messages] is the whole array.
    The fifteen pointer fields are addressed by their names. *)

Module VectorParser.
Import TestVector.

Definition MAX_MESSAGES : Z := 32.

(** A [uint8_t *] field with its [size_t] length field. *)
Record Block : Type := mkBlock {
  ptr : option (list Z);
  len : Z
}.

Inductive StringField : Type :=
  | F_name | F_pattern | F_dh | F_cipher | F_hash.

Inductive BinaryField : Type :=
  | F_init_static | F_init_public_static | F_resp_static | F_resp_public_static
  | F_init_ephemeral | F_resp_ephemeral | F_init_prologue | F_resp_prologue
  | F_init_psk | F_resp_psk.

#[export] Instance StringField_eq_dec : EqDecision StringField.
Proof. solve_decision. Defined.

#[export] Instance BinaryField_eq_dec : EqDecision BinaryField.
Proof. solve_decision. Defined.

Record RawMessage : Type := mkRawMessage {
  raw_payload : Block;
  raw_ciphertext : Block
}.

Record RawVector : Type := mkRaw {
  raw_line_number : Z;
  strings : StringField -> option string;
  blocks : BinaryField -> Block;
  raw_messages : list RawMessage;
  raw_num_messages : Z
}.

(** [memset(&vec, 0, sizeof(TestVector))] *)
Definition zero_vector : RawVector :=
  mkRaw 0 (fun _ => None) (fun _ => mkBlock None 0)
    (replicate (Z.to_nat MAX_MESSAGES) (mkRawMessage (mkBlock None 0) (mkBlock None 0))) 0.

Definition set_line_number (n : Z) (vec : RawVector) : RawVector :=
  mkRaw n (strings vec) (blocks vec) (raw_messages vec) (raw_num_messages vec).

Definition set_string (f : StringField) (v : option string) (vec : RawVector) : RawVector :=
  mkRaw (raw_line_number vec) (fun g => if decide (g = f) then v else strings vec g)
    (blocks vec) (raw_messages vec) (raw_num_messages vec).

Definition set_block (f : BinaryField) (b : Block) (vec : RawVector) : RawVector :=
  mkRaw (raw_line_number vec) (strings vec)
    (fun g => if decide (g = f) then b else blocks vec g)
    (raw_messages vec) (raw_num_messages vec).

Definition set_messages (ms : list RawMessage) (vec : RawVector) : RawVector :=
  mkRaw (raw_line_number vec) (strings vec) (blocks vec) ms (raw_num_messages vec).

Definition set_num_messages (n : Z) (vec : RawVector) : RawVector :=
  mkRaw (raw_line_number vec) (strings vec) (blocks vec) (raw_messages vec) n.

(** The two buffers of a message entry. *)
Inductive MessageField : Type :=
  | F_payload | F_ciphertext.

Definition message_block (f : MessageField) (m : RawMessage) : Block :=
  match f with F_payload => raw_payload m | F_ciphertext => raw_ciphertext m end.

Definition set_message_block (f : MessageField) (b : Block) (m : RawMessage) : RawMessage :=
  match f with
  | F_payload => mkRawMessage b (raw_ciphertext m)
  | F_ciphertext => mkRawMessage (raw_payload m) b
  end.

(** What the runner reads of a field: the [len] bytes at [ptr]. *)
Definition block_bytes (b : Block) : option (list Z) :=
  take (Z.to_nat (len b)) <$> ptr b.

(** The runner is given both buffers of every message; an entry with a
    [NULL] buffer has no counterpart there. *)
Definition to_message (m : RawMessage) : option TestMessage :=
  match block_bytes (raw_payload m), block_bytes (raw_ciphertext m) with
  | Some p, Some c => Some (mkMessage p c)
  | _, _ => None
  end.

Definition to_vector (vec : RawVector) : option TestVector :=
  ms ← mapM to_message (take (Z.to_nat (raw_num_messages vec)) (raw_messages vec));
  Some (mkVector (raw_line_number vec)
          (strings vec F_name) (strings vec F_pattern) (strings vec F_dh)
          (strings vec F_cipher) (strings vec F_hash)
          (block_bytes (blocks vec F_init_static))
          (block_bytes (blocks vec F_init_public_static))
          (block_bytes (blocks vec F_resp_static))
          (block_bytes (blocks vec F_resp_public_static))
          (block_bytes (blocks vec F_init_ephemeral))
          (block_bytes (blocks vec F_resp_ephemeral))
          (block_bytes (blocks vec F_init_prologue))
          (block_bytes (blocks vec F_resp_prologue))
          (block_bytes (blocks vec F_init_psk))
          (block_bytes (blocks vec F_resp_psk))
          ms).

(** Why a run has no result in this model: a loop was cut short by the
    fuel, [strlen] was applied to a [NULL] string, the runner was given a
    message with a [NULL] buffer, or [messages] was indexed outside the
    array. *)
Inductive Stop : Type :=
  | OutOfFuel
  | NullString
  | NullMessage
  | OutOfBounds.

Inductive Outcome (A : Type) : Type :=
  | Returned (a : A)
  | Stopped (why : Stop).
Arguments Returned {A}.
Arguments Stopped {A}.

#[export] Instance Outcome_ret : MRet Outcome := @Returned.
#[export] Instance Outcome_bind : MBind Outcome := fun A B k m =>
  match m with
  | Returned a => k a
  | Stopped why => Stopped why
  end.

Section Process.
Context `{JL : JsonLibrary} `{NL : NoiseLibrary}.

(** [calloc_ok n]: whether the allocation in the [n]-th call of
    [expect_binary_field] succeeds. *)
Variable calloc_ok : nat -> bool.

(** [reader->line_number] *)
Variable reader_line_number : JSONReader Lexer -> Z.

Definition expect_string_field (reader : JSONReader Lexer) (value : option string)
  : option string * JSONReader Lexer :=
  let reader := json_next_token reader in
  let reader := expect_token reader JSON_TOKEN_COLON ":" in
  if no_errors reader && JSONToken_eqb (token reader) JSON_TOKEN_STRING then
    let value := str_value reader in
    let reader := mkReader (errors reader) (token reader) None (lexer reader) in
    let reader := json_next_token reader in
    let reader :=
      if no_errors reader && JSONToken_eqb (token reader) JSON_TOKEN_COMMA
      then json_next_token reader else reader in
    (value, reader)
  else (value, reader).

(** [vec] and the reader while a vector is parsed; [calls] counts the
    calls of [expect_binary_field]. *)
Record Parse : Type := mkParse {
  reader : JSONReader Lexer;
  vec : RawVector;
  calls : nat
}.

Definition with_reader (r : JSONReader Lexer) (p : Parse) : Parse :=
  mkParse r (vec p) (calls p).

(** [expect_string_field(reader, &(vec.f))] *)
Definition string_field (f : StringField) (p : Parse) : Parse :=
  let '(value, r) := expect_string_field (reader p) (strings (vec p) f) in
  mkParse r (set_string f value (vec p)) (calls p).

(** [vec.f_len = expect_binary_field(reader, &(vec.f))] *)
Definition binary_field (f : BinaryField) (p : Parse) : Outcome Parse :=
  match expect_binary_field (calloc_ok (calls p)) (reader p) (ptr (blocks (vec p) f)) with
  | None => Stopped NullString
  | Some (size, value, r) =>
    Returned (mkParse r (set_block f (mkBlock value size) (vec p)) (S (calls p)))
  end.

(** The same for a buffer of [vec.messages[vec.num_messages]]. *)
Definition message_field (f : MessageField) (p : Parse) : Outcome Parse :=
  let index := Z.to_nat (raw_num_messages (vec p)) in
  match raw_messages (vec p) !! index with
  | None => Stopped OutOfBounds
  | Some m =>
    match expect_binary_field (calloc_ok (calls p)) (reader p) (ptr (message_block f m)) with
    | None => Stopped NullString
    | Some (size, value, r) =>
      let m := set_message_block f (mkBlock value size) m in
      Returned (mkParse r (set_messages (<[index := m]> (raw_messages (vec p))) (vec p))
                  (S (calls p)))
    end
  end.

(** [reader->str_value] under [%s]. *)
Definition shown (r : JSONReader Lexer) : string := default "(null)" (str_value r).

(** The loop over the fields of one message. *)
Fixpoint message_fields_loop (fuel : nat) (p : Parse) : Outcome Parse :=
  if no_errors (reader p) && JSONToken_eqb (token (reader p)) JSON_TOKEN_STRING then
    match fuel with
    | O => Stopped OutOfFuel
    | S fuel' =>
      if json_is_name (reader p) "payload" then
        p ← message_field F_payload p; message_fields_loop fuel' p
      else if json_is_name (reader p) "ciphertext" then
        p ← message_field F_ciphertext p; message_fields_loop fuel' p
      else
        message_fields_loop fuel'
          (with_reader
             (json_error (reader p) ("Unknown message field '" +:+ shown (reader p) +:+ "'"))
             p)
    end
  else Returned p.

(** From the two [Missing ...] tests to the end of the loop body. *)
Definition close_message (p : Parse) : Outcome Parse :=
  match raw_messages (vec p) !! Z.to_nat (raw_num_messages (vec p)) with
  | None => Stopped OutOfBounds
  | Some m =>
    let r := reader p in
    let r :=
      if is_Some_bool (ptr (raw_payload m)) then r
      else json_error r "Missing payload for message" in
    let r :=
      if is_Some_bool (ptr (raw_ciphertext m)) then r
      else json_error r "Missing ciphertext for message" in
    let v := set_num_messages (raw_num_messages (vec p) + 1) (vec p) in
    let r := expect_token r JSON_TOKEN_RBRACE "}" in
    let r :=
      if no_errors r && JSONToken_eqb (token r) JSON_TOKEN_COMMA
      then json_next_token r else r in
    Returned (mkParse r v (calls p))
  end.

(** The loop over the entries of ["messages"]. *)
Fixpoint messages_loop (fuel : nat) (p : Parse) : Outcome Parse :=
  if no_errors (reader p) && JSONToken_eqb (token (reader p)) JSON_TOKEN_LBRACE then
    match fuel with
    | O => Stopped OutOfFuel
    | S fuel' =>
      if raw_num_messages (vec p) >=? MAX_MESSAGES then
        (* break *)
        Returned (with_reader (json_error (reader p) "Too many messages for test vector") p)
      else
        let p := with_reader (expect_token (reader p) JSON_TOKEN_LBRACE "{") p in
        p ← message_fields_loop fuel p;
        p ← close_message p;
        messages_loop fuel' p
    end
  else Returned p.

(** The body of the loop over the fields of the vector. *)
Definition vector_field (fuel : nat) (p : Parse) : Outcome Parse :=
  let r := reader p in
  if json_is_name r "name" then
    Returned (string_field F_name
                (mkParse r (set_line_number (reader_line_number r) (vec p)) (calls p)))
  else if json_is_name r "pattern" then Returned (string_field F_pattern p)
  else if json_is_name r "dh" then Returned (string_field F_dh p)
  else if json_is_name r "cipher" then Returned (string_field F_cipher p)
  else if json_is_name r "hash" then Returned (string_field F_hash p)
  else if json_is_name r "init_static" then binary_field F_init_static p
  else if json_is_name r "init_remote_static" then binary_field F_resp_public_static p
  else if json_is_name r "resp_static" then binary_field F_resp_static p
  else if json_is_name r "resp_remote_static" then binary_field F_init_public_static p
  else if json_is_name r "init_ephemeral" then binary_field F_init_ephemeral p
  else if json_is_name r "resp_ephemeral" then binary_field F_resp_ephemeral p
  else if json_is_name r "init_prologue" then binary_field F_init_prologue p
  else if json_is_name r "resp_prologue" then binary_field F_resp_prologue p
  else if json_is_name r "init_psk" then binary_field F_init_psk p
  else if json_is_name r "resp_psk" then binary_field F_resp_psk p
  else if json_is_name r "messages" then
    let r := json_next_token r in
    let r := expect_token r JSON_TOKEN_COLON ":" in
    let r := expect_token r JSON_TOKEN_LSQUARE "[" in
    p ← messages_loop fuel (with_reader r p);
    let r := expect_token (reader p) JSON_TOKEN_RSQUARE "]" in
    let r :=
      if no_errors r && JSONToken_eqb (token r) JSON_TOKEN_COMMA
      then json_next_token r else r in
    Returned (with_reader r p)
  else
    Returned (with_reader (json_error r ("Unknown field '" +:+ shown r +:+ "'")) p).

Fixpoint fields_loop (fuel : nat) (p : Parse) : Outcome Parse :=
  if no_errors (reader p) && JSONToken_eqb (token (reader p)) JSON_TOKEN_STRING then
    match fuel with
    | O => Stopped OutOfFuel
    | S fuel' => p ← vector_field fuel p; fields_loop fuel' p
    end
  else Returned p.

(** What one call did: the value returned, the reader and the library
    afterwards, and the vector given to [test_vector_run] if it was
    called. *)
Record Processed : Type := mkProcessed {
  retval : Z;
  reader_after : JSONReader Lexer;
  state_after : RunState;
  vector_run : option TestVector
}.

Definition process_test_vector (fuel : nat) (r : JSONReader Lexer) (s : RunState)
  : Outcome Processed :=
  p ← fields_loop fuel (mkParse r zero_vector 0);
  if no_errors (reader p) then
    match to_vector (vec p) with
    | None => Stopped NullMessage
    | Some v =>
      match test_vector_run v s with
      | (Some value, s') => Returned (mkProcessed value (reader p) s' (Some v))
      | (None, _) => Stopped NullString
      end
    end
  else Returned (mkProcessed 1 (reader p) s None).

End Process.

End VectorParser.

(** ** The files of the command line ([main] of the test driver) *)

Module VectorDriver.
Import TestVector.

Section Main.
Context `{JL : JsonLibrary}.
Variable process_test_vector : JSONReader Lexer -> Z * JSONReader Lexer.

(** [fopen(argv[1], "r")] in turn [k] of the loop ([None] is [NULL]), and
    [json_init] on the file it opened. *)
Variable FILE : Type.
Variable fopen : nat -> string -> option FILE.
Variable json_init : string -> FILE -> JSONReader Lexer.

(** [while (argc > 1) { ... --argc; ++argv; }]: [files] are [argv[1]] and
    the arguments after it. *)
Fixpoint files_loop (fuel : nat) (k : nat) (files : list string) (retval : Z) : option Z :=
  match files with
  | [] => Some retval
  | path :: rest =>
    match fopen k path with
    | Some file =>
      match process_test_vectors process_test_vector fuel (json_init path file) with
      | None => None
      | Some (reader, _) =>
        files_loop fuel (S k) rest (if errors reader >? 0 then 1 else retval)
      end
    | None => files_loop fuel (S k) rest 1
    end
  end.

(** The exit status, [None] when a file needed more than [fuel] turns of
    the loop over its vectors. *)
Definition main (fuel : nat) (argv : list string) : option Z :=
  let argc := Z.of_nat (length argv) in
  if argc <=? 1 then Some 1 else files_loop fuel 0 (drop 1 argv) 0.

End Main.

End VectorDriver.

(** ** What a failed comparison prints ([dump_block]) *)

Module Diagnostics.

(** The character [%x] prints for a digit. *)
Definition hex_char (d : Z) : ascii :=
  default "0"%char (String.get (Z.to_nat d) "0123456789abcdef").

(** [printf(" %02x", b)] for a [uint8_t] value [b]. *)
Definition printf_02x (b : Z) : string :=
  String " " (String (hex_char (b / 16)) (String (hex_char (b mod 16)) EmptyString)).

Definition newline : ascii := ascii_of_nat 10.

(** [printf("\n       ")] *)
Definition break_line : string := String newline "       ".

(** The [for] loop from [index] on, [block] being the bytes left. *)
Fixpoint dump_loop (block : list Z) (index : nat) (len : Z) : string :=
  match block with
  | [] => EmptyString
  | b :: rest =>
    printf_02x b
    +:+ (if (Z.of_nat index mod 16 =? 15) && (len >? 16) then break_line else EmptyString)
    +:+ dump_loop rest (S index) len
  end.

(** What [dump_block(block, len)] prints, [block] being the [len] bytes. *)
Definition dump_block (block : list Z) : string :=
  let len := Z.of_nat (length block) in
  (if len >? 16 then break_line else EmptyString)
  +:+ dump_loop block 0 len +:+ String newline EmptyString.

End Diagnostics.

(** ** The echo helpers ([echo-common.h])

    [EchoProtocolId] is kept as the bytes received for it. *)

Class EchoCommon `{NL : NoiseLibrary} : Type := {
  sizeof_EchoProtocolId : Z;
  echo_accept : Z -> World -> Z * World;
  (* descriptor, size wanted: success flag, bytes stored *)
  echo_recv_exact : Z -> Z -> World -> (Z * list Z) * World;
  echo_to_noise_protocol_id : list Z -> Z * NoiseProtocolId;
  (* descriptor, capacity: size returned (0 on failure), bytes stored *)
  echo_recv : Z -> Z -> World -> (Z * list Z) * World;
  (* descriptor, the bytes to send: success flag *)
  echo_send : Z -> list Z -> World -> Z * World;
  echo_close : Z -> World -> World
}.

Module EchoServer.

Definition CURVE25519_KEY_LEN : Z := 32.
Definition CURVE448_KEY_LEN : Z := 56.
Definition MAX_MESSAGE_LEN : Z := 65535.

(** [sizeof(message)] for [static uint8_t message[MAX_MESSAGE_LEN + 2]]. *)
Definition sizeof_message : Z := MAX_MESSAGE_LEN + 2.

(** The keys loaded by [main] before it accepts a connection. *)
Record Keys : Type := mkKeys {
  client_key_25519 : list Z;
  server_key_25519 : list Z;
  client_key_448 : list Z;
  server_key_448 : list Z;
  psk : list Z
}.

Inductive KeyName : Type :=
  | Client25519
  | Server25519
  | Client448
  | Server448.

(** [buf] with [data] stored from [offset] on. *)
Definition store (buf : list Z) (offset : nat) (data : list Z) : list Z :=
  take offset buf ++ data ++ drop (offset + length data) buf.

(** The [len] bytes at [buf + offset]. *)
Definition slice (buf : list Z) (offset : nat) (len : Z) : list Z :=
  take (Z.to_nat len) (drop offset buf).

Section Server.
Context `{EC : EchoCommon}.

(** Ghost events, one for each call the properties speak of.  [EvHandshakeIn]
    and [EvDecrypt] carry the size [echo_recv] returned and the offset and
    length handed on; [EvSend] carries [message_size] and the bytes given
    to [echo_send]. *)
Inductive EchoEvent : Type :=
  | EvSetPrivateKey (key : KeyName)
  | EvSetPublicKey (key : KeyName)
  | EvWriteMessage (capacity : Z)
  | EvHandshakeIn (received : Z) (offset : Z) (len : Z)
  | EvSplit (first second : option NoiseCipherState)
  | EvDecrypt (c : option NoiseCipherState) (received : Z) (offset : Z) (len : Z)
  | EvEncrypt (c : option NoiseCipherState) (offset : Z) (len : Z)
  | EvSend (message_size : Z) (packet : list Z).

(** *** [initialize_handshake] *)

(** The local [err], the world and the events so far. *)
Record Init : Type := mkInit {
  err : Z;
  init_world : World;
  init_events : list EchoEvent
}.

(** Each block yields [true] when it ends in [return 0]. *)
Definition prologue_block (handshake : option NoiseHandshakeState) (prologue : list Z)
    (w : World) : bool * Init :=
  let '(e, w) := noise_handshakestate_set_prologue handshake prologue w in
  (negb (e =? NOISE_ERROR_NONE), mkInit e w []).

Definition psk_block (keys : Keys) (handshake : option NoiseHandshakeState)
    (nid : NoiseProtocolId) (i : Init) : bool * Init :=
  if prefix_id nid =? NOISE_PREFIX_PSK then
    let '(e, w) :=
      noise_handshakestate_set_pre_shared_key handshake (psk keys) (init_world i) in
    (negb (e =? NOISE_ERROR_NONE), mkInit e w (init_events i))
  else (false, i).

Definition local_keypair_block (keys : Keys) (handshake : option NoiseHandshakeState)
    (i : Init) : bool * Init :=
  if negb (noise_handshakestate_needs_local_keypair handshake (init_world i) =? 0) then
    let dh := noise_handshakestate_get_local_keypair_dh handshake (init_world i) in
    let dh_id := noise_dhstate_get_dh_id dh (init_world i) in
    let i :=
      if dh_id =? NOISE_DH_CURVE25519 then
        let '(e, w) :=
          noise_dhstate_set_keypair_private dh (server_key_25519 keys) (init_world i) in
        mkInit e w (init_events i ++ [EvSetPrivateKey Server25519])
      else if dh_id =? NOISE_DH_CURVE448 then
        let '(e, w) :=
          noise_dhstate_set_keypair_private dh (server_key_448 keys) (init_world i) in
        mkInit e w (init_events i ++ [EvSetPrivateKey Server448])
      else mkInit NOISE_ERROR_UNKNOWN_ID (init_world i) (init_events i) in
    (negb (err i =? NOISE_ERROR_NONE), i)
  else (false, i).

Definition remote_public_key_block (keys : Keys) (handshake : option NoiseHandshakeState)
    (i : Init) : bool * Init :=
  if negb (noise_handshakestate_needs_remote_public_key handshake (init_world i) =? 0) then
    let dh := noise_handshakestate_get_remote_public_key_dh handshake (init_world i) in
    let dh_id := noise_dhstate_get_dh_id dh (init_world i) in
    let i :=
      if dh_id =? NOISE_DH_CURVE25519 then
        let '(e, w) :=
          noise_dhstate_set_public_key dh (client_key_25519 keys) (init_world i) in
        mkInit e w (init_events i ++ [EvSetPublicKey Client25519])
      else if dh_id =? NOISE_DH_CURVE25519 then
        let '(e, w) :=
          noise_dhstate_set_public_key dh (client_key_448 keys) (init_world i) in
        mkInit e w (init_events i ++ [EvSetPublicKey Client448])
      else mkInit NOISE_ERROR_UNKNOWN_ID (init_world i) (init_events i) in
    (negb (err i =? NOISE_ERROR_NONE), i)
  else (false, i).

(** The blocks before the remote public key: [inl] is a [return 0]. *)
Definition before_remote_public_key (keys : Keys) (handshake : option NoiseHandshakeState)
    (nid : NoiseProtocolId) (prologue : list Z) (w : World) : Init + Init :=
  let '(returned, i) := prologue_block handshake prologue w in
  if returned then inl i else
  let '(returned, i) := psk_block keys handshake nid i in
  if returned then inl i else
  let '(returned, i) := local_keypair_block keys handshake i in
  if returned then inl i else inr i.

Definition initialize_handshake (keys : Keys) (handshake : option NoiseHandshakeState)
    (nid : NoiseProtocolId) (prologue : list Z) (w : World) : Z * Init :=
  match before_remote_public_key keys handshake nid prologue w with
  | inl i => (0, i)
  | inr i =>
    let '(returned, i) := remote_public_key_block keys handshake i in
    if returned then (0, i) else (1, i)
  end.

(** *** [main]

    The locals of [main] and the [message] buffer; [events] is ghost. *)
Record Server : Type := mkServer {
  world : World;
  handshake : option NoiseHandshakeState;
  send_cipher : option NoiseCipherState;
  recv_cipher : option NoiseCipherState;
  message : list Z;
  message_size : Z;
  payload_size : Z;
  ok : bool;
  fd : Z;
  events : list EchoEvent
}.

Definition set_world (w : World) (st : Server) : Server :=
  mkServer w (handshake st) (send_cipher st) (recv_cipher st) (message st)
    (message_size st) (payload_size st) (ok st) (fd st) (events st).

Definition set_handshake (h : option NoiseHandshakeState) (st : Server) : Server :=
  mkServer (world st) h (send_cipher st) (recv_cipher st) (message st)
    (message_size st) (payload_size st) (ok st) (fd st) (events st).

Definition set_ciphers (send recv : option NoiseCipherState) (st : Server) : Server :=
  mkServer (world st) (handshake st) send recv (message st)
    (message_size st) (payload_size st) (ok st) (fd st) (events st).

Definition set_message (m : list Z) (st : Server) : Server :=
  mkServer (world st) (handshake st) (send_cipher st) (recv_cipher st) m
    (message_size st) (payload_size st) (ok st) (fd st) (events st).

Definition set_message_size (n : Z) (st : Server) : Server :=
  mkServer (world st) (handshake st) (send_cipher st) (recv_cipher st) (message st)
    n (payload_size st) (ok st) (fd st) (events st).

Definition set_payload_size (n : Z) (st : Server) : Server :=
  mkServer (world st) (handshake st) (send_cipher st) (recv_cipher st) (message st)
    (message_size st) n (ok st) (fd st) (events st).

(** [ok = 0] *)
Definition failed (st : Server) : Server :=
  mkServer (world st) (handshake st) (send_cipher st) (recv_cipher st) (message st)
    (message_size st) (payload_size st) false (fd st) (events st).

Definition record (es : list EchoEvent) (st : Server) : Server :=
  mkServer (world st) (handshake st) (send_cipher st) (recv_cipher st) (message st)
    (message_size st) (payload_size st) (ok st) (fd st) (events st ++ es).

(** [message] before [main] runs: a static array is zeroed. *)
Definition initial_message : list Z := replicate (Z.to_nat sizeof_message) 0.

(** [message[0] = (uint8_t)(message_size >> 8); message[1] = (uint8_t)message_size;]
    followed by [echo_send(fd, message, message_size + 2)]: the flag is
    [false] when the send failed. *)
Definition send_message (st : Server) : bool * Server :=
  let st := set_message (<[0%nat := uint8_t (Z.shiftr (message_size st) 8)]> (message st)) st in
  let st := set_message (<[1%nat := uint8_t (message_size st)]> (message st)) st in
  let packet := take (Z.to_nat (message_size st + 2)) (message st) in
  let '(sent, w) := echo_send (fd st) packet (world st) in
  let st := record [EvSend (message_size st) packet] (set_world w st) in
  if sent =? 0 then (false, failed st) else (true, st).

(** From [echo_accept] to [noise_handshakestate_start]; the options are
    parsed and the keys loaded before.  [message_size] and [payload_size]
    are not initialised in the source and are written before they are read
    here; they start at 0. *)
Definition connect (keys : Keys) (port : Z) (w : World) : Server :=
  let '(fd, w) := echo_accept port w in
  let st := mkServer w None None None initial_message 0 0 true fd [] in
  let '((received, id), w) := echo_recv_exact fd sizeof_EchoProtocolId (world st) in
  let st := set_world w st in
  let st := if received =? 0 then failed st else st in
  let '(known, nid) := echo_to_noise_protocol_id id in
  let st := if ok st && (known =? 0) then failed st else st in
  let st :=
    if ok st then
      let '((e, h), w) :=
        noise_handshakestate_new_by_id nid NOISE_ROLE_RESPONDER (world st) in
      let st := set_handshake h (set_world w st) in
      if negb (e =? NOISE_ERROR_NONE) then failed st else st
    else st in
  let st :=
    if ok st then
      let '(ready, i) := initialize_handshake keys (handshake st) nid id (world st) in
      let st := record (init_events i) (set_world (init_world i) st) in
      if ready =? 0 then failed st else st
    else st in
  if ok st then
    let '(e, w) := noise_handshakestate_start (handshake st) (world st) in
    let st := set_world w st in
    if negb (e =? NOISE_ERROR_NONE) then failed st else st
  else st.

(** One turn of the handshake loop, entered with [ok] set: the flag is
    [false] on [break]. *)
Definition handshake_step (st : Server) : bool * Server :=
  let action := noise_handshakestate_get_action (handshake st) (world st) in
  if action =? NOISE_ACTION_WRITE_MESSAGE then
    let st := set_message_size (sizeof_message - 2) st in
    let '((e, out), w) :=
      noise_handshakestate_write_message (handshake st) None (message_size st) (world st) in
    let st := record [EvWriteMessage (message_size st)] st in
    let st := set_message_size (Z.of_nat (length out))
                (set_message (store (message st) 2 out) (set_world w st)) in
    if negb (e =? NOISE_ERROR_NONE) then (false, failed st)
    else send_message st
  else if action =? NOISE_ACTION_READ_MESSAGE then
    let '((n, data), w) := echo_recv (fd st) sizeof_message (world st) in
    let st := set_message_size n (set_message (store (message st) 0 data) (set_world w st)) in
    if message_size st =? 0 then (false, failed st)
    else
      let st := set_message_size (size_t (message_size st - 2)) st in
      let '((e, payload), w) :=
        noise_handshakestate_read_message (handshake st)
          (slice (message st) 2 (message_size st)) None (world st) in
      let st := record [EvHandshakeIn n 2 (message_size st)] st in
      let st := set_payload_size (Z.of_nat (length payload)) (set_world w st) in
      if negb (e =? NOISE_ERROR_NONE) then (false, failed st) else (true, st)
  else (false, st).

(** [while (ok) { ... }]: the flag is [false] when the fuel ran out. *)
Fixpoint handshake_loop (fuel : nat) (st : Server) : bool * Server :=
  if ok st then
    match fuel with
    | O => (false, st)
    | S fuel' =>
      let '(again, st) := handshake_step st in
      if again then handshake_loop fuel' st else (true, st)
    end
  else (true, st).

(** From the test for [NOISE_ACTION_SPLIT] to the release of the
    HandshakeState. *)
Definition split_cipherstates (st : Server) : Server :=
  let st :=
    if ok st && negb (noise_handshakestate_get_action (handshake st) (world st)
                      =? NOISE_ACTION_SPLIT)
    then failed st else st in
  let st :=
    if ok st then
      (* noise_handshakestate_split(handshake, &recv_cipher, &send_cipher) *)
      let '((e, first, second), w) :=
        noise_handshakestate_split (handshake st) (world st) in
      let st := set_ciphers second first (set_world w st) in
      let st := record [EvSplit first second] st in
      if negb (e =? NOISE_ERROR_NONE) then failed st else st
    else st in
  let '(_, w) := noise_handshakestate_free (handshake st) (world st) in
  set_handshake None (set_world w st).

(** One turn of the echo loop: the flag is [false] on [break]. *)
Definition echo_step (st : Server) : bool * Server :=
  let '((n, data), w) := echo_recv (fd st) sizeof_message (world st) in
  let st := set_message_size n (set_message (store (message st) 0 data) (set_world w st)) in
  if message_size st =? 0 then (false, st)
  else
    let len := size_t (message_size st - 2) in
    let '((e, out), w) :=
      noise_cipherstate_decrypt_with_ad (recv_cipher st) None
        (slice (message st) 2 len) (world st) in
    let st := record [EvDecrypt (recv_cipher st) n 2 len] st in
    let st := set_payload_size (Z.of_nat (length out))
                (set_message (store (message st) 2 out) (set_world w st)) in
    if negb (e =? NOISE_ERROR_NONE) then (false, failed st)
    else
      let '((e, out), w) :=
        noise_cipherstate_encrypt_with_ad (send_cipher st) None
          (slice (message st) 2 (payload_size st)) (world st) in
      let st := record [EvEncrypt (send_cipher st) 2 (payload_size st)] st in
      let st := set_message_size (Z.of_nat (length out))
                  (set_message (store (message st) 2 out) (set_world w st)) in
      if negb (e =? NOISE_ERROR_NONE) then (false, failed st)
      else send_message st.

Fixpoint echo_loop (fuel : nat) (st : Server) : bool * Server :=
  if ok st then
    match fuel with
    | O => (false, st)
    | S fuel' =>
      let '(again, st) := echo_step st in
      if again then echo_loop fuel' st else (true, st)
    end
  else (true, st).

Definition clean_up (st : Server) : Z * Server :=
  let '(_, w) := noise_cipherstate_free (send_cipher st) (world st) in
  let '(_, w) := noise_cipherstate_free (recv_cipher st) w in
  let w := echo_close (fd st) w in
  (if ok st then 0 else 1, set_world w st).

(** [main] from [echo_accept] on.  The exit status is [None] when a loop
    was cut short by [fuel]; the events are then those of the run so far. *)
Definition main (fuel : nat) (keys : Keys) (port : Z) (w : World) : option Z * Server :=
  let st := connect keys port w in
  let '(finished, st) := handshake_loop fuel st in
  if negb finished then (None, st) else
  let st := split_cipherstates st in
  let '(finished, st) := echo_loop fuel st in
  if negb finished then (None, st) else
  let '(status, st) := clean_up st in
  (Some status, st).

End Server.

End EchoServer.

(** ** Reference implementations of the interfaces

    A token-list reader and a loopback library in which a message is its
    own ciphertext and a handshake takes two messages.  The statements
    below are exercised on them. *)

Module Loopback.

Definition TokenStream : Type := list (JSONToken * option string).

Definition next_token (r : JSONReader TokenStream) : JSONReader TokenStream :=
  match lexer r with
  | [] => mkReader (errors r) JSON_TOKEN_END None []
  | (t, v) :: rest => mkReader (errors r) t v rest
  end.

Definition json : JsonLibrary := {|
  Lexer := TokenStream;
  json_next_token := next_token;
  json_error := fun r _ => mkReader (errors r + 1) (token r) (str_value r) (lexer r);
  json_is_name := fun r n =>
    JSONToken_eqb (token r) JSON_TOKEN_STRING
    && match str_value r with Some s => String.eqb s n | None => false end
|}.

(** A reader stopped on the first token of [tokens]. *)
Definition reader_on (tokens : TokenStream) : JSONReader TokenStream :=
  next_token (mkReader 0 JSON_TOKEN_END None tokens).

(** A vector parser that skips to the closing brace. *)
Fixpoint skip_vector (fuel : nat) (r : JSONReader TokenStream) : JSONReader TokenStream :=
  match fuel with
  | O => r
  | S fuel' =>
    if JSONToken_eqb (token r) JSON_TOKEN_RBRACE || JSONToken_eqb (token r) JSON_TOKEN_END
    then r else skip_vector fuel' (next_token r)
  end.

Definition process_vector (r : JSONReader TokenStream) : Z * JSONReader TokenStream :=
  (1, skip_vector 8 r).

(** [{ "vectors" : [ {}, {}, ... ] }] with [n] vectors, then [tail]. *)
Definition vectors_file (n : nat) (tail : TokenStream) : TokenStream :=
  [(JSON_TOKEN_LBRACE, None); (JSON_TOKEN_STRING, Some "vectors");
   (JSON_TOKEN_COLON, None); (JSON_TOKEN_LSQUARE, None)]
  ++ concat (replicate n [(JSON_TOKEN_LBRACE, None); (JSON_TOKEN_RBRACE, None);
                          (JSON_TOKEN_COMMA, None)])
  ++ tail.

Record LoopbackWorld : Type := mkWorld {
  init_done : nat;
  resp_done : nat;
  inbox : list (list Z);
  outbox : list (list Z);
  remote_dh : Z
}.

Definition ROLE_INITIATOR : Z := 0x5201.
Definition ROLE_RESPONDER : Z := 0x5202.
Definition ACTION_WRITE_MESSAGE : Z := 0x4101.
Definition ACTION_READ_MESSAGE : Z := 0x4102.
Definition ACTION_SPLIT : Z := 0x4104.
Definition ERROR_INVALID_LENGTH : Z := 0x4507.

Definition is_initiator (h : option Z) : bool :=
  match h with Some r => r =? ROLE_INITIATOR | None => false end.

Definition done (h : option Z) (w : LoopbackWorld) : nat :=
  if is_initiator h then init_done w else resp_done w.

Definition advance (h : option Z) (w : LoopbackWorld) : LoopbackWorld :=
  if is_initiator h
  then mkWorld (S (init_done w)) (resp_done w) (inbox w) (outbox w) (remote_dh w)
  else mkWorld (init_done w) (S (resp_done w)) (inbox w) (outbox w) (remote_dh w).

Definition get_action (h : option Z) (w : LoopbackWorld) : Z :=
  if (2 <=? done h w)%nat then ACTION_SPLIT
  else if Bool.eqb (Nat.even (done h w)) (is_initiator h) then ACTION_WRITE_MESSAGE
  else ACTION_READ_MESSAGE.

(** The data itself, refused when longer than [limit]. *)
Definition pass_through (limit : Z) (data : list Z) (w w' : LoopbackWorld)
  : (Z * list Z) * LoopbackWorld :=
  if Z.of_nat (length data) <=? limit then ((0, data), w') else ((ERROR_INVALID_LENGTH, []), w).

Definition id_to_name (category id : Z) : option string :=
  if category =? 0x5000 then Some "NN"
  else if category =? 0x4400 then Some "25519"
  else if category =? 0x4300 then Some "ChaChaPoly"
  else if category =? 0x4800 then Some "SHA256"
  else None.

Definition noise : NoiseLibrary := {|
  World := LoopbackWorld;
  NoiseHandshakeState := Z;
  NoiseCipherState := Z;
  NoiseDHState := Z;
  NOISE_ERROR_NONE := 0;
  NOISE_ERROR_UNKNOWN_ID := 0x4502;
  NOISE_PREFIX_STANDARD := 0x4E01;
  NOISE_PREFIX_PSK := 0x4E02;
  NOISE_PATTERN_CATEGORY := 0x5000;
  NOISE_DH_CATEGORY := 0x4400;
  NOISE_CIPHER_CATEGORY := 0x4300;
  NOISE_HASH_CATEGORY := 0x4800;
  NOISE_DH_CURVE25519 := 0x4401;
  NOISE_DH_CURVE448 := 0x4402;
  NOISE_ROLE_INITIATOR := ROLE_INITIATOR;
  NOISE_ROLE_RESPONDER := ROLE_RESPONDER;
  NOISE_ACTION_WRITE_MESSAGE := ACTION_WRITE_MESSAGE;
  NOISE_ACTION_READ_MESSAGE := ACTION_READ_MESSAGE;
  NOISE_ACTION_SPLIT := ACTION_SPLIT;
  noise_id_to_name := id_to_name;
  noise_protocol_name_to_id := fun _ _ => (0, mkProtocolId 0x4E01 0 0 0 0 0);
  noise_handshakestate_new_by_name := fun _ role w => ((0, Some role), w);
  noise_handshakestate_new_by_id := fun _ role w => ((0, Some role), w);
  noise_handshakestate_free := fun _ w => (0, w);
  noise_handshakestate_get_local_keypair_dh := fun _ _ => Some 1;
  noise_handshakestate_get_remote_public_key_dh := fun _ _ => Some 2;
  noise_handshakestate_get_fixed_ephemeral_dh_ := fun _ _ => Some 3;
  noise_handshakestate_needs_local_keypair := fun _ _ => 0;
  noise_handshakestate_needs_remote_public_key := fun _ _ => 1;
  noise_handshakestate_set_prologue := fun _ _ w => (0, w);
  noise_handshakestate_set_pre_shared_key := fun _ _ w => (0, w);
  noise_handshakestate_start := fun _ w => (0, w);
  noise_handshakestate_get_action := get_action;
  noise_handshakestate_write_message := fun h payload capacity w =>
    pass_through capacity (default [] payload) w (advance h w);
  noise_handshakestate_read_message := fun h message _ w =>
    pass_through 65535 message w (advance h w);
  noise_handshakestate_split := fun _ w => ((0, Some 1, Some 2), w);
  noise_dhstate_get_dh_id := fun _ w => remote_dh w;
  noise_dhstate_set_keypair_private := fun _ _ w => (0, w);
  noise_dhstate_set_public_key := fun _ _ w => (0, w);
  noise_cipherstate_encrypt_with_ad := fun _ _ data w => pass_through 65535 data w w;
  noise_cipherstate_decrypt_with_ad := fun _ _ data w => pass_through 65535 data w w;
  noise_cipherstate_free := fun _ w => (0, w)
|}.

Definition echo : @EchoCommon noise := {|
  sizeof_EchoProtocolId := 5;
  echo_accept := fun _ (w : @World noise) => (3, w);
  echo_recv_exact := fun _ _ (w : @World noise) => ((1, [0; 0; 0; 0; 0]), w);
  echo_to_noise_protocol_id := fun _ => (1, mkProtocolId 0x4E01 0 0 0 0 0);
  echo_recv := fun _ _ (w : @World noise) =>
    match inbox w with
    | [] => ((0, []), w)
    | p :: rest =>
      ((Z.of_nat (length p), p),
       mkWorld (init_done w) (resp_done w) rest (outbox w) (remote_dh w))
    end;
  echo_send := fun _ packet (w : @World noise) =>
    (1, mkWorld (init_done w) (resp_done w) (inbox w) (outbox w ++ [packet]) (remote_dh w));
  echo_close := fun _ (w : @World noise) => w
|}.

End Loopback.

(** * Properties of the test-vector driver *)

Section ParserProperties.
Context `{JL : JsonLibrary}.
Import TestVector.

(** ** Hexadecimal fields *)

(** The position of a character in a string of distinct characters. *)
Fixpoint position (c : ascii) (digits : string) : option Z :=
  match digits with
  | EmptyString => None
  | String d rest =>
    if Ascii.eqb c d then Some 0
    else match position c rest with
         | Some i => Some (i + 1)
         | None => None
         end
  end.

(** The value of a hexadecimal digit: ['0'] to ['9'] are 0 to 9, ['A'] to
    ['F'] and ['a'] to ['f'] are 10 to 15. *)
Definition hex_digit_value (c : ascii) : option Z :=
  match position c "0123456789", position c "ABCDEF", position c "abcdef" with
  | Some i, _, _ => Some i
  | None, Some i, _ => Some (10 + i)
  | None, None, Some i => Some (10 + i)
  | None, None, None => None
  end.

(** The digit value of character [j] of the C string [hex], if it is one. *)
Definition digit_at (hex : string) (j : nat) : option Z :=
  match String.get j (cstring hex) with
  | Some c => hex_digit_value c
  | None => None
  end.

Lemma from_hex_digit_table (c : ascii) :
  from_hex_digit (char_to_int c) = default (-1) (hex_digit_value c).
Proof.
  destruct c as [[] [] [] [] [] [] [] []]; reflexivity.
Qed.

Lemma hex_digit_value_range (c : ascii) (d : Z) :
  hex_digit_value c = Some d -> 0 <= d <= 15.
Proof.
  destruct c as [[] [] [] [] [] [] [] []]; vm_compute; intros H; inversion H;
    split; discriminate.
Qed.

Lemma from_hex_digit_char_at (hex : string) (j : nat) :
  from_hex_digit (char_at hex j) = default (-1) (digit_at hex j).
Proof.
  unfold char_at, digit_at.
  destruct (String.get j (cstring hex)) as [c|]; [apply from_hex_digit_table | reflexivity].
Qed.

Lemma digit_at_range (hex : string) (j : nat) (d : Z) :
  digit_at hex j = Some d -> 0 <= d <= 15.
Proof.
  unfold digit_at. destruct (String.get j (cstring hex)); [apply hex_digit_value_range | discriminate].
Qed.

(** The loop on valid digits: entries from [posn] on are decoded, the
    others are left alone. *)
Lemma hex_loop_valid (hex : string) (n : nat) :
  forall (posn : nat) (value : list Z),
    (forall j, (posn * 2 <= j < (posn + n) * 2)%nat -> is_Some (digit_at hex j)) ->
    (posn + n <= length value)%nat ->
    exists buf,
      hex_loop n posn hex value = (buf, true)
      /\ length buf = length value
      /\ (forall i, (i < posn)%nat -> buf !! i = value !! i)
      /\ (forall i, (posn <= i < posn + n)%nat ->
            exists d1 d2, digit_at hex (2 * i) = Some d1
                          /\ digit_at hex (2 * i + 1) = Some d2
                          /\ buf !! i = Some (16 * d1 + d2)).
Proof.
  induction n as [|n IH]; intros posn value Hdig Hlen.
  - exists value. split; [reflexivity|]. split; [reflexivity|]. split; [auto|]. intros i Hi. lia.
  - cbn [hex_loop].
    destruct (Hdig (posn * 2)%nat) as [d1 Hd1]; [lia|].
    destruct (Hdig (posn * 2 + 1)%nat) as [d2 Hd2]; [lia|].
    rewrite !from_hex_digit_char_at, Hd1, Hd2. cbn [from_option id].
    pose proof (digit_at_range _ _ _ Hd1) as R1.
    pose proof (digit_at_range _ _ _ Hd2) as R2.
    replace (d1 <? 0) with false by (symmetry; apply Z.ltb_ge; lia).
    replace (d2 <? 0) with false by (symmetry; apply Z.ltb_ge; lia).
    cbn [orb].
    assert (Hu : uint8_t (d1 * 16 + d2) = 16 * d1 + d2).
    { unfold uint8_t. rewrite Z.mod_small; lia. }
    rewrite Hu.
    destruct (IH (S posn) (<[posn := 16 * d1 + d2]> value)) as (buf & Hrun & Hl & Hlow & Hhigh).
    + intros j Hj. apply Hdig. lia.
    + rewrite length_insert. lia.
    + exists buf. split; [exact Hrun|]. rewrite length_insert in Hl.
      split; [exact Hl|]. split.
      * intros i Hi. rewrite Hlow by lia. apply list_lookup_insert_ne. lia.
      * intros i Hi. destruct (decide (i = posn)) as [->|Hne].
        -- exists d1, d2. replace (2 * posn)%nat with (posn * 2)%nat by lia.
           split; [exact Hd1|]. split; [exact Hd2|].
           rewrite Hlow by lia. apply list_lookup_insert_eq. lia.
        -- apply Hhigh. lia.
Qed.

(** The loop stops at the first pair with a character that is no digit. *)
Lemma hex_loop_invalid (hex : string) (n : nat) :
  forall (posn : nat) (value : list Z),
    (exists j, (posn * 2 <= j < (posn + n) * 2)%nat /\ digit_at hex j = None) ->
    exists buf, hex_loop n posn hex value = (buf, false).
Proof.
  induction n as [|n IH]; intros posn value (j & Hj & Hnone).
  - lia.
  - cbn [hex_loop]. rewrite !from_hex_digit_char_at.
    destruct (digit_at hex (posn * 2)) as [d1|] eqn:Hd1; cbn [from_option id];
      [|change (-1 <? 0) with true; cbn [orb]; eauto].
    destruct (digit_at hex (posn * 2 + 1)) as [d2|] eqn:Hd2; cbn [from_option id];
      [|change (-1 <? 0) with true; rewrite orb_true_r; eauto].
    pose proof (digit_at_range _ _ _ Hd1) as R1.
    pose proof (digit_at_range _ _ _ Hd2) as R2.
    replace (d1 <? 0) with false by (symmetry; apply Z.ltb_ge; lia).
    replace (d2 <? 0) with false by (symmetry; apply Z.ltb_ge; lia).
    cbn [orb]. apply IH. exists j. split; [|exact Hnone].
    destruct (decide (j = posn * 2)%nat) as [->|]; [congruence|].
    destruct (decide (j = posn * 2 + 1)%nat) as [->|]; [congruence|]. lia.
Qed.

Lemma strlen_nonneg (s : string) : 0 <= strlen s.
Proof. unfold strlen. lia. Qed.

(** The reader after a value that was decoded: the string is passed, and
    the comma after it if there is one.  [json_error] is not called. *)
Definition after_value (r1 : JSONReader Lexer) : JSONReader Lexer :=
  let r := json_next_token r1 in
  if no_errors r && JSONToken_eqb (token r) JSON_TOKEN_COMMA then json_next_token r else r.

(** Bytes [0] to [n - 1] of [buf] are the pairs of digits of [hex]. *)
Definition decodes (hex : string) (n : nat) (buf : list Z) : Prop :=
  forall i, (i < n)%nat ->
    exists d1 d2, digit_at hex (2 * i) = Some d1
                  /\ digit_at hex (2 * i + 1) = Some d2
                  /\ buf !! i = Some (16 * d1 + d2).

Lemma after_value_errors (r1 : JSONReader Lexer) :
  (forall r, errors (json_next_token r) = errors r) ->
  errors (after_value r1) = errors r1.
Proof.
  intros Hnext. unfold after_value. destruct (_ && _); rewrite ?Hnext; reflexivity.
Qed.

(** C9: [expect_binary_field] on a string value [hex] of length [L] decodes
    [L / 2] bytes, byte [i] being [16 * d(2i) + d(2i+1)] for the digit
    table [d], and goes on to the next token; when one of the first
    [2 * (L / 2)] characters is no hexadecimal digit it raises "Invalid
    hexadecimal data" and returns 0.  The last character of a string of odd
    length is not looked at: whatever it is, the result is that of the
    decoded case, [json_error] is not called, and the error count stays 0
    when [json_next_token] leaves it alone. *)
Theorem expect_binary_field_decodes (reader : JSONReader Lexer) (value : option (list Z))
    (hex : string) :
  let r1 := expect_token (json_next_token reader) JSON_TOKEN_COLON ":" in
  let L := strlen hex in
  errors r1 = 0 -> token r1 = JSON_TOKEN_STRING -> str_value r1 = Some hex ->
  ((forall j, (j < 2 * Z.to_nat (L / 2))%nat -> is_Some (digit_at hex j)) ->
   exists buf,
     expect_binary_field true reader value = Some (L / 2, Some buf, after_value r1)
     /\ Z.of_nat (length buf) = L / 2 + 1
     /\ decodes hex (Z.to_nat (L / 2)) buf)
  /\ ((exists j, (j < 2 * Z.to_nat (L / 2))%nat /\ digit_at hex j = None) ->
      exists buf,
        expect_binary_field true reader value
        = Some (0, Some buf, json_error r1 "Invalid hexadecimal data"))
  /\ (Z.odd L = true ->
      (forall j, (Z.of_nat j < L - 1) -> is_Some (digit_at hex j)) ->
      exists buf,
        expect_binary_field true reader value = Some ((L - 1) / 2, Some buf, after_value r1)
        /\ decodes hex (Z.to_nat ((L - 1) / 2)) buf
        /\ ((forall r, errors (json_next_token r) = errors r) ->
            errors (after_value r1) = 0)).
Proof.
  intros r1 L Herr Htok Hstr.
  assert (HL : 0 <= L) by apply strlen_nonneg.
  assert (Hsize : 0 <= L / 2) by (apply Z.div_pos; lia).
  assert (Hgood :
    (forall j, (j < 2 * Z.to_nat (L / 2))%nat -> is_Some (digit_at hex j)) ->
    exists buf,
      expect_binary_field true reader value = Some (L / 2, Some buf, after_value r1)
      /\ Z.of_nat (length buf) = L / 2 + 1
      /\ decodes hex (Z.to_nat (L / 2)) buf).
  { intros Hdig.
    destruct (hex_loop_valid hex (Z.to_nat (L / 2)) 0
                (replicate (Z.to_nat (L / 2 + 1)) 0)) as (buf & Hrun & Hl & _ & Hdec).
    - intros j Hj. apply Hdig. lia.
    - rewrite length_replicate. lia.
    - unfold expect_binary_field. fold r1. unfold no_errors. rewrite Herr, Htok, Hstr.
      simpl. fold L. rewrite Hrun. exists buf. split; [reflexivity|]. split.
      + rewrite Hl, length_replicate. lia.
      + intros i Hi. apply Hdec. lia. }
  split; [exact Hgood|]. split.
  - intros (j & Hj & Hnone).
    destruct (hex_loop_invalid hex (Z.to_nat (L / 2)) 0
                (replicate (Z.to_nat (L / 2 + 1)) 0)) as (buf & Hrun).
    + exists j. split; [lia | exact Hnone].
    + unfold expect_binary_field. fold r1. unfold no_errors. rewrite Herr, Htok, Hstr.
      simpl. fold L. rewrite Hrun. exists buf. reflexivity.
  - intros Hodd Hdig.
    assert (Hhalf : (L - 1) / 2 = L / 2).
    { rewrite (Z.div_mod L 2) at 1 by lia. rewrite Zmod_odd, Hodd.
      replace (2 * (L / 2) + 1 - 1) with (L / 2 * 2) by lia. apply Z.div_mul. lia. }
    rewrite Hhalf.
    destruct Hgood as (buf & Hrun & _ & Hdec).
    + intros j Hj. apply Hdig.
      rewrite (Z.div_mod L 2) at 1 by lia. rewrite Zmod_odd, Hodd. lia.
    + exists buf. split; [exact Hrun|]. split; [exact Hdec|].
      intros Hnext. rewrite (after_value_errors r1 Hnext). exact Herr.
Qed.

(** ** The limit on the vectors of a file *)

(** The number of [process_test_vector] calls in a log. *)
Fixpoint count_vectors (log : list ParseEvent) : nat :=
  match log with
  | [] => 0
  | EvVector :: log' => S (count_vectors log')
  | EvClosing _ :: log' => count_vectors log'
  end.

Lemma count_vectors_app (l1 l2 : list ParseEvent) :
  count_vectors (l1 ++ l2) = (count_vectors l1 + count_vectors l2)%nat.
Proof.
  induction l1 as [|[|tok] l1 IH]; simpl; rewrite ?IH; reflexivity.
Qed.

Lemma count_vectors_replicate (k : nat) : count_vectors (replicate k EvVector) = k.
Proof. induction k as [|k IH]; simpl; rewrite ?IH; reflexivity. Qed.

Lemma no_closing_in_replicate (k : nat) (tok : JSONToken) :
  ~ In (EvClosing tok) (replicate k EvVector).
Proof. induction k as [|k IH]; simpl; [tauto | intros [H|H]; [discriminate | tauto]]. Qed.

Section VectorsProperties.
Variable process_test_vector : JSONReader Lexer -> Z * JSONReader Lexer.

(** The loop runs [count] vectors and leaves through the [goto], or fewer
    and leaves through its condition; [count] units of fuel are enough. *)
Lemma vectors_loop_runs (fuel : nat) :
  forall (count : Z) (ok : bool) (reader : JSONReader Lexer) (log : list ParseEvent),
    0 < count -> count <= Z.of_nat fuel ->
    exists ex count' ok' reader' k,
      vectors_loop process_test_vector fuel count ok reader log
      = (ex, (count', ok', reader', log ++ replicate k EvVector))
      /\ ((ex = GotoEnd /\ Z.of_nat k = count) \/ (ex = LoopCondition /\ Z.of_nat k < count)).
Proof.
  induction fuel as [|fuel IH]; intros count ok reader log Hpos Hfuel; [lia|].
  cbn [vectors_loop].
  destruct (no_errors reader && negb (JSONToken_eqb (token reader) JSON_TOKEN_RSQUARE)).
  - destruct (process_test_vector (expect_token reader JSON_TOKEN_LBRACE "{"))
      as [retval reader1].
    destruct (count - 1 <=? 0) eqn:Hc.
    + apply Z.leb_le in Hc. do 4 eexists. exists 1%nat.
      split; [reflexivity|]. left. split; [reflexivity | lia].
    + apply Z.leb_gt in Hc.
      match goal with
      | |- context [vectors_loop _ fuel (count - 1) ?ok1 ?r1 ?l1] =>
        destruct (IH (count - 1) ok1 r1 l1) as (ex & c' & ok' & r' & k & Hrun & Hk); [lia | lia |]
      end.
      exists ex, c', ok', r', (S k). rewrite Hrun. split.
      * rewrite <- app_assoc. reflexivity.
      * destruct Hk as [[-> Hk]|[-> Hk]]; [left | right]; split; try reflexivity; lia.
  - do 4 eexists. exists 0%nat. split; [rewrite app_nil_r; reflexivity|].
    right. split; [reflexivity | lia].
Qed.

(** C10: [process_test_vectors] runs at most 128 vectors of a file; once
    the 128th has run, control goes to [end:] and none of the closing
    tokens is checked.  128 units of fuel are enough for the loop. *)
Theorem process_test_vectors_stops_at_128 (fuel : nat) (reader : JSONReader Lexer) :
  (128 <= fuel)%nat ->
  exists reader' log,
    process_test_vectors process_test_vector fuel reader = Some (reader', log)
    /\ (count_vectors log <= 128)%nat
    /\ (count_vectors log = 128%nat -> forall tok, ~ In (EvClosing tok) log)
    /\ ((count_vectors log < 128)%nat ->
        In (EvClosing JSON_TOKEN_RSQUARE) log /\ In (EvClosing JSON_TOKEN_RBRACE) log
        /\ In (EvClosing JSON_TOKEN_END) log).
Proof.
  intros Hfuel. unfold process_test_vectors.
  match goal with
  | |- context [vectors_loop _ fuel 128 true ?r ?l] =>
    destruct (vectors_loop_runs fuel 128 true r l) as (ex & c' & ok' & r' & k & Hrun & Hk);
      [lia | lia |]
  end.
  rewrite Hrun. cbn [app] in *.
  destruct Hk as [[-> Hk]|[-> Hk]].
  - eexists _, _. split; [reflexivity|].
    rewrite count_vectors_replicate.
    split; [lia|]. split; [|lia].
    intros _ tok. apply no_closing_in_replicate.
  - eexists _, _. split; [reflexivity|].
    rewrite count_vectors_app, count_vectors_replicate. cbn [count_vectors].
    split; [lia|]. split; [lia|].
    intros _. rewrite !in_app_iff. cbn [In]. tauto.
Qed.

End VectorsProperties.

End ParserProperties.

Lemma loopback_next_token_errors (r : JSONReader Loopback.TokenStream) :
  errors (Loopback.next_token r) = errors r.
Proof. unfold Loopback.next_token. destruct (lexer r) as [|[t v] rest]; reflexivity. Qed.

(** A string of odd length whose last character is no digit: two bytes
    are decoded and no error is counted. *)
Lemma expect_binary_field_decodes_witness :
  let reader :=
    Loopback.reader_on [(JSON_TOKEN_STRING, Some "init_static"); (JSON_TOKEN_COLON, None);
                        (JSON_TOKEN_STRING, Some "4a6fZ"); (JSON_TOKEN_COMMA, None)] in
  let r1 :=
    @TestVector.expect_token Loopback.json (Loopback.next_token reader) JSON_TOKEN_COLON ":" in
  digit_at "4a6fZ" 4 = None
  /\ exists buf,
       @TestVector.expect_binary_field Loopback.json true reader None
       = Some (2, Some buf, @after_value Loopback.json r1)
       /\ buf !! 0%nat = Some 74 /\ buf !! 1%nat = Some 111
       /\ errors (@after_value Loopback.json r1) = 0.
Proof.
  intros reader r1. split; [reflexivity|].
  destruct (@expect_binary_field_decodes Loopback.json reader None "4a6fZ"
              eq_refl eq_refl eq_refl) as (_ & _ & Hodd).
  destruct Hodd as (buf & Hrun & Hdec & Herrors); [reflexivity | |].
  { intros j Hj. change (strlen "4a6fZ" - 1) with 4 in Hj.
    do 4 (destruct j as [|j]; [eexists; reflexivity|]). lia. }
  exists buf. split; [exact Hrun|].
  destruct (Hdec 0%nat) as (d1 & d2 & H1 & H2 & ->); [vm_compute; lia|].
  destruct (Hdec 1%nat) as (e1 & e2 & H3 & H4 & ->); [vm_compute; lia|].
  vm_compute in H1, H2, H3, H4. inversion H1; inversion H2; inversion H3; inversion H4.
  subst. split; [reflexivity|]. split; [reflexivity|].
  apply Herrors. exact loopback_next_token_errors.
Defined.

(** A file of 130 vectors, read with exactly 128 units of fuel. *)
Lemma process_test_vectors_stops_at_128_witness :
  exists reader' log,
    @TestVector.process_test_vectors Loopback.json Loopback.process_vector 128
      (mkReader 0 JSON_TOKEN_END None (Loopback.vectors_file 130 []))
    = Some (reader', log)
    /\ (count_vectors log <= 128)%nat.
Proof.
  destruct (@process_test_vectors_stops_at_128 Loopback.json Loopback.process_vector 128
              (mkReader 0 JSON_TOKEN_END None (Loopback.vectors_file 130 [])))
    as (reader' & log & Hrun & Hle & _); [lia|].
  exists reader', log. split; [exact Hrun | exact Hle].
Defined.

(** The same file: 128 vectors are run, the two left over and the missing
    closing tokens raise no error. *)
Example process_test_vectors_truncated_file :
  let result :=
    @TestVector.process_test_vectors Loopback.json Loopback.process_vector 128
      (mkReader 0 JSON_TOKEN_END None (Loopback.vectors_file 130 [])) in
  option_map (fun r => (errors (fst r), count_vectors (snd r))) result = Some (0, 128%nat).
Proof. vm_compute. reflexivity. Qed.

Section RunnerProperties.
Context `{NL : NoiseLibrary}.
Import TestVector.

(** ** Steps of a test: events and failures

    [emits P m]: whatever [m] does, the events it adds satisfy [P], and
    when it fails it does so with [longjmp(test_jump_back, 1)]. *)
Definition emits {A : Type} (P : TestEvent -> Prop) (m : Test A) : Prop :=
  forall s,
    (exists es, trace (snd (m s)) = trace s ++ es /\ Forall P es)
    /\ (forall v, fst (m s) = Longjmp v -> v = 1).

Lemma emits_silent {A : Type} (P : TestEvent -> Prop) (m : Test A) :
  (forall s, trace (snd (m s)) = trace s) ->
  (forall s v, fst (m s) = Longjmp v -> v = 1) ->
  emits P m.
Proof.
  intros Htr Hj s. split; [|apply Hj].
  exists []. rewrite app_nil_r. split; [apply Htr | constructor].
Qed.

Lemma emits_ret {A : Type} (P : TestEvent -> Prop) (a : A) : emits P (mret a).
Proof. apply emits_silent; [reflexivity | discriminate]. Qed.

Lemma emits_longjmp_1 {A : Type} (P : TestEvent -> Prop) : emits P (@longjmp NL A 1).
Proof. apply emits_silent; [reflexivity | intros s v H; inversion H; reflexivity]. Qed.

Lemma emits_undefined {A : Type} (P : TestEvent -> Prop) : emits P (@undefined NL A).
Proof. apply emits_silent; [reflexivity | discriminate]. Qed.

Lemma emits_query {A : Type} (P : TestEvent -> Prop) (f : World -> A) : emits P (query f).
Proof. apply emits_silent; [reflexivity | discriminate]. Qed.

Lemma emits_call {A : Type} (P : TestEvent -> Prop) (f : World -> A * World) :
  emits P (call f).
Proof.
  apply emits_silent; intros s; unfold call; destruct (f (world s)); [reflexivity | discriminate].
Qed.

Lemma emits_emit (P : TestEvent -> Prop) (e : TestEvent) : P e -> emits P (emit e).
Proof.
  intros He s. split; [|discriminate].
  exists [e]. split; [reflexivity | repeat constructor; exact He].
Qed.

Lemma emits_bind {A B : Type} (P : TestEvent -> Prop) (m : Test A) (k : A -> Test B) :
  emits P m -> (forall a, emits P (k a)) -> emits P (m ≫= k).
Proof.
  intros Hm Hk s. unfold mbind, Test_bind, bind.
  destruct (Hm s) as [(es & Htr & HP) Hj].
  destruct (m s) as [[a|v|] s1]; simpl in *.
  - destruct (Hk a s1) as [(es' & Htr' & HP') Hj']. split; [|exact Hj'].
    exists (es ++ es'). rewrite Htr', Htr, app_assoc. split; [reflexivity|].
    apply Forall_app. split; assumption.
  - split; [eauto|]. intros v' Hv. inversion Hv; subst. apply Hj. reflexivity.
  - split; [eauto | discriminate].
Qed.

Lemma emits_compare (P : TestEvent -> Prop) (actual expected : Z) :
  emits P (compare actual expected).
Proof.
  unfold compare. destruct (actual =? expected); [apply emits_ret | apply emits_longjmp_1].
Qed.

Lemma emits_verify (P : TestEvent -> Prop) (c : bool) : emits P (verify c).
Proof. destruct c; [apply emits_ret | apply emits_longjmp_1]. Qed.

Lemma emits_compare_blocks (P : TestEvent -> Prop) (actual expected : list Z) :
  emits P (compare_blocks actual expected).
Proof.
  unfold compare_blocks.
  destruct (_ || _); [apply emits_longjmp_1 | apply emits_ret].
Qed.

Lemma emits_check_id (P : TestEvent -> Prop) (id category : Z) (nm : option string) :
  emits P (check_id id category nm).
Proof.
  unfold check_id. destruct nm; [|apply emits_longjmp_1].
  destruct (noise_id_to_name category id); [apply emits_verify | apply emits_longjmp_1].
Qed.

Lemma emits_install_key (P : TestEvent -> Prop) (site : KeySite)
    (dh : World -> option NoiseDHState)
    (set : option NoiseDHState -> list Z -> World -> Z * World) (key : list Z) :
  P (EvSetKey site) -> emits P (install_key site dh set key).
Proof.
  intros HP. unfold install_key.
  apply emits_bind; [apply emits_query | intros d].
  apply emits_bind; [apply emits_emit, HP | intros _].
  apply emits_bind; [apply emits_call | intros e]. apply emits_compare.
Qed.

Create HintDb emits.

#[local] Hint Resolve emits_ret emits_longjmp_1 emits_undefined emits_query emits_call
  emits_compare emits_verify emits_compare_blocks emits_check_id : emits.

Ltac emits_step :=
  first
    [ apply emits_bind; [|intros ?]
    | apply emits_install_key
    | apply emits_emit
    | solve [auto with emits]
    | lazymatch goal with
      | |- emits _ (match ?x with _ => _ end) => destruct x
      end ].

Lemma emits_test_name_parsing (P : TestEvent -> Prop) (vec : TestVector) :
  emits P (test_name_parsing vec).
Proof.
  unfold test_name_parsing. destruct (name vec) as [nm|]; [|apply emits_undefined].
  destruct (noise_protocol_name_to_id nm (strlen nm)) as [e id].
  repeat emits_step.
Qed.

Lemma emits_create_ends (P : TestEvent -> Prop) (vec : TestVector) :
  emits P (create_ends vec).
Proof. unfold create_ends. repeat emits_step. Qed.

(** ** Results of single steps *)

Lemma bind_ok {A B : Type} (m : Test A) (k : A -> Test B) (s s' : RunState) (a : A) :
  m s = (Ok a, s') -> (m ≫= k) s = k a s'.
Proof. intros H. unfold mbind, Test_bind, bind. rewrite H. reflexivity. Qed.

Lemma bind_longjmp {A B : Type} (m : Test A) (k : A -> Test B) (s s' : RunState) (v : Z) :
  m s = (Longjmp v, s') -> (m ≫= k) s = (Longjmp v, s').
Proof. intros H. unfold mbind, Test_bind, bind. rewrite H. reflexivity. Qed.

Lemma compare_result (actual expected : Z) (s : RunState) :
  (actual = expected /\ compare actual expected s = (Ok tt, s))
  \/ (actual <> expected /\ compare actual expected s = (Longjmp 1, s)).
Proof.
  unfold compare. destruct (Z.eqb_spec actual expected); [left | right]; split; auto.
Qed.

Lemma strcmp_zero (a b : string) : strcmp a b = 0 <-> cstring a = cstring b.
Proof.
  unfold strcmp. split.
  - intros H. apply String.compare_eq_iff.
    destruct (String.compare (cstring a) (cstring b)); [reflexivity | discriminate H..].
  - intros <-. pose proof (String.compare_antisym (cstring a) (cstring a)) as H.
    destruct (String.compare (cstring a) (cstring a)); [reflexivity | discriminate H..].
Qed.

Lemma memcmp_zero (a : list Z) :
  forall b, length a = length b -> (memcmp a b (length a) = 0 <-> a = b).
Proof.
  induction a as [|x a IH]; intros [|y b] Hlen; try discriminate.
  - simpl. tauto.
  - simpl in *. destruct (Z.eqb_spec x y) as [->|Hne].
    + rewrite IH by lia. split; [intros -> | intros H; inversion H]; reflexivity.
    + split; [lia | intros H; inversion H; contradiction].
Qed.

(** Two buffers are equal when they have the same length and the same
    byte at every index. *)
Definition same_block (a b : list Z) : Prop :=
  length a = length b /\ forall i, a !! i = b !! i.

Lemma same_block_eq (a b : list Z) : same_block a b <-> a = b.
Proof.
  split; [intros [_ H]; apply list_eq; exact H | intros ->; split; reflexivity].
Qed.

Lemma compare_blocks_result (actual expected : list Z) (s : RunState) :
  (same_block actual expected /\ compare_blocks actual expected s = (Ok tt, s))
  \/ (~ same_block actual expected /\ compare_blocks actual expected s = (Longjmp 1, s)).
Proof.
  unfold compare_blocks. rewrite same_block_eq.
  destruct (Z.eqb_spec (Z.of_nat (length actual)) (Z.of_nat (length expected))) as [Hl|Hl];
    cbn [negb orb].
  - apply Nat2Z.inj in Hl. pose proof (memcmp_zero actual expected Hl) as Hm.
    destruct (Z.eqb_spec (memcmp actual expected (length actual)) 0) as [H0|H0]; cbn [negb].
    + left. split; [apply Hm, H0 | reflexivity].
    + right. split; [intros H; apply H0, Hm, H | reflexivity].
  - right. split; [intros ->; contradiction | reflexivity].
Qed.

(** ** Protocol names (C4) *)

(** [id] in [category] has a name, the vector gives one, and the two are
    the same C string. *)
Definition maps_back (id category : Z) (given : option string) : Prop :=
  exists nm n,
    given = Some nm /\ noise_id_to_name category id = Some n /\ cstring nm = cstring n.

Lemma check_id_result (id category : Z) (given : option string) (s : RunState) :
  (maps_back id category given /\ check_id id category given s = (Ok tt, s))
  \/ (~ maps_back id category given /\ check_id id category given s = (Longjmp 1, s)).
Proof.
  unfold check_id, maps_back.
  destruct given as [nm|]; [|right; split; [intros (? & ? & ? & _); discriminate | reflexivity]].
  destruct (noise_id_to_name category id) as [n|];
    [|right; split; [intros (? & ? & _ & ? & _); discriminate | reflexivity]].
  unfold verify. destruct (Z.eqb_spec (strcmp nm n) 0) as [H0|H0].
  - left. split; [|reflexivity]. exists nm, n. rewrite <- strcmp_zero. auto.
  - right. split; [|reflexivity].
    intros (nm' & n' & Hnm & Hn & Heq). inversion Hnm; inversion Hn; subst.
    apply H0, strcmp_zero, Heq.
Qed.

(** What [test_name_parsing] requires of the vector named [nm]. *)
Definition name_parses (vec : TestVector) (nm : string) : Prop :=
  let id := snd (noise_protocol_name_to_id nm (strlen nm)) in
  fst (noise_protocol_name_to_id nm (strlen nm)) = NOISE_ERROR_NONE
  /\ (init_psk vec <> None \/ resp_psk vec <> None -> prefix_id id = NOISE_PREFIX_PSK)
  /\ (init_psk vec = None /\ resp_psk vec = None -> prefix_id id = NOISE_PREFIX_STANDARD)
  /\ maps_back (pattern_id id) NOISE_PATTERN_CATEGORY (pattern vec)
  /\ maps_back (dh_id id) NOISE_DH_CATEGORY (dh vec)
  /\ maps_back (cipher_id id) NOISE_CIPHER_CATEGORY (cipher vec)
  /\ maps_back (hash_id id) NOISE_HASH_CATEGORY (hash vec)
  /\ reserved_id id = 0.

(** C4: on a vector with a name, [test_name_parsing] passes exactly when
    the name parses without error, the prefix is [NOISE_PREFIX_PSK] if the
    vector has an initiator or responder PSK and [NOISE_PREFIX_STANDARD]
    otherwise, the four identifiers map back to the names of the vector and
    [reserved_id] is 0; otherwise it leaves through [longjmp] with value 1. *)
Theorem test_name_parsing_requires (vec : TestVector) (nm : string) (s : RunState) :
  name vec = Some nm ->
  (name_parses vec nm -> test_name_parsing vec s = (Ok tt, s))
  /\ (~ name_parses vec nm -> test_name_parsing vec s = (Longjmp 1, s)).
Proof.
  intros Hname.
  cut ((name_parses vec nm /\ test_name_parsing vec s = (Ok tt, s))
       \/ (~ name_parses vec nm /\ test_name_parsing vec s = (Longjmp 1, s))).
  { intros [[Hp Hr]|[Hp Hr]]; split; intros H; try assumption; contradiction. }
  unfold test_name_parsing, name_parses. rewrite Hname.
  destruct (noise_protocol_name_to_id nm (strlen nm)) as [e id]. cbn [fst snd].
  destruct (compare_result e NOISE_ERROR_NONE s) as [[H1 E1]|[H1 E1]];
    [rewrite (bind_ok _ _ _ _ _ E1)
    | rewrite (bind_longjmp _ _ _ _ _ E1); right; split; [tauto | reflexivity]].
  assert (Hprefix :
    let m := if is_Some_bool (init_psk vec) || is_Some_bool (resp_psk vec)
             then compare (prefix_id id) NOISE_PREFIX_PSK
             else compare (prefix_id id) NOISE_PREFIX_STANDARD in
    (((init_psk vec <> None \/ resp_psk vec <> None -> prefix_id id = NOISE_PREFIX_PSK)
      /\ (init_psk vec = None /\ resp_psk vec = None -> prefix_id id = NOISE_PREFIX_STANDARD))
     /\ m s = (Ok tt, s))
    \/ (~ ((init_psk vec <> None \/ resp_psk vec <> None -> prefix_id id = NOISE_PREFIX_PSK)
           /\ (init_psk vec = None /\ resp_psk vec = None
               -> prefix_id id = NOISE_PREFIX_STANDARD))
        /\ m s = (Longjmp 1, s))).
  { destruct (init_psk vec) as [k1|], (resp_psk vec) as [k2|]; cbn [is_Some_bool orb].
    4: destruct (compare_result (prefix_id id) NOISE_PREFIX_STANDARD s) as [[H E]|[H E]];
         [left | right]; (split; [|exact E]); [split; [intros [?|?]; congruence | auto]
                                              | intros [_ H']; apply H, H'; auto].
    all: destruct (compare_result (prefix_id id) NOISE_PREFIX_PSK s) as [[H E]|[H E]];
           [left | right]; (split; [|exact E]);
           [ split; [auto | intros [? ?]; congruence]
           | intros [H' _]; apply H, H'; first [left; congruence | right; congruence] ]. }
  cbv zeta in Hprefix.
  destruct Hprefix as [[H2 E2]|[H2 E2]];
    [rewrite (bind_ok _ _ _ _ _ E2)
    | rewrite (bind_longjmp _ _ _ _ _ E2); right; split; [tauto | reflexivity]].
  destruct (check_id_result (pattern_id id) NOISE_PATTERN_CATEGORY (pattern vec) s)
    as [[H3 E3]|[H3 E3]];
    [rewrite (bind_ok _ _ _ _ _ E3)
    | rewrite (bind_longjmp _ _ _ _ _ E3); right; split; [tauto | reflexivity]].
  destruct (check_id_result (dh_id id) NOISE_DH_CATEGORY (dh vec) s) as [[H4 E4]|[H4 E4]];
    [rewrite (bind_ok _ _ _ _ _ E4)
    | rewrite (bind_longjmp _ _ _ _ _ E4); right; split; [tauto | reflexivity]].
  destruct (check_id_result (cipher_id id) NOISE_CIPHER_CATEGORY (cipher vec) s)
    as [[H5 E5]|[H5 E5]];
    [rewrite (bind_ok _ _ _ _ _ E5)
    | rewrite (bind_longjmp _ _ _ _ _ E5); right; split; [tauto | reflexivity]].
  destruct (check_id_result (hash_id id) NOISE_HASH_CATEGORY (hash vec) s)
    as [[H6 E6]|[H6 E6]];
    [rewrite (bind_ok _ _ _ _ _ E6)
    | rewrite (bind_longjmp _ _ _ _ _ E6); right; split; [tauto | reflexivity]].
  destruct (compare_result (reserved_id id) 0 s) as [[H7 E7]|[H7 E7]]; rewrite E7;
    [left | right]; (split; [tauto | reflexivity]).
Qed.

(** ** The blocks of [test_connection] *)

Lemma query_run {A B : Type} (f : World -> A) (k : A -> Test B) (s : RunState) :
  (query f ≫= k) s = k (f (world s)) s.
Proof. reflexivity. Qed.

Lemma call_run {A B : Type} (f : World -> A * World) (k : A -> Test B) (s : RunState) :
  (call f ≫= k) s = k (fst (f (world s))) (mkRun (snd (f (world s))) (trace s)).
Proof.
  unfold mbind, Test_bind, bind, call. destruct (f (world s)); reflexivity.
Qed.

Lemma emit_run {B : Type} (e : TestEvent) (k : unit -> Test B) (s : RunState) :
  (emit e ≫= k) s = k tt (mkRun (world s) (trace s ++ [e])).
Proof. reflexivity. Qed.

Lemma emits_set_static_and_initiator_keys (P : TestEvent -> Prop) (vec : TestVector)
    (initiator responder : option NoiseHandshakeState) :
  (forall site, site <> RespEphemeral -> P (EvSetKey site)) ->
  emits P (set_static_and_initiator_keys vec initiator responder).
Proof.
  intros HP. unfold set_static_and_initiator_keys.
  repeat emits_step; apply HP; discriminate.
Qed.

Lemma emits_set_prologues_and_psks (P : TestEvent -> Prop) (vec : TestVector)
    (initiator responder : option NoiseHandshakeState) :
  emits P (set_prologues_and_psks vec initiator responder).
Proof. unfold set_prologues_and_psks. repeat emits_step. Qed.

Lemma emits_start_both (P : TestEvent -> Prop)
    (initiator responder : option NoiseHandshakeState) :
  emits P (start_both initiator responder).
Proof. unfold start_both. repeat emits_step. Qed.

Lemma emits_free_both (P : TestEvent -> Prop)
    (initiator responder : option NoiseHandshakeState) :
  emits P (free_both initiator responder).
Proof. unfold free_both. repeat emits_step. Qed.

Lemma emits_exchange (P : TestEvent -> Prop)
    (initiator responder : option NoiseHandshakeState) (index : nat) (role : Z)
    (m : TestMessage) :
  (forall i r, P (EvWriteMessage i r)) -> (forall i r, P (EvReadMessage i r)) ->
  emits P (exchange initiator responder index role m).
Proof.
  intros HW HR. unfold exchange.
  destruct (role =? NOISE_ROLE_INITIATOR); repeat emits_step; auto.
Qed.

Lemma emits_message_loop (P : TestEvent -> Prop)
    (initiator responder : option NoiseHandshakeState) (msgs : list TestMessage) :
  (forall i r, P (EvWriteMessage i r)) -> (forall i r, P (EvReadMessage i r)) ->
  forall index role, emits P (message_loop initiator responder msgs index role).
Proof.
  intros HW HR. induction msgs as [|m rest IH]; intros index role; cbn [message_loop].
  - apply emits_ret.
  - apply emits_bind; [apply emits_query | intros init_action].
    apply emits_bind; [apply emits_query | intros resp_action].
    destruct (_ && _); [apply emits_ret|].
    apply emits_bind; [apply emits_exchange; assumption | intros role'; apply IH].
Qed.


Lemma emits_test_connection (P : TestEvent -> Prop) (vec : TestVector) :
  (forall site, site <> RespEphemeral -> P (EvSetKey site)) ->
  (forall i r, P (EvWriteMessage i r)) -> (forall i r, P (EvReadMessage i r)) ->
  (forall responder, emits P (set_responder_ephemeral vec responder)) ->
  emits P (test_connection vec).
Proof.
  intros HK HW HR HE. unfold test_connection.
  apply emits_bind; [apply emits_create_ends | intros [initiator responder]].
  apply emits_bind; [apply emits_set_static_and_initiator_keys, HK | intros _].
  apply emits_bind; [apply HE | intros _].
  apply emits_bind; [apply emits_set_prologues_and_psks | intros _].
  apply emits_bind; [apply emits_start_both | intros _].
  apply emits_bind; [apply emits_message_loop; assumption | intros _].
  apply emits_free_both.
Qed.

(** ** The responder's ephemeral key (C3) *)

Lemma install_key_trace (site : KeySite) (dh : World -> option NoiseDHState)
    (set : option NoiseDHState -> list Z -> World -> Z * World) (key : list Z)
    (s : RunState) :
  trace (snd (install_key site dh set key s)) = trace s ++ [EvSetKey site].
Proof.
  unfold install_key. rewrite query_run, emit_run, call_run.
  unfold compare. destruct (_ =? _); reflexivity.
Qed.

Lemma emits_set_responder_ephemeral (P : TestEvent -> Prop) (vec : TestVector)
    (responder : option NoiseHandshakeState) :
  P (EvSetKey RespEphemeral) -> emits P (set_responder_ephemeral vec responder).
Proof.
  intros HP. unfold set_responder_ephemeral.
  destruct (resp_ephemeral vec); [|apply emits_ret].
  destruct (pattern vec); [|apply emits_undefined].
  destruct (negb _); [apply emits_install_key, HP | apply emits_ret].
Qed.








(** ** The message loop (C5, C6) *)

(** The end that sends, the end that receives and the next value of
    [role], for the current value of [role]. *)
Definition sender_end (initiator responder : option NoiseHandshakeState) (role : Z)
  : option NoiseHandshakeState :=
  if role =? NOISE_ROLE_INITIATOR then initiator else responder.

Definition receiver_end (initiator responder : option NoiseHandshakeState) (role : Z)
  : option NoiseHandshakeState :=
  if role =? NOISE_ROLE_INITIATOR then responder else initiator.

Definition sender_role (role : Z) : Z :=
  if role =? NOISE_ROLE_INITIATOR then NOISE_ROLE_INITIATOR else NOISE_ROLE_RESPONDER.

Definition next_role (role : Z) : Z :=
  if role =? NOISE_ROLE_INITIATOR then NOISE_ROLE_RESPONDER else NOISE_ROLE_INITIATOR.

(** The side that sends message [index]: the initiator for an even index,
    the responder for an odd one. *)
Definition role_of (index : nat) : Z :=
  if Nat.even index then NOISE_ROLE_INITIATOR else NOISE_ROLE_RESPONDER.

(** The two actions are the ones an exchange needs. *)
Definition ready (initiator responder : option NoiseHandshakeState) (role : Z)
    (w : World) : Prop :=
  noise_handshakestate_get_action (sender_end initiator responder role) w
  = NOISE_ACTION_WRITE_MESSAGE
  /\ noise_handshakestate_get_action (receiver_end initiator responder role) w
     = NOISE_ACTION_READ_MESSAGE.

(** What the sender writes for message [m], and what the receiver reads
    from it. *)
Definition written (initiator responder : option NoiseHandshakeState) (role : Z)
    (m : TestMessage) (w : World) : (Z * list Z) * World :=
  noise_handshakestate_write_message (sender_end initiator responder role)
    (Some (payload m)) MAX_MESSAGE_SIZE w.

Definition read_back (initiator responder : option NoiseHandshakeState) (role : Z)
    (m : TestMessage) (w : World) : (Z * list Z) * World :=
  let '((_, message), w1) := written initiator responder role m w in
  noise_handshakestate_read_message (receiver_end initiator responder role)
    message (Some MAX_MESSAGE_SIZE) w1.

(** Every check of one exchange succeeds. *)
Definition exchange_passes (initiator responder : option NoiseHandshakeState) (role : Z)
    (m : TestMessage) (w : World) : Prop :=
  ready initiator responder role w
  /\ fst (fst (written initiator responder role m w)) = NOISE_ERROR_NONE
  /\ same_block (snd (fst (written initiator responder role m w))) (ciphertext m)
  /\ fst (fst (read_back initiator responder role m w)) = NOISE_ERROR_NONE
  /\ same_block (snd (fst (read_back initiator responder role m w))) (payload m).

Lemma exchange_unfold (initiator responder : option NoiseHandshakeState)
    (index : nat) (role : Z) (m : TestMessage) :
  exchange initiator responder index role m
  = (action ← query (noise_handshakestate_get_action (sender_end initiator responder role));
     compare action NOISE_ACTION_WRITE_MESSAGE;;
     action ← query (noise_handshakestate_get_action (receiver_end initiator responder role));
     compare action NOISE_ACTION_READ_MESSAGE;;
     emit (EvWriteMessage index (sender_role role));;
     '(err, message) ← call (written initiator responder role m);
     compare err NOISE_ERROR_NONE;;
     compare_blocks message (ciphertext m);;
     emit (EvReadMessage index (next_role role));;
     '(err, payload') ← call (noise_handshakestate_read_message
                                (receiver_end initiator responder role) message
                                (Some MAX_MESSAGE_SIZE));
     compare err NOISE_ERROR_NONE;;
     compare_blocks payload' (payload m);;
     mret (next_role role)).
Proof.
  unfold exchange, written. unfold sender_end, receiver_end, sender_role, next_role.
  destruct (role =? NOISE_ROLE_INITIATOR); reflexivity.
Qed.

(** One exchange: it passes to the next role with its two events added,
    or it fails with value 1 after none, one or both of them. *)
Lemma exchange_result (initiator responder : option NoiseHandshakeState)
    (index : nat) (role : Z) (m : TestMessage) (s : RunState) :
  (exchange_passes initiator responder role m (world s)
   /\ exchange initiator responder index role m s
      = (Ok (next_role role),
         mkRun (snd (read_back initiator responder role m (world s)))
               (trace s ++ [EvWriteMessage index (sender_role role);
                            EvReadMessage index (next_role role)])))
  \/ (~ exchange_passes initiator responder role m (world s)
      /\ exists s' es,
           exchange initiator responder index role m s = (Longjmp 1, s')
           /\ trace s' = trace s ++ es
           /\ (es = [] \/ es = [EvWriteMessage index (sender_role role)]
               \/ es = [EvWriteMessage index (sender_role role);
                        EvReadMessage index (next_role role)])
           /\ (~ ready initiator responder role (world s) -> s' = s)).
Proof.
  rewrite exchange_unfold. unfold exchange_passes, ready, read_back.
  rewrite query_run.
  destruct (compare_result
              (noise_handshakestate_get_action (sender_end initiator responder role) (world s))
              NOISE_ACTION_WRITE_MESSAGE s) as [[H1 E1]|[H1 E1]];
    [rewrite (bind_ok _ _ _ _ _ E1)
    | rewrite (bind_longjmp _ _ _ _ _ E1); right; split; [tauto|];
      exists s, []; rewrite app_nil_r; auto].
  rewrite query_run.
  destruct (compare_result
              (noise_handshakestate_get_action (receiver_end initiator responder role)
                 (world s))
              NOISE_ACTION_READ_MESSAGE s) as [[H2 E2]|[H2 E2]];
    [rewrite (bind_ok _ _ _ _ _ E2)
    | rewrite (bind_longjmp _ _ _ _ _ E2); right; split; [tauto|];
      exists s, []; rewrite app_nil_r; auto].
  rewrite emit_run, call_run. cbn [world trace].
  destruct (written initiator responder role m (world s)) as [[e1 message] w1].
  cbn [fst snd].
  match goal with
  | |- context [compare e1 NOISE_ERROR_NONE] =>
    match goal with
    | |- context [(compare e1 NOISE_ERROR_NONE ≫= ?k) ?s1] =>
      destruct (compare_result e1 NOISE_ERROR_NONE s1) as [[H3 E3]|[H3 E3]];
        [rewrite (bind_ok _ _ _ _ _ E3)
        | rewrite (bind_longjmp _ _ _ _ _ E3); right; split; [tauto|];
          eexists _, _; split; [reflexivity|]; cbn [trace]; split; [reflexivity|];
          split; [auto | intros H; exfalso; apply H; auto]]
    end
  end.
  match goal with
  | |- context [(compare_blocks message (ciphertext m) ≫= ?k) ?s1] =>
    destruct (compare_blocks_result message (ciphertext m) s1) as [[H4 E4]|[H4 E4]];
      [rewrite (bind_ok _ _ _ _ _ E4)
      | rewrite (bind_longjmp _ _ _ _ _ E4); right; split; [tauto|];
        eexists _, _; split; [reflexivity|]; cbn [trace]; split; [reflexivity|];
        split; [auto | intros H; exfalso; apply H; auto]]
  end.
  rewrite emit_run, call_run. cbn [world trace].
  destruct (noise_handshakestate_read_message (receiver_end initiator responder role)
              message (Some MAX_MESSAGE_SIZE) w1) as [[e2 payload'] w2].
  cbn [fst snd].
  match goal with
  | |- context [(compare e2 NOISE_ERROR_NONE ≫= ?k) ?s1] =>
    destruct (compare_result e2 NOISE_ERROR_NONE s1) as [[H5 E5]|[H5 E5]];
      [rewrite (bind_ok _ _ _ _ _ E5)
      | rewrite (bind_longjmp _ _ _ _ _ E5); right; split; [tauto|];
        eexists _, _; split; [reflexivity|]; cbn [trace]; rewrite <- app_assoc;
        split; [reflexivity|];
        split; [auto | intros H; exfalso; apply H; auto]]
  end.
  match goal with
  | |- context [(compare_blocks payload' (payload m) ≫= ?k) ?s1] =>
    destruct (compare_blocks_result payload' (payload m) s1) as [[H6 E6]|[H6 E6]];
      [rewrite (bind_ok _ _ _ _ _ E6)
      | rewrite (bind_longjmp _ _ _ _ _ E6); right; split; [tauto|];
        eexists _, _; split; [reflexivity|]; cbn [trace]; rewrite <- app_assoc;
        split; [reflexivity|];
        split; [auto | intros H; exfalso; apply H; auto]]
  end.
  left. split; [tauto|]. rewrite <- app_assoc. reflexivity.
Qed.

(** The events of [k] exchanges in lock-step, from message [start] on. *)
Definition exchange_events (start k : nat) : list TestEvent :=
  flat_map (fun i => [EvWriteMessage i (role_of i); EvReadMessage i (role_of (S i))])
    (seq start k).

(** The sender of message [i] is [role_of i], its receiver the other side. *)
Definition alternates (e : TestEvent) : Prop :=
  match e with
  | EvWriteMessage i sender => sender = role_of i
  | EvReadMessage i receiver => receiver = role_of (S i)
  | EvSetKey _ => True
  end.

Definition both_split (initiator responder : option NoiseHandshakeState) (w : World) : Prop :=
  noise_handshakestate_get_action initiator w = NOISE_ACTION_SPLIT
  /\ noise_handshakestate_get_action responder w = NOISE_ACTION_SPLIT.

Section Roles.
Hypothesis roles_differ : NOISE_ROLE_INITIATOR <> NOISE_ROLE_RESPONDER.

Lemma role_of_is_initiator (index : nat) :
  (role_of index =? NOISE_ROLE_INITIATOR) = Nat.even index.
Proof.
  unfold role_of. destruct (Nat.even index).
  - apply Z.eqb_refl.
  - apply Z.eqb_neq. auto.
Qed.

Lemma sender_role_of (index : nat) : sender_role (role_of index) = role_of index.
Proof.
  unfold sender_role. rewrite role_of_is_initiator. unfold role_of.
  destruct (Nat.even index); reflexivity.
Qed.

Lemma next_role_of (index : nat) : next_role (role_of index) = role_of (S index).
Proof.
  unfold next_role. rewrite role_of_is_initiator. unfold role_of.
  rewrite Nat.even_succ, <- Nat.negb_even. destruct (Nat.even index); reflexivity.
Qed.

(** The loop from message [index] on, entered with [role] as lock-step
    has it. *)
Lemma message_loop_run (initiator responder : option NoiseHandshakeState)
    (msgs : list TestMessage) :
  forall (index : nat) (s : RunState),
    exists es,
      trace (snd (message_loop initiator responder msgs index (role_of index) s))
      = trace s ++ es
      /\ Forall alternates es
      /\ (fst (message_loop initiator responder msgs index (role_of index) s) = Ok tt ->
          exists k,
            es = exchange_events index k /\ (k <= length msgs)%nat
            /\ (k = length msgs
                \/ both_split initiator responder
                     (world (snd (message_loop initiator responder msgs index
                                    (role_of index) s))))).
Proof.
  induction msgs as [|m rest IH]; intros index s; cbn [message_loop].
  - exists []. rewrite app_nil_r. split; [reflexivity|]. split; [constructor|].
    intros _. exists 0%nat. split; [reflexivity|]. split; [lia | left; reflexivity].
  - rewrite query_run, query_run.
    destruct ((noise_handshakestate_get_action initiator (world s) =? NOISE_ACTION_SPLIT)
              && (noise_handshakestate_get_action responder (world s) =? NOISE_ACTION_SPLIT))
      eqn:Hsplit.
    + apply andb_true_iff in Hsplit. destruct Hsplit as [Hi%Z.eqb_eq Hr%Z.eqb_eq].
      exists []. rewrite app_nil_r. split; [reflexivity|]. split; [constructor|].
      intros _. exists 0%nat. split; [reflexivity|]. split; [cbn; lia|].
      right. split; assumption.
    + destruct (exchange_result initiator responder index (role_of index) m s)
        as [[_ Hrun]|[_ (s' & es & Hrun & Htr & Hes & _)]].
      * rewrite (bind_ok _ _ _ _ _ Hrun), ?sender_role_of, ?next_role_of.
        match goal with
        | |- context [message_loop _ _ _ (S _) _ ?s1] =>
          destruct (IH (S index) s1) as (es' & Htr' & Hall & Hok)
        end.
        cbn [trace] in Htr'.
        exists ([EvWriteMessage index (role_of index);
                 EvReadMessage index (role_of (S index))] ++ es').
        split; [rewrite Htr', <- app_assoc; reflexivity|].
        split; [repeat constructor; exact Hall|].
        intros Hres. destruct (Hok Hres) as (k & -> & Hk & Hend).
        exists (S k). split; [reflexivity|]. split; [cbn; lia|].
        destruct Hend as [->|Hend]; [left; reflexivity | right; exact Hend].
      * rewrite (bind_longjmp _ _ _ _ _ Hrun). cbn [fst snd].
        exists es. split; [exact Htr|]. split; [|discriminate].
        rewrite sender_role_of, next_role_of in Hes.
        destruct Hes as [->|[->| ->]]; repeat constructor.
Qed.

End Roles.

(** C5: the messages are exchanged in lock-step from the initiator on, the
    sender of message [i] being the initiator for even [i] and the
    responder for odd [i]; an exchange whose sender does not report
    [NOISE_ACTION_WRITE_MESSAGE] or whose receiver does not report
    [NOISE_ACTION_READ_MESSAGE] fails at once; the loop stops when both
    sides report [NOISE_ACTION_SPLIT], and ends without failure only then
    or after all [num_messages] messages. *)
Theorem message_loop_lock_step (initiator responder : option NoiseHandshakeState)
    (vec : TestVector) (s : RunState) :
  NOISE_ROLE_INITIATOR <> NOISE_ROLE_RESPONDER ->
  let res :=
    message_loop initiator responder (messages vec) 0 NOISE_ROLE_INITIATOR s in
  (exists es,
     trace (snd res) = trace s ++ es
     /\ Forall alternates es
     /\ (fst res = Ok tt ->
         exists k,
           es = exchange_events 0 k /\ Z.of_nat k <= num_messages vec
           /\ (Z.of_nat k = num_messages vec
               \/ both_split initiator responder (world (snd res)))))
  /\ (forall index role m s1,
        ~ ready initiator responder role (world s1) ->
        exchange initiator responder index role m s1 = (Longjmp 1, s1))
  /\ (forall index role m rest s1,
        both_split initiator responder (world s1) ->
        message_loop initiator responder (m :: rest) index role s1 = (Ok tt, s1)).
Proof.
  intros Hroles res. split; [|split].
  - destruct (message_loop_run Hroles initiator responder (messages vec) 0%nat s)
      as (es & Htr & Hall & Hok).
    exists es. split; [exact Htr|]. split; [exact Hall|].
    intros Hres. destruct (Hok Hres) as (k & Hes & Hk & Hend).
    exists k. split; [exact Hes|]. unfold num_messages. split; [lia|].
    destruct Hend as [->|Hend]; [left; reflexivity | right; exact Hend].
  - intros index role m s1 Hnot.
    destruct (exchange_result initiator responder index role m s1)
      as [[[Hready _] _]|[_ (s' & es & Hrun & _ & _ & Hsame)]]; [contradiction|].
    rewrite Hrun, (Hsame Hnot). reflexivity.
  - intros index role m rest s1 [Hi Hr]. cbn [message_loop].
    rewrite query_run, query_run, Hi, Hr, Z.eqb_refl. reflexivity.
Qed.

(** *** The blocks every exchange is compared with (C6) *)

(** [checked initiator responder vec n index w]: from the world [w] on,
    the loop at [index] with [n] messages left passes.  Either both sides
    have split, or the exchange on [vec->messages[index]] passes each of
    its checks and the loop passes from [index + 1] on in the world the
    exchange leaves. *)
Fixpoint checked (initiator responder : option NoiseHandshakeState) (vec : TestVector)
    (n index : nat) (w : World) : Prop :=
  match n with
  | O => True
  | S n' =>
    match messages vec !! index with
    | None => True
    | Some m =>
      both_split initiator responder w
      \/ (exchange_passes initiator responder (role_of index) m w
          /\ checked initiator responder vec n' (S index)
               (snd (read_back initiator responder (role_of index) m w)))
    end
  end.

(** [test_connection] up to the message loop. *)
Definition before_messages (vec : TestVector)
  : Test (option NoiseHandshakeState * option NoiseHandshakeState) :=
  '(initiator, responder) ← create_ends vec;
  set_static_and_initiator_keys vec initiator responder;;
  set_responder_ephemeral vec responder;;
  set_prologues_and_psks vec initiator responder;;
  start_both initiator responder;;
  mret (initiator, responder).

Lemma test_connection_split (vec : TestVector) (s : RunState) :
  test_connection vec s
  = ('(initiator, responder) ← before_messages vec;
     message_loop initiator responder (messages vec) 0 NOISE_ROLE_INITIATOR;;
     free_both initiator responder) s.
Proof.
  unfold test_connection, before_messages, mbind, Test_bind, bind, mret, Test_ret, ret.
  destruct (create_ends vec s) as [[[initiator responder]|v|] s1]; [|reflexivity..].
  destruct (set_static_and_initiator_keys _ _ _ s1) as [[[]|v|] s2]; [|reflexivity..].
  destruct (set_responder_ephemeral _ _ s2) as [[[]|v|] s3]; [|reflexivity..].
  destruct (set_prologues_and_psks _ _ _ s3) as [[[]|v|] s4]; [|reflexivity..].
  destruct (start_both _ _ s4) as [[[]|v|] s5]; reflexivity.
Qed.

(** The loop passes exactly when every exchange it makes passes against
    the message of the vector at its index; otherwise it fails with
    value 1. *)
Lemma message_loop_checked (initiator responder : option NoiseHandshakeState)
    (vec : TestVector) :
  NOISE_ROLE_INITIATOR <> NOISE_ROLE_RESPONDER ->
  forall (n index : nat) (s : RunState),
    (index + n = length (messages vec))%nat ->
    (checked initiator responder vec n index (world s)
     /\ fst (message_loop initiator responder (drop index (messages vec)) index
               (role_of index) s) = Ok tt)
    \/ (~ checked initiator responder vec n index (world s)
        /\ fst (message_loop initiator responder (drop index (messages vec)) index
                  (role_of index) s) = Longjmp 1).
Proof.
  intros Hroles. induction n as [|n IH]; intros index s Hlen.
  - left. split; [exact I|]. rewrite drop_ge by lia. reflexivity.
  - destruct (lookup_lt_is_Some_2 (messages vec) index) as [m Hm]; [lia|].
    rewrite (drop_S _ _ _ Hm). cbn [message_loop checked]. rewrite Hm.
    rewrite query_run, query_run.
    destruct ((noise_handshakestate_get_action initiator (world s) =? NOISE_ACTION_SPLIT)
              && (noise_handshakestate_get_action responder (world s) =? NOISE_ACTION_SPLIT))
      eqn:Hsplit.
    + apply andb_true_iff in Hsplit. destruct Hsplit as [Hi%Z.eqb_eq Hr%Z.eqb_eq].
      left. split; [left; split; assumption | reflexivity].
    + assert (Hnot : ~ both_split initiator responder (world s)).
      { intros [Hi Hr]. rewrite Hi, Hr, Z.eqb_refl in Hsplit. discriminate Hsplit. }
      destruct (exchange_result initiator responder index (role_of index) m s)
        as [[Hpass Hrun]|[Hfail (s' & es & Hrun & _)]].
      * rewrite (bind_ok _ _ _ _ _ Hrun), (next_role_of Hroles).
        match goal with
        | |- context [message_loop _ _ _ (S index) _ ?s1] =>
          destruct (IH (S index) s1) as [[Hrest Hres]|[Hrest Hres]]; [lia | |]
        end; cbn [world] in Hrest.
        -- left. split; [right; split; assumption | exact Hres].
        -- right. split; [|exact Hres].
           intros [Hboth|[_ Hall]]; [apply Hnot, Hboth | apply Hrest, Hall].
      * rewrite (bind_longjmp _ _ _ _ _ Hrun). right. split; [|reflexivity].
        intros [Hboth|[Hpass _]]; [apply Hnot, Hboth | apply Hfail, Hpass].
Qed.

(** C6: [test_connection] compares every exchange it makes with the
    message of the vector at the index of the exchange.  The exchange at
    [index] passes only if the message written by
    [noise_handshakestate_write_message] equals the ciphertext of
    [vec->messages[index]] and the payload read back by
    [noise_handshakestate_read_message] equals its payload, each in length
    and in every byte.  Once the blocks before the loop have passed,
    [test_connection] goes on to free the two ends exactly when every
    exchange passes, and otherwise leaves through [longjmp]; every
    [longjmp] it takes carries the value 1. *)
Theorem test_connection_compares_blocks (vec : TestVector) (s : RunState) :
  NOISE_ROLE_INITIATOR <> NOISE_ROLE_RESPONDER ->
  (forall v, fst (test_connection vec s) = Longjmp v -> v = 1)
  /\ (forall initiator responder s1,
        before_messages vec s = (Ok (initiator, responder), s1) ->
        (checked initiator responder vec (length (messages vec)) 0 (world s1) ->
         exists s2,
           message_loop initiator responder (messages vec) 0 NOISE_ROLE_INITIATOR s1
           = (Ok tt, s2)
           /\ test_connection vec s = free_both initiator responder s2)
        /\ (~ checked initiator responder vec (length (messages vec)) 0 (world s1) ->
            exists s2, test_connection vec s = (Longjmp 1, s2)))
  /\ (fst (test_connection vec s) = Ok tt ->
      exists initiator responder s1,
        before_messages vec s = (Ok (initiator, responder), s1)
        /\ checked initiator responder vec (length (messages vec)) 0 (world s1))
  /\ (forall initiator responder role m w,
        exchange_passes initiator responder role m w ->
        fst (fst (written initiator responder role m w)) = NOISE_ERROR_NONE
        /\ snd (fst (written initiator responder role m w)) = ciphertext m
        /\ fst (fst (read_back initiator responder role m w)) = NOISE_ERROR_NONE
        /\ snd (fst (read_back initiator responder role m w)) = payload m).
Proof.
  intros Hroles.
  assert (Hloop : forall initiator responder s1,
    (checked initiator responder vec (length (messages vec)) 0 (world s1)
     /\ exists s2,
          message_loop initiator responder (messages vec) 0 NOISE_ROLE_INITIATOR s1
          = (Ok tt, s2))
    \/ (~ checked initiator responder vec (length (messages vec)) 0 (world s1)
        /\ exists s2,
             message_loop initiator responder (messages vec) 0 NOISE_ROLE_INITIATOR s1
             = (Longjmp 1, s2))).
  { intros initiator responder s1.
    destruct (message_loop_checked initiator responder vec Hroles
                (length (messages vec)) 0%nat s1 eq_refl) as [[Hc Hres]|[Hc Hres]];
      change (role_of 0) with NOISE_ROLE_INITIATOR in Hres; rewrite drop_0 in Hres;
      destruct (message_loop initiator responder (messages vec) 0 NOISE_ROLE_INITIATOR s1)
        as [res s2]; cbn [fst] in Hres; subst res; [left | right]; eauto. }
  split; [|split; [|split]].
  - intros v Hv.
    destruct (emits_test_connection (fun _ => True) vec) with (s := s) as [_ Hone];
      try (intros; exact I).
    + intros r. apply emits_set_responder_ephemeral. exact I.
    + exact (Hone v Hv).
  - intros initiator responder s1 Hbefore. rewrite test_connection_split.
    rewrite (bind_ok _ _ _ _ _ Hbefore).
    destruct (Hloop initiator responder s1) as [[Hc (s2 & Hrun)]|[Hc (s2 & Hrun)]].
    + split; [|intros Hnot; contradiction].
      intros _. exists s2. split; [exact Hrun|]. rewrite (bind_ok _ _ _ _ _ Hrun).
      reflexivity.
    + split; [intros Hyes; contradiction|].
      intros _. exists s2. rewrite (bind_longjmp _ _ _ _ _ Hrun). reflexivity.
  - rewrite test_connection_split. intros Hok.
    destruct (before_messages vec s) as [[[initiator responder]|v|] s1] eqn:Hbefore.
    + rewrite (bind_ok _ _ _ _ _ Hbefore) in Hok.
      exists initiator, responder, s1. split; [reflexivity|].
      destruct (Hloop initiator responder s1) as [[Hc _]|[_ (s2 & Hrun)]]; [exact Hc|].
      rewrite (bind_longjmp _ _ _ _ _ Hrun) in Hok. discriminate Hok.
    + rewrite (bind_longjmp _ _ _ _ _ Hbefore) in Hok. discriminate Hok.
    + unfold mbind, Test_bind, bind in Hok. rewrite Hbefore in Hok. discriminate Hok.
  - intros initiator responder role m w (_ & Hw & Hc & Hr & Hp).
    apply same_block_eq in Hc. apply same_block_eq in Hp. auto.
Qed.

End RunnerProperties.

(** ** The driver on the loopback library *)

(** A vector of two messages for the loopback library, with the given
    pattern name and both ephemeral keys. *)
Definition sample_vector (pattern_name : string) : TestVector.TestVector :=
  TestVector.mkVector 1 (Some "Noise_NN_25519_ChaChaPoly_SHA256") (Some pattern_name)
    (Some "25519") (Some "ChaChaPoly") (Some "SHA256")
    None None None None (Some [1; 2]) (Some [3; 4]) None None None None
    [TestVector.mkMessage [104; 105] [104; 105]; TestVector.mkMessage [] []].

Definition sample_world : @World Loopback.noise := Loopback.mkWorld 0 0 [] [] 0x4401.

Definition sample_start : @TestVector.RunState Loopback.noise :=
  @TestVector.mkRun Loopback.noise sample_world [].



Lemma test_connection_compares_blocks_witness :
  exists initiator responder s1,
    @before_messages Loopback.noise (sample_vector "NN") sample_start
    = (TestVector.Ok (initiator, responder), s1)
    /\ @checked Loopback.noise initiator responder (sample_vector "NN") 2 0
         (TestVector.world s1).
Proof.
  destruct (@test_connection_compares_blocks Loopback.noise (sample_vector "NN")
              sample_start) as (_ & _ & Hpass & _); [discriminate|].
  apply Hpass. vm_compute. reflexivity.
Defined.

(** The sample vector with another ciphertext for its second message: the
    first exchange passes and the second fails. *)
Example wrong_second_ciphertext_fails :
  let vec :=
    TestVector.mkVector 1 (Some "Noise_NN_25519_ChaChaPoly_SHA256") (Some "NN")
      (Some "25519") (Some "ChaChaPoly") (Some "SHA256")
      None None None None (Some [1; 2]) (Some [3; 4]) None None None None
      [TestVector.mkMessage [104; 105] [104; 105]; TestVector.mkMessage [] [7]] in
  fst (@TestVector.test_connection Loopback.noise vec sample_start) = TestVector.Longjmp 1
  /\ TestVector.trace (snd (@TestVector.test_connection Loopback.noise vec sample_start))
     = [TestVector.EvSetKey TestVector.InitEphemeral;
        TestVector.EvSetKey TestVector.RespEphemeral;
        TestVector.EvWriteMessage 0 Loopback.ROLE_INITIATOR;
        TestVector.EvReadMessage 0 Loopback.ROLE_RESPONDER;
        TestVector.EvWriteMessage 1 Loopback.ROLE_RESPONDER].
Proof. vm_compute. split; reflexivity. Qed.

Lemma test_name_parsing_requires_witness :
  @TestVector.test_name_parsing Loopback.noise (sample_vector "NN") sample_start
  = (TestVector.Ok tt, sample_start).
Proof.
  apply (@test_name_parsing_requires Loopback.noise (sample_vector "NN")
           "Noise_NN_25519_ChaChaPoly_SHA256" sample_start eq_refl).
  unfold name_parses. cbn.
  repeat split; try reflexivity; try (intros [H|H]; contradiction);
    eexists _, _; repeat split; reflexivity.
Defined.

Lemma message_loop_lock_step_witness :
  let res :=
    @TestVector.message_loop Loopback.noise (Some Loopback.ROLE_INITIATOR)
      (Some Loopback.ROLE_RESPONDER) (TestVector.messages (sample_vector "NN")) 0
      Loopback.ROLE_INITIATOR sample_start in
  fst res = TestVector.Ok tt
  /\ exists es,
       TestVector.trace (snd res) = TestVector.trace sample_start ++ es
       /\ Forall (@alternates Loopback.noise) es.
Proof.
  intros res. split; [vm_compute; reflexivity|].
  destruct (@message_loop_lock_step Loopback.noise (Some Loopback.ROLE_INITIATOR)
              (Some Loopback.ROLE_RESPONDER) (sample_vector "NN") sample_start)
    as [(es & Htr & Hall & _) _]; [vm_compute; discriminate|].
  exists es. split; [exact Htr | exact Hall].
Defined.

(** The sample vector passes on the loopback library. *)
Example sample_vector_passes :
  fst (@TestVector.test_vector_run Loopback.noise (sample_vector "NN") sample_start) = Some 1.
Proof. vm_compute. reflexivity. Qed.

(** * Properties of the echo server *)

Section EchoProperties.
Context `{EC : EchoCommon}.
Import EchoServer.

(** ** The remote public key in [initialize_handshake] (C2) *)

Definition not_client448 (e : EchoEvent) : Prop := e <> EvSetPublicKey Client448.

(** The events of [initialize_handshake]: the two server keys and the
    Curve25519 client key; the second test for [NOISE_DH_CURVE25519] never
    succeeds. *)
Section InitializeEvents.
Variable P : EchoEvent -> Prop.
Hypothesis private_keys : forall k, P (EvSetPrivateKey k).
Hypothesis client_25519 : P (EvSetPublicKey Client25519).

Lemma local_keypair_block_events (keys : Keys) (handshake : option NoiseHandshakeState)
    (i : Init) :
  Forall P (init_events i) ->
  Forall P (init_events (snd (local_keypair_block keys handshake i))).
Proof.
  intros H. unfold local_keypair_block.
  destruct (negb _); [|exact H].
  destruct (_ =? NOISE_DH_CURVE25519); [|destruct (_ =? NOISE_DH_CURVE448)].
  - destruct (noise_dhstate_set_keypair_private _ _ _). cbn.
    apply Forall_app. split; [exact H | repeat constructor; apply private_keys].
  - destruct (noise_dhstate_set_keypair_private _ _ _). cbn.
    apply Forall_app. split; [exact H | repeat constructor; apply private_keys].
  - exact H.
Qed.

Lemma remote_public_key_block_events (keys : Keys) (handshake : option NoiseHandshakeState)
    (i : Init) :
  Forall P (init_events i) ->
  Forall P (init_events (snd (remote_public_key_block keys handshake i))).
Proof.
  intros H. unfold remote_public_key_block.
  destruct (negb _); [|exact H].
  destruct (_ =? NOISE_DH_CURVE25519) eqn:Hid; [|exact H].
  destruct (noise_dhstate_set_public_key _ _ _). cbn.
  apply Forall_app. split; [exact H | repeat constructor; exact client_25519].
Qed.

Lemma before_remote_public_key_events (keys : Keys)
    (handshake : option NoiseHandshakeState) (nid : NoiseProtocolId) (prologue : list Z)
    (w : World) :
  match before_remote_public_key keys handshake nid prologue w with
  | inl i | inr i => Forall P (init_events i)
  end.
Proof.
  unfold before_remote_public_key, prologue_block.
  destruct (noise_handshakestate_set_prologue handshake prologue w) as [e w1].
  destruct (negb _); [constructor|].
  assert (Hpsk : Forall P (init_events (snd (psk_block keys handshake nid (mkInit e w1 []))))).
  { unfold psk_block. destruct (_ =? _); [|constructor].
    destruct (noise_handshakestate_set_pre_shared_key _ _ _). constructor. }
  destruct (psk_block keys handshake nid (mkInit e w1 [])) as [returned i1].
  destruct returned; [exact Hpsk|].
  pose proof (local_keypair_block_events keys handshake i1 Hpsk) as Hlocal.
  destruct (local_keypair_block keys handshake i1) as [returned i2].
  destruct returned; exact Hlocal.
Qed.

Lemma initialize_handshake_events (keys : Keys) (handshake : option NoiseHandshakeState)
    (nid : NoiseProtocolId) (prologue : list Z) (w : World) :
  Forall P (init_events (snd (initialize_handshake keys handshake nid prologue w))).
Proof.
  unfold initialize_handshake.
  pose proof (before_remote_public_key_events keys handshake nid prologue w) as Hpre.
  destruct (before_remote_public_key keys handshake nid prologue w) as [i|i];
    [exact Hpre|].
  pose proof (remote_public_key_block_events keys handshake i Hpre) as Hremote.
  destruct (remote_public_key_block keys handshake i) as [returned i'].
  destruct returned; exact Hremote.
Qed.

End InitializeEvents.

(** C2: in [initialize_handshake] the Curve448 client key is never
    installed; when the handshake needs a remote public key and its DH
    object reports [NOISE_DH_CURVE448], the block for it sets [err] to
    [NOISE_ERROR_UNKNOWN_ID] without calling the library, and
    [initialize_handshake] returns 0. *)
Theorem initialize_handshake_curve448_remote (keys : Keys)
    (handshake : option NoiseHandshakeState) (nid : NoiseProtocolId) (prologue : list Z)
    (w : World) :
  NOISE_DH_CURVE448 <> NOISE_DH_CURVE25519 ->
  NOISE_ERROR_UNKNOWN_ID <> NOISE_ERROR_NONE ->
  ~ In (EvSetPublicKey Client448)
       (init_events (snd (initialize_handshake keys handshake nid prologue w)))
  /\ (forall i,
        noise_handshakestate_needs_remote_public_key handshake (init_world i) <> 0 ->
        noise_dhstate_get_dh_id
          (noise_handshakestate_get_remote_public_key_dh handshake (init_world i))
          (init_world i) = NOISE_DH_CURVE448 ->
        remote_public_key_block keys handshake i
        = (true, mkInit NOISE_ERROR_UNKNOWN_ID (init_world i) (init_events i))
        /\ (before_remote_public_key keys handshake nid prologue w = inr i ->
            initialize_handshake keys handshake nid prologue w
            = (0, mkInit NOISE_ERROR_UNKNOWN_ID (init_world i) (init_events i)))).
Proof.
  intros Hcurves Herrors. split.
  - assert (Hall : Forall not_client448
                     (init_events (snd (initialize_handshake keys handshake nid prologue w)))).
    { apply initialize_handshake_events; intros; discriminate. }
    rewrite List.Forall_forall in Hall. intros Hin. apply (Hall _ Hin). reflexivity.
  - intros i Hneeds Hid.
    assert (Hblock : remote_public_key_block keys handshake i
                     = (true, mkInit NOISE_ERROR_UNKNOWN_ID (init_world i) (init_events i))).
    { unfold remote_public_key_block.
      apply Z.eqb_neq in Hneeds. rewrite Hneeds. cbn [negb]. rewrite Hid.
      apply Z.eqb_neq in Hcurves. rewrite Hcurves. cbn [err].
      apply Z.eqb_neq in Herrors. rewrite Herrors. reflexivity. }
    split; [exact Hblock|].
    intros Hpre. unfold initialize_handshake. rewrite Hpre, Hblock. reflexivity.
Qed.

(** ** Framing and sizes (C7, C8) *)

(** The sizes the library promises: a handshake message fits the capacity
    it was given, and an encrypted transport message is at most 65535
    bytes long. *)
Definition message_limit : Prop :=
  (forall h p capacity w,
     fst (fst (noise_handshakestate_write_message h p capacity w)) = NOISE_ERROR_NONE ->
     Z.of_nat (length (snd (fst (noise_handshakestate_write_message h p capacity w))))
     <= capacity)
  /\ (forall c ad data w,
        fst (fst (noise_cipherstate_encrypt_with_ad c ad data w)) = NOISE_ERROR_NONE ->
        Z.of_nat (length (snd (fst (noise_cipherstate_encrypt_with_ad c ad data w))))
        <= MAX_MESSAGE_LEN).

(** A packet given to [echo_send] with [message_size = n]: two bytes
    holding [n >> 8] and the low 8 bits of [n], then [n] bytes. *)
Definition framed (n : Z) (packet : list Z) : Prop :=
  0 <= n <= MAX_MESSAGE_LEN
  /\ exists data,
       packet = uint8_t (Z.shiftr n 8) :: uint8_t n :: data
       /\ Z.of_nat (length data) = n
       /\ 256 * uint8_t (Z.shiftr n 8) + uint8_t n = n
       /\ uint8_t n = Z.land n 255
       /\ Z.of_nat (length packet) = n + 2.

(** What is handed on after [echo_recv] returned [received]: the bytes
    from offset 2 on, two fewer than were received. *)
Definition stripped (received offset len : Z) : Prop :=
  offset = 2 /\ len = size_t (received - 2) /\ (2 <= received < 2 ^ 64 -> len = received - 2).

Definition framing (e : EchoEvent) : Prop :=
  match e with
  | EvWriteMessage capacity => capacity = sizeof_message - 2 /\ capacity = 65535
  | EvSend n packet => framed n packet
  | EvHandshakeIn received offset len => stripped received offset len
  | EvDecrypt _ received offset len => stripped received offset len
  | _ => True
  end.

Definition well_framed (st : Server) : Prop :=
  Forall framing (events st) /\ (2 <= length (message st))%nat.

Ltac server_simpl :=
  cbn [world handshake send_cipher recv_cipher message message_size payload_size ok fd
       events set_world set_handshake set_ciphers set_message set_message_size
       set_payload_size failed record fst snd] in *.

Lemma length_store (buf : list Z) (offset : nat) (data : list Z) :
  (offset <= length buf)%nat -> (length buf <= length (store buf offset data))%nat.
Proof.
  intros H. unfold store. rewrite !length_app, length_take, length_drop. lia.
Qed.

Lemma store_at_2 (buf data : list Z) :
  (2 <= length buf)%nat ->
  exists b0 b1 rest, store buf 2 data = b0 :: b1 :: data ++ rest.
Proof.
  intros H. destruct buf as [|b0 [|b1 buf]]; cbn in H; try lia.
  exists b0, b1, (drop (length data) buf). reflexivity.
Qed.

Lemma stripped_2 (received : Z) : stripped received 2 (size_t (received - 2)).
Proof.
  split; [reflexivity|]. split; [reflexivity|].
  intros H. unfold size_t. apply Z.mod_small. lia.
Qed.

Lemma framed_intro (n b0 b1 : Z) (data rest : list Z) :
  Z.of_nat (length data) = n -> n <= MAX_MESSAGE_LEN ->
  framed n (take (Z.to_nat (n + 2))
              (<[1%nat := uint8_t n]>
                 (<[0%nat := uint8_t (Z.shiftr n 8)]> (b0 :: b1 :: data ++ rest)))).
Proof.
  intros Hlen Hmax. unfold MAX_MESSAGE_LEN in *.
  assert (Hn : 0 <= n) by lia.
  replace (Z.to_nat (n + 2)) with (S (S (length data))) by lia.
  cbn [list_insert insert take]. rewrite take_app_length.
  split; [unfold MAX_MESSAGE_LEN; lia|].
  exists data. split; [reflexivity|]. split; [exact Hlen|].
  unfold uint8_t. rewrite Z.shiftr_div_pow2 by lia. change (2 ^ 8) with 256.
  split; [|split].
  - rewrite (Z.mod_small (n / 256)) by (split; [apply Z.div_pos; lia | apply Z.div_lt_upper_bound; lia]).
    symmetry. apply Z.div_mod. lia.
  - change 255 with (Z.ones 8). rewrite Z.land_ones by lia. reflexivity.
  - cbn [length]. lia.
Qed.

Lemma send_message_framed (st : Server) (data : list Z) :
  Forall framing (events st) ->
  (exists b0 b1 rest, message st = b0 :: b1 :: data ++ rest) ->
  message_size st = Z.of_nat (length data) ->
  message_size st <= MAX_MESSAGE_LEN ->
  well_framed (snd (send_message st)).
Proof.
  intros Hev (b0 & b1 & rest & Hmsg) Hsize Hmax. unfold send_message.
  server_simpl.
  destruct (echo_send _ _ _) as [sent w].
  assert (Hgoal : well_framed
            (record [EvSend (message_size st)
                       (take (Z.to_nat (message_size st + 2))
                          (<[1%nat := uint8_t (message_size st)]>
                             (<[0%nat := uint8_t (Z.shiftr (message_size st) 8)]>
                                (message st))))]
               (set_world w
                  (set_message
                     (<[1%nat := uint8_t (message_size st)]>
                        (<[0%nat := uint8_t (Z.shiftr (message_size st) 8)]> (message st)))
                     (set_message
                        (<[0%nat := uint8_t (Z.shiftr (message_size st) 8)]> (message st))
                        st))))).
  { split; server_simpl.
    - apply Forall_app. split; [exact Hev|]. constructor; [|constructor].
      rewrite Hmsg. apply framed_intro; [symmetry; exact Hsize | exact Hmax].
    - rewrite !length_insert, Hmsg. cbn [length]. lia. }
  destruct (sent =? 0); exact Hgoal.
Qed.

Section Limits.
Hypothesis limit : message_limit.

Lemma handshake_step_framed (st : Server) :
  well_framed st -> well_framed (snd (handshake_step st)).
Proof.
  intros [Hev Hlen]. unfold handshake_step.
  destruct (_ =? NOISE_ACTION_WRITE_MESSAGE); [|destruct (_ =? NOISE_ACTION_READ_MESSAGE)].
  - server_simpl.
    pose proof (proj1 limit (handshake st) None (sizeof_message - 2) (world st)) as Hout.
    destruct (noise_handshakestate_write_message (handshake st) None
                (sizeof_message - 2) (world st)) as [[e out] w].
    server_simpl.
    assert (Hev' : Forall framing (events st ++ [EvWriteMessage (sizeof_message - 2)])).
    { apply Forall_app. split; [exact Hev|]. repeat constructor. }
    destruct (Z.eqb_spec e NOISE_ERROR_NONE) as [He|He]; server_simpl.
    + destruct (store_at_2 (message st) out Hlen) as (b0 & b1 & rest & Hstore).
      apply send_message_framed with (data := out).
      * exact Hev'.
      * exists b0, b1, rest. exact Hstore.
      * reflexivity.
      * server_simpl. specialize (Hout He).
        unfold sizeof_message in Hout. lia.
    + split; [exact Hev'|]. server_simpl.
      etransitivity; [exact Hlen | apply length_store; lia].
  - destruct (echo_recv (fd st) sizeof_message (world st)) as [[n data] w].
    server_simpl.
    assert (Hlen' : (2 <= length (store (message st) 0 data))%nat).
    { etransitivity; [exact Hlen | apply length_store; lia]. }
    destruct (n =? 0); [split; [exact Hev | exact Hlen']|].
    server_simpl.
    destruct (noise_handshakestate_read_message _ _ _ _) as [[e payload] w'].
    assert (Hgoal : Forall framing (events st ++ [EvHandshakeIn n 2 (size_t (n - 2))])).
    { apply Forall_app. split; [exact Hev|]. constructor; [apply stripped_2 | constructor]. }
    destruct (negb _); split; first [exact Hgoal | exact Hlen'].
  - split; assumption.
Qed.

Lemma echo_step_framed (st : Server) :
  well_framed st -> well_framed (snd (echo_step st)).
Proof.
  intros [Hev Hlen]. unfold echo_step.
  destruct (echo_recv (fd st) sizeof_message (world st)) as [[n data] w].
  server_simpl.
  assert (Hlen' : (2 <= length (store (message st) 0 data))%nat).
  { etransitivity; [exact Hlen | apply length_store; lia]. }
  destruct (n =? 0); [split; [exact Hev | exact Hlen']|].
  server_simpl.
  destruct (noise_cipherstate_decrypt_with_ad _ _ _ _) as [[e out] w1].
  assert (Hev1 : Forall framing
                   (events st ++ [EvDecrypt (recv_cipher st) n 2 (size_t (n - 2))])).
  { apply Forall_app. split; [exact Hev|]. constructor; [apply stripped_2 | constructor]. }
  assert (Hlen1 : (2 <= length (store (store (message st) 0 data) 2 out))%nat).
  { etransitivity; [exact Hlen' | apply length_store; lia]. }
  destruct (negb (e =? NOISE_ERROR_NONE)); [split; [exact Hev1 | exact Hlen1]|].
  server_simpl.
  match goal with
  | |- context [noise_cipherstate_encrypt_with_ad ?c ?ad ?d ?w0] =>
    pose proof (proj2 limit c ad d w0) as Hout;
    destruct (noise_cipherstate_encrypt_with_ad c ad d w0) as [[e2 out2] w2]
  end.
  server_simpl.
  assert (Hev2 : Forall framing
                   ((events st ++ [EvDecrypt (recv_cipher st) n 2 (size_t (n - 2))])
                    ++ [EvEncrypt (send_cipher st) 2 (Z.of_nat (length out))])).
  { apply Forall_app. split; [exact Hev1 | repeat constructor]. }
  destruct (Z.eqb_spec e2 NOISE_ERROR_NONE) as [He|He]; server_simpl.
  - destruct (store_at_2 (store (store (message st) 0 data) 2 out) out2 Hlen1)
      as (b0 & b1 & rest & Hstore).
    apply send_message_framed with (data := out2).
    + exact Hev2.
    + exists b0, b1, rest. exact Hstore.
    + reflexivity.
    + exact (Hout He).
  - split; [exact Hev2|]. server_simpl.
    etransitivity; [exact Hlen1 | apply length_store; lia].
Qed.

Lemma handshake_loop_framed (fuel : nat) :
  forall st, well_framed st -> well_framed (snd (handshake_loop fuel st)).
Proof.
  induction fuel as [|fuel IH]; intros st Hst; cbn [handshake_loop].
  - destruct (ok st); exact Hst.
  - destruct (ok st); [|exact Hst].
    pose proof (handshake_step_framed st Hst) as Hstep.
    destruct (handshake_step st) as [again st']. destruct again; [apply IH|]; exact Hstep.
Qed.

Lemma echo_loop_framed (fuel : nat) :
  forall st, well_framed st -> well_framed (snd (echo_loop fuel st)).
Proof.
  induction fuel as [|fuel IH]; intros st Hst; cbn [echo_loop].
  - destruct (ok st); exact Hst.
  - destruct (ok st); [|exact Hst].
    pose proof (echo_step_framed st Hst) as Hstep.
    destruct (echo_step st) as [again st']. destruct again; [apply IH|]; exact Hstep.
Qed.

End Limits.

(** ** The events of [main], phase by phase *)

Definition key_event (e : EchoEvent) : Prop :=
  match e with
  | EvSetPrivateKey _ | EvSetPublicKey _ => True
  | _ => False
  end.

Definition handshake_event (e : EchoEvent) : Prop :=
  match e with
  | EvWriteMessage capacity => capacity = sizeof_message - 2
  | EvHandshakeIn _ _ _ | EvSend _ _ => True
  | _ => False
  end.

(** The events of the echo loop while [recv_cipher = recv] and
    [send_cipher = send]. *)
Definition echo_event (recv send : option NoiseCipherState) (e : EchoEvent) : Prop :=
  match e with
  | EvDecrypt c _ _ _ => c = recv
  | EvEncrypt c _ _ => c = send
  | EvSend _ _ => True
  | _ => False
  end.

Lemma connect_events (keys : Keys) (port : Z) (w : World) :
  Forall key_event (events (connect keys port w))
  /\ message (connect keys port w) = initial_message.
Proof.
  assert (Hinit : forall h nid id w0,
            Forall key_event (init_events (snd (initialize_handshake keys h nid id w0)))).
  { intros. apply initialize_handshake_events; intros; exact I. }
  unfold connect. repeat case_match; server_simpl; subst; server_simpl;
    repeat match goal with
    | H : initialize_handshake ?k ?h ?n ?i ?w0 = _ |- _ =>
      let HH := fresh in
      pose proof (Hinit h n i w0) as HH; rewrite H in HH; clear H; server_simpl
    end;
    split; try reflexivity; try assumption; try constructor.
Qed.

Lemma send_message_events (st : Server) :
  exists n packet,
    events (snd (send_message st)) = events st ++ [EvSend n packet]
    /\ recv_cipher (snd (send_message st)) = recv_cipher st
    /\ send_cipher (snd (send_message st)) = send_cipher st.
Proof.
  unfold send_message. server_simpl. destruct (echo_send _ _ _) as [sent w].
  destruct (sent =? 0); server_simpl; eauto.
Qed.

Lemma handshake_step_events (st : Server) :
  exists es,
    events (snd (handshake_step st)) = events st ++ es /\ Forall handshake_event es.
Proof.
  unfold handshake_step.
  destruct (_ =? NOISE_ACTION_WRITE_MESSAGE); [|destruct (_ =? NOISE_ACTION_READ_MESSAGE)].
  - server_simpl. destruct (noise_handshakestate_write_message _ _ _ _) as [[e out] w].
    destruct (negb _).
    + server_simpl. exists [EvWriteMessage (sizeof_message - 2)].
      split; [reflexivity | repeat constructor].
    + match goal with
      | |- context [send_message ?st1] =>
        destruct (send_message_events st1) as (n & packet & Hev & _)
      end.
      rewrite Hev. server_simpl.
      exists [EvWriteMessage (sizeof_message - 2); EvSend n packet].
      split; [rewrite <- app_assoc; reflexivity | repeat constructor].
  - destruct (echo_recv _ _ _) as [[n data] w]. server_simpl.
    destruct (n =? 0).
    + exists []. rewrite app_nil_r. split; [reflexivity | constructor].
    + destruct (noise_handshakestate_read_message _ _ _ _) as [[e payload] w'].
      destruct (negb _); server_simpl;
        (eexists [_]; split; [reflexivity | repeat constructor]).
  - exists []. rewrite app_nil_r. split; [reflexivity | constructor].
Qed.

Lemma handshake_loop_events (fuel : nat) :
  forall st, exists es,
    events (snd (handshake_loop fuel st)) = events st ++ es /\ Forall handshake_event es.
Proof.
  induction fuel as [|fuel IH]; intros st; cbn [handshake_loop].
  - exists []. rewrite app_nil_r. destruct (ok st); split; try reflexivity; constructor.
  - destruct (ok st);
      [|exists []; rewrite app_nil_r; split; [reflexivity | constructor]].
    destruct (handshake_step_events st) as (es & Hev & Hall).
    destruct (handshake_step st) as [again st']. cbn [snd] in Hev.
    destruct again; [|exists es; split; assumption].
    destruct (IH st') as (es' & Hev' & Hall').
    exists (es ++ es'). rewrite Hev', Hev, app_assoc. split; [reflexivity|].
    apply Forall_app. split; assumption.
Qed.

Lemma echo_step_events (st : Server) :
  exists es,
    events (snd (echo_step st)) = events st ++ es
    /\ Forall (echo_event (recv_cipher st) (send_cipher st)) es
    /\ recv_cipher (snd (echo_step st)) = recv_cipher st
    /\ send_cipher (snd (echo_step st)) = send_cipher st.
Proof.
  unfold echo_step. destruct (echo_recv _ _ _) as [[n data] w]. server_simpl.
  destruct (n =? 0).
  { exists []. rewrite app_nil_r. server_simpl. repeat split; constructor. }
  destruct (noise_cipherstate_decrypt_with_ad _ _ _ _) as [[e out] w1].
  destruct (negb (e =? NOISE_ERROR_NONE)).
  { server_simpl. eexists [_]. repeat split; repeat constructor. }
  server_simpl.
  destruct (noise_cipherstate_encrypt_with_ad _ _ _ _) as [[e2 out2] w2].
  destruct (negb (e2 =? NOISE_ERROR_NONE)).
  { server_simpl. eexists [_; _]. rewrite <- app_assoc.
    repeat split; repeat constructor. }
  match goal with
  | |- context [send_message ?st1] =>
    destruct (send_message_events st1) as (k & packet & Hev & Hrecv & Hsend)
  end.
  rewrite Hev, Hrecv, Hsend. server_simpl.
  eexists [_; _; _]. rewrite <- !app_assoc. repeat split; repeat constructor.
Qed.

Lemma echo_loop_events (fuel : nat) :
  forall st, exists es,
    events (snd (echo_loop fuel st)) = events st ++ es
    /\ Forall (echo_event (recv_cipher st) (send_cipher st)) es.
Proof.
  induction fuel as [|fuel IH]; intros st; cbn [echo_loop].
  - exists []. rewrite app_nil_r. destruct (ok st); split; try reflexivity; constructor.
  - destruct (ok st);
      [|exists []; rewrite app_nil_r; split; [reflexivity | constructor]].
    destruct (echo_step_events st) as (es & Hev & Hall & Hrecv & Hsend).
    destruct (echo_step st) as [again st']. cbn [snd] in *.
    destruct again; [|exists es; split; assumption].
    destruct (IH st') as (es' & Hev' & Hall'). rewrite Hrecv, Hsend in Hall'.
    exists (es ++ es'). rewrite Hev', Hev, app_assoc. split; [reflexivity|].
    apply Forall_app. split; assumption.
Qed.

(** [split_cipherstates] either leaves [ok] unset and adds no event, or
    calls the library once and stores its first output in [recv_cipher]
    and its second in [send_cipher]. *)
Lemma split_cipherstates_events (st : Server) :
  message (split_cipherstates st) = message st
  /\ ((ok (split_cipherstates st) = false
       /\ events (split_cipherstates st) = events st)
      \/ (exists first second,
            events (split_cipherstates st) = events st ++ [EvSplit first second]
            /\ recv_cipher (split_cipherstates st) = first
            /\ send_cipher (split_cipherstates st) = second
            /\ ok st = true
            /\ first = snd (fst (fst (noise_handshakestate_split (handshake st) (world st))))
            /\ second = snd (fst (noise_handshakestate_split (handshake st) (world st))))).
Proof.
  unfold split_cipherstates.
  destruct (ok st) eqn:Hok; cbn [andb].
  - destruct (negb _); server_simpl.
    + destruct (noise_handshakestate_free _ _). server_simpl. split; [reflexivity|].
      left. split; reflexivity.
    + rewrite Hok.
      destruct (noise_handshakestate_split (handshake st) (world st))
        as [[[e first] second] w].
      destruct (negb _); server_simpl;
        destruct (noise_handshakestate_free _ _); server_simpl;
        (split; [reflexivity|]); right; exists first, second; repeat split; reflexivity.
  - rewrite Hok. destruct (noise_handshakestate_free _ _). server_simpl.
    split; [reflexivity|]. left. split; [exact Hok | reflexivity].
Qed.

Lemma echo_loop_not_ok (fuel : nat) (st : Server) :
  ok st = false -> echo_loop fuel st = (true, st).
Proof. intros H. destruct fuel; cbn [echo_loop]; rewrite H; reflexivity. Qed.

Lemma clean_up_events (st : Server) :
  events (snd (clean_up st)) = events st /\ message (snd (clean_up st)) = message st.
Proof.
  unfold clean_up. destruct (noise_cipherstate_free _ _) as [e1 w1].
  destruct (noise_cipherstate_free _ _) as [e2 w2]. split; reflexivity.
Qed.

(** The events of a run: keys, handshake messages, at most one split, and
    then the echo loop on the two ciphers the split stored. *)
Lemma main_events (fuel : nat) (keys : Keys) (port : Z) (w : World) :
  exists ke he se ee,
    events (snd (main fuel keys port w)) = ke ++ he ++ se ++ ee
    /\ Forall key_event ke /\ Forall handshake_event he
    /\ ((se = [] /\ ee = [])
        \/ exists first second,
             se = [EvSplit first second] /\ Forall (echo_event first second) ee).
Proof.
  unfold main.
  destruct (connect_events keys port w) as [Hke _].
  destruct (handshake_loop_events fuel (connect keys port w)) as (he & Hhe & Hall).
  destruct (handshake_loop fuel (connect keys port w)) as [finished st1]. cbn [snd] in Hhe.
  destruct finished; cbn [negb].
  2: { exists (events (connect keys port w)), he, [], []. cbn [snd].
       rewrite Hhe, !app_nil_r. repeat split; auto. }
  destruct (split_cipherstates_events st1) as [_ Hsplit].
  destruct (echo_loop_events fuel (split_cipherstates st1)) as (ee & Hee & Hall').
  assert (Hfinal : forall st2 : Server,
            events st2 = events (snd (echo_loop fuel (split_cipherstates st1))) ->
            exists ke he se ee,
              events st2 = ke ++ he ++ se ++ ee
              /\ Forall key_event ke /\ Forall handshake_event he
              /\ ((se = [] /\ ee = [])
                  \/ exists first second,
                       se = [EvSplit first second] /\ Forall (echo_event first second) ee)).
  { intros st2 ->. destruct Hsplit as [[Hok Hev]|(first & second & Hev & Hr & Hs & _)].
    - rewrite (echo_loop_not_ok fuel _ Hok). cbn [snd].
      exists (events (connect keys port w)), he, [], [].
      rewrite Hev, Hhe, !app_nil_r. repeat split; auto.
    - exists (events (connect keys port w)), he, [EvSplit first second], ee.
      rewrite Hee, Hev, Hhe, <- !app_assoc. repeat split; auto.
      right. exists first, second. rewrite Hr, Hs in Hall'. split; [reflexivity | exact Hall']. }
  destruct (echo_loop fuel (split_cipherstates st1)) as [finished st2]. cbn [snd] in *.
  destruct finished; cbn [negb]; [|apply Hfinal; reflexivity].
  pose proof (clean_up_events st2) as [Hev _].
  destruct (clean_up st2) as [status st3]. cbn [snd] in *. apply Hfinal. exact Hev.
Qed.

Lemma initial_message_length : length initial_message = Z.to_nat sizeof_message.
Proof. apply length_replicate. Qed.

Lemma main_well_framed (fuel : nat) (keys : Keys) (port : Z) (w : World) :
  message_limit -> well_framed (snd (main fuel keys port w)).
Proof.
  intros limit. unfold main.
  assert (H0 : well_framed (connect keys port w)).
  { destruct (connect_events keys port w) as [Hev Hmsg]. split.
    - eapply Forall_impl; [exact Hev|]. intros [] H; try exact I; destruct H.
    - rewrite Hmsg, initial_message_length. unfold sizeof_message, MAX_MESSAGE_LEN. lia. }
  pose proof (handshake_loop_framed limit fuel _ H0) as H1.
  destruct (handshake_loop fuel (connect keys port w)) as [finished st1]. cbn [snd] in H1.
  destruct finished; cbn [negb]; [|exact H1].
  assert (H2 : well_framed (split_cipherstates st1)).
  { destruct H1 as [Hev Hlen].
    destruct (split_cipherstates_events st1) as [Hmsg [[_ Heq]|(f & c & Heq & _)]];
      (split; [rewrite Heq | rewrite Hmsg; exact Hlen]); [exact Hev|].
    apply Forall_app. split; [exact Hev | repeat constructor]. }
  pose proof (echo_loop_framed limit fuel _ H2) as H3.
  destruct (echo_loop fuel (split_cipherstates st1)) as [finished st2]. cbn [snd] in H3.
  destruct finished; cbn [negb]; [|exact H3].
  pose proof (clean_up_events st2) as [Hev Hmsg].
  destruct (clean_up st2) as [status st3]. cbn [snd] in *.
  destruct H3 as [Ha Hb]. split; [rewrite Hev; exact Ha | rewrite Hmsg; exact Hb].
Qed.

(** C1, as the code has it: the server passes [&recv_cipher] first and
    [&send_cipher] second, so the first CipherState the library returns is
    bound to [recv_cipher] and the second to [send_cipher]; in every run
    the echo loop decrypts with the first and encrypts with the second. *)
Theorem split_binds_first_to_recv_cipher (fuel : nat) (keys : Keys) (port : Z)
    (w : World) :
  (forall st,
     ok st = true ->
     noise_handshakestate_get_action (handshake st) (world st) = NOISE_ACTION_SPLIT ->
     recv_cipher (split_cipherstates st)
     = snd (fst (fst (noise_handshakestate_split (handshake st) (world st))))
     /\ send_cipher (split_cipherstates st)
        = snd (fst (noise_handshakestate_split (handshake st) (world st))))
  /\ (forall first second,
        In (EvSplit first second) (events (snd (main fuel keys port w))) ->
        (forall c received offset len,
           In (EvDecrypt c received offset len) (events (snd (main fuel keys port w))) ->
           c = first)
        /\ (forall c offset len,
              In (EvEncrypt c offset len) (events (snd (main fuel keys port w))) ->
              c = second)).
Proof.
  split.
  - intros st Hok Haction. unfold split_cipherstates.
    rewrite Hok, Haction, Z.eqb_refl. cbn [andb negb]. rewrite Hok.
    destruct (noise_handshakestate_split (handshake st) (world st)) as [[[e f] c] w1].
    destruct (negb _); server_simpl; destruct (noise_handshakestate_free _ _);
      server_simpl; split; reflexivity.
  - intros first second Hsplit.
    destruct (main_events fuel keys port w) as (ke & he & se & ee & Hev & Hke & Hhe & Hse).
    rewrite Hev in *. rewrite List.Forall_forall in Hke, Hhe.
    assert (Hin : forall e, In e (ke ++ he ++ se ++ ee) ->
                    key_event e \/ handshake_event e \/ In e se \/ In e ee).
    { intros e He. rewrite !in_app_iff in He. destruct He as [H|[H|[H|H]]]; auto. }
    destruct Hse as [[-> ->]|(f & c & -> & Hee)].
    + destruct (Hin _ Hsplit) as [H|[H|[[]|[]]]]; destruct H.
    + rewrite List.Forall_forall in Hee.
      assert (f = first /\ c = second) as [-> ->].
      { destruct (Hin _ Hsplit) as [H|[H|[[H|[]]|H]]]; try (destruct H; fail).
        - inversion H. auto.
        - destruct (Hee _ H). }
      split.
      * intros c0 received offset len Hd.
        destruct (Hin _ Hd) as [H|[H|[[H|[]]|H]]]; try (destruct H; fail).
        -- discriminate H.
        -- exact (Hee _ H).
      * intros c0 offset len Hd.
        destruct (Hin _ Hd) as [H|[H|[[H|[]]|H]]]; try (destruct H; fail).
        -- discriminate H.
        -- exact (Hee _ H).
Qed.

(** C7: under the library's size contract, every packet the server gives
    to [echo_send] is [message_size + 2] bytes long: the byte holding
    [message_size >> 8], the byte holding its low 8 bits, and
    [message_size] bytes, so that the first two bytes are the big-endian
    length of what follows; and whatever [echo_recv] returns, the handshake
    or the cipher is handed the bytes from offset 2 on, two fewer than were
    received. *)
Theorem packets_are_length_prefixed (fuel : nat) (keys : Keys) (port : Z) (w : World) :
  message_limit ->
  (forall n packet,
     In (EvSend n packet) (events (snd (main fuel keys port w))) -> framed n packet)
  /\ (forall received offset len,
        In (EvHandshakeIn received offset len) (events (snd (main fuel keys port w))) ->
        stripped received offset len)
  /\ (forall c received offset len,
        In (EvDecrypt c received offset len) (events (snd (main fuel keys port w))) ->
        stripped received offset len).
Proof.
  intros limit. destruct (main_well_framed fuel keys port w limit) as [Hall _].
  rewrite List.Forall_forall in Hall.
  split; [|split]; intros; match goal with H : In _ _ |- _ => exact (Hall _ H) end.
Qed.

(** C8: the message buffer holds [MAX_MESSAGE_LEN + 2 = 65537] bytes;
    every call of [noise_handshakestate_write_message] is given the
    capacity [sizeof(message) - 2 = 65535]; and under the library's size
    contract no packet given to [echo_send] is longer than 65537 bytes. *)
Theorem write_capacity_is_65535 (fuel : nat) (keys : Keys) (port : Z) (w : World) :
  MAX_MESSAGE_LEN = 65535
  /\ sizeof_message = MAX_MESSAGE_LEN + 2
  /\ Z.of_nat (length initial_message) = 65537
  /\ (forall capacity,
        In (EvWriteMessage capacity) (events (snd (main fuel keys port w))) ->
        capacity = sizeof_message - 2 /\ capacity = 65535)
  /\ (message_limit ->
      forall n packet,
        In (EvSend n packet) (events (snd (main fuel keys port w))) ->
        n <= 65535 /\ Z.of_nat (length packet) <= 65537).
Proof.
  split; [reflexivity|]. split; [reflexivity|].
  split; [rewrite initial_message_length; reflexivity|]. split.
  - intros capacity Hin.
    destruct (main_events fuel keys port w) as (ke & he & se & ee & Hev & Hke & Hhe & Hse).
    rewrite Hev in Hin. rewrite List.Forall_forall in Hke, Hhe.
    rewrite !in_app_iff in Hin. destruct Hin as [H|[H|[H|H]]].
    + destruct (Hke _ H).
    + split; [exact (Hhe _ H) | rewrite (Hhe _ H); reflexivity].
    + destruct Hse as [[-> _]|(f & c & -> & _)]; [destruct H|].
      destruct H as [H|[]]. discriminate H.
    + destruct Hse as [[_ ->]|(f & c & _ & Hee)]; [destruct H|].
      rewrite List.Forall_forall in Hee. destruct (Hee _ H).
  - intros limit n packet Hin.
    destruct (main_well_framed fuel keys port w limit) as [Hall _].
    rewrite List.Forall_forall in Hall.
    destruct (Hall _ Hin) as [Hn (data & _ & _ & _ & _ & Hlen)].
    unfold MAX_MESSAGE_LEN in Hn. lia.
Qed.

(** The packets given to [echo_send] in a list of events, each with its
    [message_size]. *)
Definition sent_packets (evs : list EchoEvent) : list (Z * list Z) :=
  flat_map (fun e => match e with EvSend n packet => [(n, packet)] | _ => [] end) evs.

(** The size received, the offset and the length handed on to the cipher,
    for every decryption in a list of events. *)
Definition decrypted (evs : list EchoEvent) : list (Z * Z * Z) :=
  flat_map (fun e => match e with
                     | EvDecrypt _ received offset len => [(received, offset, len)]
                     | _ => []
                     end) evs.

Lemma sent_packets_in (evs : list EchoEvent) (n : Z) (packet : list Z) :
  In (n, packet) (sent_packets evs) -> In (EvSend n packet) evs.
Proof.
  unfold sent_packets. rewrite in_flat_map. intros (e & He & Hin).
  destruct e; cbn in Hin; try contradiction.
  destruct Hin as [Heq|[]]. inversion Heq; subst. exact He.
Qed.

Lemma decrypted_in (evs : list EchoEvent) (received offset len : Z) :
  In (received, offset, len) (decrypted evs) ->
  exists c, In (EvDecrypt c received offset len) evs.
Proof.
  unfold decrypted. rewrite in_flat_map. intros (e & He & Hin).
  destruct e; cbn in Hin; try contradiction.
  destruct Hin as [Heq|[]]. inversion Heq; subst. eexists. exact He.
Qed.

End EchoProperties.

(** ** The echo server on the loopback library *)

Definition sample_keys : EchoServer.Keys :=
  EchoServer.mkKeys (replicate 32 1) (replicate 32 2) (replicate 56 3) (replicate 56 4)
    (replicate 32 5).

(** One handshake message and one data packet are waiting; the remote
    DH object is of the given kind. *)
Definition client_world (remote_dh : Z) : @World Loopback.noise :=
  Loopback.mkWorld 0 0 [[0; 0]; [0; 3; 7; 8; 9]] [] remote_dh.

Lemma loopback_message_limit : @message_limit Loopback.noise.
Proof.
  split.
  - intros h p capacity w. cbn. unfold Loopback.pass_through.
    destruct (Z.leb_spec (Z.of_nat (length (default [] p))) capacity); cbn;
      [intros _; assumption | discriminate].
  - intros c ad data w. cbn. unfold Loopback.pass_through.
    destruct (Z.leb_spec (Z.of_nat (length data)) 65535); cbn;
      [intros _; assumption | discriminate].
Qed.

Lemma initialize_handshake_curve448_remote_witness :
  @EchoServer.initialize_handshake Loopback.noise sample_keys (Some Loopback.ROLE_RESPONDER)
    (mkProtocolId 0x4E01 0 0 0 0 0) [0; 0; 0; 0; 0] (client_world 0x4402)
  = (0, EchoServer.mkInit 0x4502 (client_world 0x4402) []).
Proof.
  destruct (@initialize_handshake_curve448_remote Loopback.noise sample_keys
              (Some Loopback.ROLE_RESPONDER) (mkProtocolId 0x4E01 0 0 0 0 0) [0; 0; 0; 0; 0]
              (client_world 0x4402)) as [_ Hremote]; [discriminate | discriminate |].
  destruct (Hremote (EchoServer.mkInit 0 (client_world 0x4402) [])) as [_ Hinit];
    [discriminate | reflexivity |].
  apply Hinit. reflexivity.
Defined.

(** The data packet of the sample run, as sent and as received. *)
Lemma sample_run_events :
  In (3, [0; 3; 7; 8; 9])
     (sent_packets
        (EchoServer.events
           (snd (@EchoServer.main Loopback.noise Loopback.echo 4 sample_keys 7000
                   (client_world 0x4401)))))
  /\ In (5, 2, 3)
        (decrypted
           (EchoServer.events
              (snd (@EchoServer.main Loopback.noise Loopback.echo 4 sample_keys 7000
                      (client_world 0x4401))))).
Proof. vm_compute. split; [right; left; reflexivity | left; reflexivity]. Qed.

Lemma packets_are_length_prefixed_witness :
  framed 3 [0; 3; 7; 8; 9] /\ stripped 5 2 3.
Proof.
  destruct sample_run_events as [Hsent Hdecrypted].
  apply sent_packets_in in Hsent. apply decrypted_in in Hdecrypted.
  destruct Hdecrypted as [c Hdecrypted].
  destruct (@packets_are_length_prefixed Loopback.noise Loopback.echo 4 sample_keys 7000
              (client_world 0x4401) loopback_message_limit) as (Hsend & _ & Hrecv).
  split; [exact (Hsend _ _ Hsent) | exact (Hrecv _ _ _ _ Hdecrypted)].
Defined.

(** On the loopback library the first CipherState returned is [Some 1] and
    the second [Some 2]: after the split, [send_cipher] is not the first. *)
Lemma first_cipher_is_not_send_cipher :
  let st :=
    snd (@EchoServer.handshake_loop Loopback.noise Loopback.echo 4
           (@EchoServer.connect Loopback.noise Loopback.echo sample_keys 7000
              (client_world 0x4401))) in
  let returned :=
    fst (@noise_handshakestate_split Loopback.noise (EchoServer.handshake st)
           (EchoServer.world st)) in
  EchoServer.ok st = true
  /\ @noise_handshakestate_get_action Loopback.noise (EchoServer.handshake st)
       (EchoServer.world st) = @NOISE_ACTION_SPLIT Loopback.noise
  /\ ~ (EchoServer.send_cipher (EchoServer.split_cipherstates st) = snd (fst returned)
        /\ EchoServer.recv_cipher (EchoServer.split_cipherstates st) = snd returned).
Proof.
  vm_compute. split; [reflexivity|]. split; [reflexivity|].
  intros [H _]. discriminate H.
Qed.

(** A whole run: the handshake message and the data packet are echoed. *)
Example echo_server_run :
  let result := @EchoServer.main Loopback.noise Loopback.echo 4 sample_keys 7000
                  (client_world 0x4401) in
  fst result = Some 0
  /\ Loopback.outbox (EchoServer.world (snd result)) = [[0; 0]; [0; 3; 7; 8; 9]].
Proof. vm_compute. split; reflexivity. Qed.

(** * Further properties of the echo server *)

Section EchoServerMore.
Context `{EC : EchoCommon}.
Import EchoServer.

Ltac state_simpl :=
  cbn [world handshake send_cipher recv_cipher message message_size payload_size ok fd
       events set_world set_handshake set_ciphers set_message set_message_size
       set_payload_size failed record fst snd] in *.

(** ** What a successful [initialize_handshake] has done *)

(** X1: when [initialize_handshake] returns 1, the blocks before the
    remote public key passed with [err] equal to [NOISE_ERROR_NONE]; and if
    the handshake needs a remote public key, its DH object is Curve25519
    and the Curve25519 client key was the last key installed, the library
    returning [NOISE_ERROR_NONE] for it.  The two error codes are assumed
    distinct. *)
Theorem initialize_handshake_success (keys : Keys)
    (handshake : option NoiseHandshakeState) (nid : NoiseProtocolId) (prologue : list Z)
    (w : World) (i : Init) :
  NOISE_ERROR_UNKNOWN_ID <> NOISE_ERROR_NONE ->
  initialize_handshake keys handshake nid prologue w = (1, i) ->
  exists i0,
    before_remote_public_key keys handshake nid prologue w = inr i0
    /\ err i0 = NOISE_ERROR_NONE
    /\ err i = NOISE_ERROR_NONE
    /\ (noise_handshakestate_needs_remote_public_key handshake (init_world i0) = 0 ->
        i = i0)
    /\ (noise_handshakestate_needs_remote_public_key handshake (init_world i0) <> 0 ->
        noise_dhstate_get_dh_id
          (noise_handshakestate_get_remote_public_key_dh handshake (init_world i0))
          (init_world i0) = NOISE_DH_CURVE25519
        /\ init_events i = init_events i0 ++ [EvSetPublicKey Client25519]
        /\ noise_dhstate_set_public_key
             (noise_handshakestate_get_remote_public_key_dh handshake (init_world i0))
             (client_key_25519 keys) (init_world i0)
           = (NOISE_ERROR_NONE, init_world i)).
Proof.
  unfold initialize_handshake. intros Herrors Hrun.
  destruct (before_remote_public_key keys handshake nid prologue w) as [i0|i0] eqn:Hpre;
    [discriminate Hrun|].
  exists i0. split; [reflexivity|].
  assert (Herr0 : err i0 = NOISE_ERROR_NONE).
  { revert Hpre. unfold before_remote_public_key, prologue_block.
    destruct (noise_handshakestate_set_prologue handshake prologue w) as [e w1].
    destruct (Z.eqb_spec e NOISE_ERROR_NONE) as [He|He]; cbn [negb]; [|discriminate].
    unfold psk_block. cbn [init_world init_events].
    destruct (prefix_id nid =? NOISE_PREFIX_PSK).
    - destruct (noise_handshakestate_set_pre_shared_key _ _ _) as [e2 w2].
      destruct (Z.eqb_spec e2 NOISE_ERROR_NONE) as [He2|He2]; cbn [negb]; [|discriminate].
      unfold local_keypair_block. cbn [init_world init_events].
      destruct (negb _); [|intros H; inversion H; exact He2].
      match goal with
      | |- context [negb (err ?x =? NOISE_ERROR_NONE)] =>
        destruct (Z.eqb_spec (err x) NOISE_ERROR_NONE) as [He3|He3]; cbn [negb];
          [intros H; inversion H; exact He3 | discriminate]
      end.
    - unfold local_keypair_block. cbn [init_world init_events].
      destruct (negb _); [|intros H; inversion H; exact He].
      match goal with
      | |- context [negb (err ?x =? NOISE_ERROR_NONE)] =>
        destruct (Z.eqb_spec (err x) NOISE_ERROR_NONE) as [He3|He3]; cbn [negb];
          [intros H; inversion H; exact He3 | discriminate]
      end. }
  split; [exact Herr0|].
  revert Hrun. unfold remote_public_key_block.
  destruct (Z.eqb_spec (noise_handshakestate_needs_remote_public_key handshake
                          (init_world i0)) 0) as [Hn|Hn]; cbn [negb].
  - intros H. inversion H; subst i. split; [exact Herr0|].
    split; [reflexivity | intros; contradiction].
  - destruct (Z.eqb_spec
                (noise_dhstate_get_dh_id
                   (noise_handshakestate_get_remote_public_key_dh handshake (init_world i0))
                   (init_world i0)) NOISE_DH_CURVE25519) as [Hid|Hid].
    + destruct (noise_dhstate_set_public_key _ _ _) as [e w1] eqn:Hset. cbn [err].
      destruct (Z.eqb_spec e NOISE_ERROR_NONE) as [He|He]; cbn [negb]; [|discriminate].
      intros H. inversion H; subst i. cbn [err init_events init_world].
      split; [exact He|]. split; [intros; contradiction|]. intros _.
      split; [exact Hid|]. split; [reflexivity|]. rewrite He. reflexivity.
    + cbn [err].
      destruct (Z.eqb_spec NOISE_ERROR_UNKNOWN_ID NOISE_ERROR_NONE) as [He|He]; cbn [negb];
        [|discriminate].
      intros H. inversion H; subst i. cbn [err init_events init_world].
      contradiction.
Qed.

(** ** The exit status *)

Lemma echo_loop_ok (fuel : nat) :
  forall st, ok (snd (echo_loop fuel st)) = true -> ok st = true.
Proof.
  induction fuel as [|fuel IH]; intros st; cbn [echo_loop].
  - destruct (ok st) eqn:Hok; cbn [snd]; congruence.
  - destruct (ok st) eqn:Hok; [reflexivity | cbn [snd]; congruence].
Qed.

(** X2: [main] exits with 0 or 1, and with 0 only when the handshake
    ended in [NOISE_ACTION_SPLIT] and [noise_handshakestate_split] was
    called and returned [NOISE_ERROR_NONE]. *)
Theorem main_exit_status (fuel : nat) (keys : Keys) (port : Z) (w : World) (status : Z) :
  fst (main fuel keys port w) = Some status ->
  (status = 0 \/ status = 1)
  /\ (status = 0 ->
      exists st first second w',
        ok st = true
        /\ noise_handshakestate_get_action (handshake st) (world st) = NOISE_ACTION_SPLIT
        /\ noise_handshakestate_split (handshake st) (world st)
           = ((NOISE_ERROR_NONE, first, second), w')
        /\ In (EvSplit first second) (events (snd (main fuel keys port w)))).
Proof.
  unfold main.
  destruct (handshake_loop fuel (connect keys port w)) as [finished st1].
  destruct finished; cbn [negb]; [|discriminate].
  destruct (echo_loop_events fuel (split_cipherstates st1)) as (ee & Hee & _).
  pose proof (echo_loop_ok fuel (split_cipherstates st1)) as Hlatch.
  destruct (echo_loop fuel (split_cipherstates st1)) as [finished st2].
  destruct finished; cbn [negb]; [|discriminate].
  cbn [snd] in *. unfold clean_up.
  destruct (noise_cipherstate_free _ _) as [e1 w1].
  destruct (noise_cipherstate_free _ _) as [e2 w2]. cbn [fst snd]. state_simpl.
  intros Hstatus. inversion Hstatus as [Hs]. clear Hstatus.
  destruct (ok st2) eqn:Hok2; [|split; [right; reflexivity | discriminate]].
  split; [left; reflexivity|]. intros _.
  specialize (Hlatch eq_refl).
  exists st1. revert Hlatch Hee. unfold split_cipherstates.
  destruct (ok st1) eqn:Hok1; cbn [andb].
  - destruct (Z.eqb_spec (noise_handshakestate_get_action (handshake st1) (world st1))
                NOISE_ACTION_SPLIT) as [Hact|Hact]; cbn [negb]; state_simpl.
    + rewrite Hok1.
      destruct (noise_handshakestate_split (handshake st1) (world st1))
        as [[[e first] second] w3].
      destruct (Z.eqb_spec e NOISE_ERROR_NONE) as [He|He]; cbn [negb]; state_simpl;
        destruct (noise_handshakestate_free _ _); state_simpl; [|discriminate].
      intros _ Hev. exists first, second, w3. subst e.
      split; [reflexivity|]. split; [exact Hact|]. split; [reflexivity|].
      rewrite Hev. rewrite !in_app_iff. left. right. left. reflexivity.
    + destruct (noise_handshakestate_free _ _); state_simpl. discriminate.
  - rewrite Hok1. destruct (noise_handshakestate_free _ _); state_simpl. congruence.
Qed.

(** ** The order of the phases *)

Definition before_split (e : EchoEvent) : Prop :=
  match e with
  | EvSetPrivateKey _ | EvSetPublicKey _ | EvWriteMessage _ | EvHandshakeIn _ _ _
  | EvSend _ _ => True
  | _ => False
  end.

Definition after_split (e : EchoEvent) : Prop :=
  match e with
  | EvDecrypt _ _ _ _ | EvEncrypt _ _ _ | EvSend _ _ => True
  | _ => False
  end.

(** X3: in every run, [noise_handshakestate_split] is called at most once;
    everything before it is a key installed, a handshake message written
    or read, or a packet sent, and everything after it is a decryption, an
    encryption or a packet sent: no data is decrypted or encrypted before
    the split and no handshake message is processed after it. *)
Theorem main_phases (fuel : nat) (keys : Keys) (port : Z) (w : World) :
  exists before after,
    events (snd (main fuel keys port w)) = before ++ after
    /\ Forall before_split before
    /\ (after = []
        \/ exists first second rest,
             after = EvSplit first second :: rest /\ Forall after_split rest).
Proof.
  destruct (main_events fuel keys port w) as (ke & he & se & ee & Hev & Hke & Hhe & Hse).
  exists (ke ++ he), (se ++ ee). split; [rewrite Hev, <- app_assoc; reflexivity|].
  split.
  - apply Forall_app. split.
    + eapply Forall_impl; [exact Hke|]. intros [] H; try exact I; destruct H.
    + eapply Forall_impl; [exact Hhe|]. intros [] H; try exact I; destruct H.
  - destruct Hse as [[-> ->]|(first & second & -> & Hee)]; [left; reflexivity|].
    right. exists first, second, ee. split; [reflexivity|].
    eapply Forall_impl; [exact Hee|]. intros [] H; try exact I; destruct H.
Qed.

(** ** What one turn of each loop passes on *)

Lemma slice_store_0 (buf data : list Z) :
  (2 <= length data)%nat ->
  slice (store buf 0 data) 2 (Z.of_nat (length data) - 2) = drop 2 data.
Proof.
  intros H. unfold slice, store. rewrite take_0. cbn [app].
  rewrite drop_app_le by lia.
  replace (Z.to_nat (Z.of_nat (length data) - 2)) with (length (drop 2 data))
    by (rewrite length_drop; lia).
  apply take_app_length.
Qed.

Lemma slice_store_2 (buf data : list Z) :
  (2 <= length buf)%nat ->
  slice (store buf 2 data) 2 (Z.of_nat (length data)) = data.
Proof.
  intros H. destruct (store_at_2 buf data H) as (b0 & b1 & rest & ->).
  unfold slice. cbn [drop]. rewrite Nat2Z.id. apply take_app_length.
Qed.

(** X4: one turn of the echo loop.  When [echo_recv] stores [data] and
    returns its length (at least 2), the cipher decrypts the bytes after
    the two-byte prefix; when that yields [plain] the sending cipher
    encrypts exactly [plain]; and when that yields [reply] the packet given
    to [echo_send] is the two length bytes of [reply] followed by [reply],
    the loop going on if the send succeeds. *)
Theorem echo_step_echoes (st : Server) (data plain reply : list Z) (w1 w2 w3 : World) :
  (2 <= length data)%nat ->
  Z.of_nat (length data) < 2 ^ 64 ->
  echo_recv (fd st) sizeof_message (world st) = ((Z.of_nat (length data), data), w1) ->
  noise_cipherstate_decrypt_with_ad (recv_cipher st) None (drop 2 data) w1
  = ((NOISE_ERROR_NONE, plain), w2) ->
  noise_cipherstate_encrypt_with_ad (send_cipher st) None plain w2
  = ((NOISE_ERROR_NONE, reply), w3) ->
  let packet :=
    uint8_t (Z.shiftr (Z.of_nat (length reply)) 8) :: uint8_t (Z.of_nat (length reply))
    :: reply in
  fst (echo_step st) = negb (fst (echo_send (fd st) packet w3) =? 0)
  /\ world (snd (echo_step st)) = snd (echo_send (fd st) packet w3)
  /\ events (snd (echo_step st))
     = events st ++ [EvDecrypt (recv_cipher st) (Z.of_nat (length data)) 2
                       (Z.of_nat (length data) - 2);
                     EvEncrypt (send_cipher st) 2 (Z.of_nat (length plain));
                     EvSend (Z.of_nat (length reply)) packet].
Proof.
  intros Hlen Hmax Hrecv Hdec Henc packet. unfold echo_step. rewrite Hrecv. state_simpl.
  replace (Z.of_nat (length data) =? 0) with false by (symmetry; apply Z.eqb_neq; lia).
  assert (Hsize : size_t (Z.of_nat (length data) - 2) = Z.of_nat (length data) - 2).
  { unfold size_t. apply Z.mod_small. lia. }
  rewrite Hsize, slice_store_0 by exact Hlen. rewrite Hdec, Z.eqb_refl. cbn [negb].
  state_simpl.
  assert (Hbuf : (2 <= length (store (message st) 0 data))%nat).
  { unfold store. rewrite !length_app. lia. }
  rewrite slice_store_2 by exact Hbuf. rewrite Henc, Z.eqb_refl. cbn [negb]. state_simpl.
  unfold send_message. state_simpl.
  assert (Hbuf2 : (2 <= length (store (store (message st) 0 data) 2 plain))%nat).
  { pose proof (length_store (store (message st) 0 data) 2 plain Hbuf). lia. }
  destruct (store_at_2 _ reply Hbuf2) as (b0 & b1 & tail & ->).
  cbn [list_insert insert].
  replace (Z.to_nat (Z.of_nat (length reply) + 2)) with (S (S (length reply))) by lia.
  cbn [take]. rewrite take_app_length. fold packet.
  destruct (echo_send (fd st) packet w3) as [sent w4]. cbn [fst snd].
  destruct (sent =? 0); state_simpl; cbn [negb];
    (split; [reflexivity|]); (split; [reflexivity|]); rewrite <- !app_assoc; reflexivity.
Qed.

(** X5: one turn of the handshake loop on [NOISE_ACTION_READ_MESSAGE].
    When [echo_recv] stores [data] and returns its length (at least 2),
    [noise_handshakestate_read_message] is given the bytes after the
    two-byte prefix and no payload buffer, and the loop goes on exactly
    when it returns [NOISE_ERROR_NONE]; when [echo_recv] returns 0 the
    server gives up without calling the library. *)
Theorem handshake_step_reads (st : Server) :
  noise_handshakestate_get_action (handshake st) (world st)
  <> NOISE_ACTION_WRITE_MESSAGE ->
  noise_handshakestate_get_action (handshake st) (world st) = NOISE_ACTION_READ_MESSAGE ->
  (forall data w1,
     (2 <= length data)%nat ->
     Z.of_nat (length data) < 2 ^ 64 ->
     echo_recv (fd st) sizeof_message (world st) = ((Z.of_nat (length data), data), w1) ->
     let result :=
       noise_handshakestate_read_message (handshake st) (drop 2 data) None w1 in
     fst (handshake_step st) = (fst (fst result) =? NOISE_ERROR_NONE)
     /\ ok (snd (handshake_step st)) = (ok st && (fst (fst result) =? NOISE_ERROR_NONE))
     /\ world (snd (handshake_step st)) = snd result)
  /\ (forall data w1,
        echo_recv (fd st) sizeof_message (world st) = ((0, data), w1) ->
        fst (handshake_step st) = false
        /\ ok (snd (handshake_step st)) = false
        /\ world (snd (handshake_step st)) = w1
        /\ events (snd (handshake_step st)) = events st).
Proof.
  intros Hnw Hr. apply Z.eqb_neq in Hnw. split.
  - intros data w1 Hlen Hmax Hrecv result. unfold handshake_step.
    rewrite Hnw, Hr, Z.eqb_refl, Hrecv. state_simpl.
    replace (Z.of_nat (length data) =? 0) with false by (symmetry; apply Z.eqb_neq; lia).
    assert (Hsize : size_t (Z.of_nat (length data) - 2) = Z.of_nat (length data) - 2).
    { unfold size_t. apply Z.mod_small. lia. }
    rewrite Hsize, slice_store_0 by exact Hlen. fold result.
    destruct result as [[e payload] w2]. cbn [fst snd].
    destruct (e =? NOISE_ERROR_NONE); cbn [negb]; state_simpl;
      rewrite ?andb_true_r, ?andb_false_r; auto.
  - intros data w1 Hrecv. unfold handshake_step.
    rewrite Hnw, Hr, Z.eqb_refl, Hrecv. state_simpl. auto.
Qed.

(** ** A failed set-up *)

(** X13: when the set-up fails ([ok] is 0 after the block that starts the
    handshake), [main] exits with 1 whatever the fuel: no handshake message
    is written or read, [noise_handshakestate_split] is not called, nothing
    is decrypted, encrypted or sent, and both cipher pointers stay [NULL]. *)
Theorem failed_setup_exits (fuel : nat) (keys : Keys) (port : Z) (w : World) :
  ok (connect keys port w) = false ->
  fst (main fuel keys port w) = Some 1
  /\ events (snd (main fuel keys port w)) = events (connect keys port w)
  /\ Forall key_event (events (connect keys port w))
  /\ send_cipher (snd (main fuel keys port w)) = None
  /\ recv_cipher (snd (main fuel keys port w)) = None.
Proof.
  intros Hfail. destruct (connect_events keys port w) as [Hkeys _].
  assert (Hciphers : send_cipher (connect keys port w) = None
                     /\ recv_cipher (connect keys port w) = None).
  { unfold connect. repeat case_match; state_simpl; split; reflexivity. }
  destruct Hciphers as [Hsend Hrecv].
  unfold main.
  assert (Hloop : handshake_loop fuel (connect keys port w) = (true, connect keys port w)).
  { destruct fuel; cbn [handshake_loop]; rewrite Hfail; reflexivity. }
  rewrite Hloop. cbn [negb].
  set (st := split_cipherstates (connect keys port w)).
  assert (Hst : ok st = false /\ events st = events (connect keys port w)
                /\ send_cipher st = None /\ recv_cipher st = None).
  { subst st. unfold split_cipherstates. rewrite Hfail. cbn [andb]. rewrite Hfail.
    destruct (noise_handshakestate_free _ _) as [e w']. state_simpl. auto. }
  destruct Hst as (Hok & Hev & Hs & Hr).
  assert (Hecho : echo_loop fuel st = (true, st)).
  { destruct fuel; cbn [echo_loop]; rewrite Hok; reflexivity. }
  rewrite Hecho. cbn [negb]. unfold clean_up.
  destruct (noise_cipherstate_free (send_cipher st) _) as [e1 w1].
  destruct (noise_cipherstate_free (recv_cipher st) _) as [e2 w2].
  rewrite Hok. state_simpl. auto.
Qed.

End EchoServerMore.

(** ** Sample runs on the loopback library *)

Lemma initialize_handshake_success_witness :
  exists i0,
    @EchoServer.before_remote_public_key Loopback.noise sample_keys
      (Some Loopback.ROLE_RESPONDER) (mkProtocolId 0x4E01 0 0 0 0 0) [0; 0; 0; 0; 0]
      (client_world 0x4401) = inr i0
    /\ @EchoServer.err Loopback.noise i0 = 0.
Proof.
  destruct (@initialize_handshake_success Loopback.noise sample_keys
              (Some Loopback.ROLE_RESPONDER) (mkProtocolId 0x4E01 0 0 0 0 0) [0; 0; 0; 0; 0]
              (client_world 0x4401)
              (EchoServer.mkInit 0 (client_world 0x4401)
                 [@EchoServer.EvSetPublicKey Loopback.noise EchoServer.Client25519]))
    as (i0 & Hbefore & Herr & _); [discriminate | reflexivity |].
  exists i0. split; assumption.
Defined.

Lemma main_exit_status_witness :
  exists (st : @EchoServer.Server Loopback.noise) first second,
    EchoServer.ok st = true
    /\ In (@EchoServer.EvSplit Loopback.noise first second)
          (EchoServer.events
             (snd (@EchoServer.main Loopback.noise Loopback.echo 4 sample_keys 7000
                     (client_world 0x4401)))).
Proof.
  destruct (@main_exit_status Loopback.noise Loopback.echo 4 sample_keys 7000
              (client_world 0x4401) 0) as [_ Hsplit]; [vm_compute; reflexivity|].
  destruct (Hsplit eq_refl) as (st & first & second & w' & Hok & _ & _ & Hin).
  exists st, first, second. split; assumption.
Defined.

(** The world after the handshake, with the given packets waiting. *)
Definition split_world (inbox : list (list Z)) : @World Loopback.noise :=
  Loopback.mkWorld 0 2 inbox [] 0x4401.

(** The server after the split, with one data packet waiting. *)
Definition sample_server : @EchoServer.Server Loopback.noise :=
  @EchoServer.mkServer Loopback.noise (split_world [[0; 3; 7; 8; 9]]) None (Some 2) (Some 1)
    EchoServer.initial_message 0 0 true 3 [].

Lemma echo_step_echoes_witness :
  fst (@EchoServer.echo_step Loopback.noise Loopback.echo sample_server) = true
  /\ Loopback.outbox
       (EchoServer.world (snd (@EchoServer.echo_step Loopback.noise Loopback.echo sample_server)))
     = [[0; 3; 7; 8; 9]].
Proof.
  destruct (@echo_step_echoes Loopback.noise Loopback.echo sample_server
              [0; 3; 7; 8; 9] [7; 8; 9] [7; 8; 9]
              (split_world []) (split_world []) (split_world []))
    as (Hagain & Hworld & _);
    [cbn; lia | cbn; lia | reflexivity | reflexivity | reflexivity |].
  split; [exact Hagain | rewrite Hworld; reflexivity].
Defined.

(** The server after [noise_handshakestate_start], with the first
    handshake message waiting. *)
Definition sample_responder : @EchoServer.Server Loopback.noise :=
  @EchoServer.mkServer Loopback.noise (client_world 0x4401) (Some Loopback.ROLE_RESPONDER)
    None None
    EchoServer.initial_message 0 0 true 3 [].

Lemma handshake_step_reads_witness :
  fst (@EchoServer.handshake_step Loopback.noise Loopback.echo sample_responder) = true
  /\ Loopback.resp_done
       (EchoServer.world
          (snd (@EchoServer.handshake_step Loopback.noise Loopback.echo sample_responder)))
     = 1%nat.
Proof.
  destruct (@handshake_step_reads Loopback.noise Loopback.echo sample_responder)
    as [Hread _]; [discriminate | reflexivity |].
  destruct (Hread [0; 0] (Loopback.mkWorld 0 0 [[0; 3; 7; 8; 9]] [] 0x4401 : @World Loopback.noise))
    as (Hagain & _ & Hworld); [cbn; lia | cbn; lia | reflexivity |].
  split; [exact Hagain | rewrite Hworld; reflexivity].
Defined.

(** * Further properties of the test driver *)

Section RunnerMore.
Context `{NL : NoiseLibrary}.
Import TestVector.

(** ** A failed name check ends the test *)

(** [unchanged m]: [m] leaves the world and the trace as they are. *)
Definition unchanged {A : Type} (m : Test A) : Prop := forall s, snd (m s) = s.

Lemma unchanged_bind {A B : Type} (m : Test A) (k : A -> Test B) :
  unchanged m -> (forall a, unchanged (k a)) -> unchanged (m ≫= k).
Proof.
  intros Hm Hk s. unfold mbind, Test_bind, bind. specialize (Hm s).
  destruct (m s) as [[a|v|] s1]; cbn [snd] in *; subst s1; [apply Hk | reflexivity..].
Qed.

Lemma unchanged_compare (actual expected : Z) : unchanged (compare actual expected).
Proof. intros s. unfold compare. destruct (actual =? expected); reflexivity. Qed.

Lemma unchanged_check_id (id category : Z) (nm : option string) :
  unchanged (check_id id category nm).
Proof.
  intros s. unfold check_id, verify.
  destruct nm; [|reflexivity]. destruct (noise_id_to_name category id); [|reflexivity].
  destruct (_ =? 0); reflexivity.
Qed.

Lemma unchanged_test_name_parsing (vec : TestVector) : unchanged (test_name_parsing vec).
Proof.
  unfold test_name_parsing. destruct (name vec) as [nm|]; [|intros s; reflexivity].
  destruct (noise_protocol_name_to_id nm (strlen nm)) as [e id].
  repeat (apply unchanged_bind; [|intros _]);
    try apply unchanged_compare; try apply unchanged_check_id.
  destruct (_ || _); apply unchanged_compare.
Qed.

(** X6: [test_name_parsing] changes nothing in the library (it creates no
    object and installs no key), and when one of its checks fails
    [test_vector_run] returns 0 at once: [test_connection] is not run. *)
Theorem failed_name_check_ends_test (vec : TestVector) (s : RunState) :
  snd (test_name_parsing vec s) = s
  /\ (forall v, fst (test_name_parsing vec s) = Longjmp v ->
        test_vector_run vec s = (Some 0, s)).
Proof.
  pose proof (unchanged_test_name_parsing vec s) as Hsame.
  split; [exact Hsame|]. intros v Hv.
  destruct (emits_test_name_parsing (fun _ => True) vec s) as [_ Hone].
  specialize (Hone v Hv). subst v.
  unfold test_vector_run, mbind, Test_bind, bind.
  destruct (test_name_parsing vec s) as [r s1]. cbn [fst snd] in *. subst r s1.
  reflexivity.
Qed.

(** ** The [skipped] branch *)

Lemma emits_whole_test (vec : TestVector) :
  emits (fun _ => True) (test_name_parsing vec;; test_connection vec).
Proof.
  apply emits_bind; [apply emits_test_name_parsing | intros _].
  apply emits_test_connection; try (intros; exact I).
  intros responder. apply emits_set_responder_ephemeral. exact I.
Qed.

(** X7: no path through the two tests ends in [skip()]: a [longjmp] they
    take carries the value 1.  So [test_vector_run] returns 1 only when
    both tests ran to their end. *)
Theorem test_vector_run_never_skips (vec : TestVector) (s s' : RunState) :
  test_vector_run vec s = (Some 1, s') ->
  (test_name_parsing vec;; test_connection vec) s = (Ok tt, s').
Proof.
  unfold test_vector_run. intros Hrun.
  destruct (emits_whole_test vec s) as [_ Hone].
  destruct ((test_name_parsing vec;; test_connection vec) s) as [[[]|v|] s1];
    cbn [fst] in Hone.
  - inversion Hrun. reflexivity.
  - rewrite (Hone v eq_refl) in Hrun. cbn in Hrun. discriminate Hrun.
  - discriminate Hrun.
Qed.

(** ** The order in which the keys are installed *)

Definition keys_installed (es : list TestEvent) : list KeySite :=
  flat_map (fun e => match e with EvSetKey site => [site] | _ => [] end) es.

(** The field of the vector that each place of [test_connection] tests. *)
Definition key_field (site : KeySite) (vec : TestVector) : option (list Z) :=
  match site with
  | InitStatic => init_static vec
  | InitPublicStatic => init_public_static vec
  | RespStatic => resp_static vec
  | RespPublicStatic => resp_public_static vec
  | InitEphemeral => init_ephemeral vec
  | RespEphemeral => resp_ephemeral vec
  end.

Definition present (site : KeySite) (vec : TestVector) : list KeySite :=
  if is_Some_bool (key_field site vec) then [site] else [].

(** The keys a vector supplies, in the order of the six [if] blocks. *)
Definition supplied_keys (vec : TestVector) : list KeySite :=
  present InitStatic vec ++ present InitPublicStatic vec ++ present RespStatic vec
  ++ present RespPublicStatic vec ++ present InitEphemeral vec ++ present RespEphemeral vec.

(** [installs sites m]: the keys [m] installs are, in order, among [sites]. *)
Definition installs {A : Type} (sites : list KeySite) (m : Test A) : Prop :=
  forall s, exists es,
    trace (snd (m s)) = trace s ++ es /\ keys_installed es `sublist_of` sites.

Definition no_key (e : TestEvent) : Prop :=
  match e with EvSetKey _ => False | _ => True end.

Lemma keys_installed_app (es es' : list TestEvent) :
  keys_installed (es ++ es') = keys_installed es ++ keys_installed es'.
Proof. apply flat_map_app. Qed.

Lemma installs_none {A : Type} (m : Test A) : emits no_key m -> installs [] m.
Proof.
  intros Hm s. destruct (Hm s) as [(es & Htr & Hall) _]. exists es. split; [exact Htr|].
  replace (keys_installed es) with (@nil KeySite); [constructor|].
  clear Htr. induction Hall as [|e es He _ IH]; [reflexivity|].
  destruct e; cbn in *; [contradiction | exact IH | exact IH].
Qed.

Lemma installs_bind {A B : Type} (before after : list KeySite) (m : Test A)
    (k : A -> Test B) :
  installs before m -> (forall a, installs after (k a)) -> installs (before ++ after) (m ≫= k).
Proof.
  intros Hm Hk s. unfold mbind, Test_bind, bind.
  destruct (Hm s) as (es & Htr & Hsub).
  destruct (m s) as [[a|v|] s1]; cbn [snd] in *.
  - destruct (Hk a s1) as (es' & Htr' & Hsub'). exists (es ++ es').
    rewrite Htr', Htr, app_assoc, keys_installed_app.
    split; [reflexivity | apply sublist_app; assumption].
  - exists es. split; [exact Htr | apply sublist_inserts_r, Hsub].
  - exists es. split; [exact Htr | apply sublist_inserts_r, Hsub].
Qed.

Lemma installs_after {A B : Type} (sites : list KeySite) (m : Test A) (k : A -> Test B) :
  emits no_key m -> (forall a, installs sites (k a)) -> installs sites (m ≫= k).
Proof. intros Hm Hk. apply (installs_bind [] sites); [apply installs_none, Hm | exact Hk]. Qed.

Lemma installs_install_key (site : KeySite) (dh : World -> option NoiseDHState)
    (set : option NoiseDHState -> list Z -> World -> Z * World) (key : list Z) :
  installs [site] (install_key site dh set key).
Proof.
  intros s. exists [EvSetKey site]. split; [apply install_key_trace | reflexivity].
Qed.

Lemma installs_set_static_and_initiator_keys (vec : TestVector)
    (initiator responder : option NoiseHandshakeState) :
  installs (present InitStatic vec ++ present InitPublicStatic vec ++ present RespStatic vec
            ++ present RespPublicStatic vec ++ present InitEphemeral vec)
    (set_static_and_initiator_keys vec initiator responder).
Proof.
  unfold set_static_and_initiator_keys, present, key_field.
  repeat (apply installs_bind; [|intros _]);
    lazymatch goal with
    | |- installs _ (match ?field with _ => _ end) =>
      destruct field; cbn [is_Some_bool];
        [apply installs_install_key | apply installs_none, emits_ret]
    end.
Qed.

Lemma installs_set_responder_ephemeral (vec : TestVector)
    (responder : option NoiseHandshakeState) :
  installs (present RespEphemeral vec) (set_responder_ephemeral vec responder).
Proof.
  unfold set_responder_ephemeral, present, key_field.
  destruct (resp_ephemeral vec); cbn [is_Some_bool]; [|apply installs_none, emits_ret].
  destruct (pattern vec) as [p|];
    [|intros s; exists []; rewrite app_nil_r; split; [reflexivity | apply sublist_nil_l]].
  destruct (negb _); [apply installs_install_key|].
  intros s. exists []. rewrite app_nil_r. split; [reflexivity | apply sublist_nil_l].
Qed.

Lemma installs_before {A B : Type} (sites : list KeySite) (m : Test A) (k : A -> Test B) :
  installs sites m -> (forall a, emits no_key (k a)) -> installs sites (m ≫= k).
Proof.
  intros Hm Hk. rewrite <- (app_nil_r sites).
  apply installs_bind; [exact Hm | intros a; apply installs_none, Hk].
Qed.

Lemma emits_after_keys (vec : TestVector) (initiator responder : option NoiseHandshakeState) :
  emits no_key
    (set_prologues_and_psks vec initiator responder;;
     start_both initiator responder;;
     message_loop initiator responder (messages vec) 0 NOISE_ROLE_INITIATOR;;
     free_both initiator responder).
Proof.
  apply emits_bind; [apply emits_set_prologues_and_psks | intros _].
  apply emits_bind; [apply emits_start_both | intros _].
  apply emits_bind; [apply emits_message_loop; intros; exact I | intros _].
  apply emits_free_both.
Qed.

(** X8: [test_connection] installs keys in one fixed order (initiator
    static, initiator public, responder static, responder public,
    initiator ephemeral, responder ephemeral), each at most once and only
    when the vector has the field. *)
Theorem test_connection_key_order (vec : TestVector) (s : RunState) :
  exists es,
    trace (snd (test_connection vec s)) = trace s ++ es
    /\ keys_installed es `sublist_of` supplied_keys vec.
Proof.
  revert s. change (installs (supplied_keys vec) (test_connection vec)).
  unfold test_connection, supplied_keys.
  apply installs_after; [apply emits_create_ends | intros [initiator responder]].
  replace (present InitStatic vec ++ present InitPublicStatic vec ++ present RespStatic vec
           ++ present RespPublicStatic vec ++ present InitEphemeral vec
           ++ present RespEphemeral vec)
    with ((present InitStatic vec ++ present InitPublicStatic vec ++ present RespStatic vec
           ++ present RespPublicStatic vec ++ present InitEphemeral vec)
          ++ present RespEphemeral vec)
    by (rewrite <- !app_assoc; reflexivity).
  apply installs_bind; [apply installs_set_static_and_initiator_keys | intros _].
  apply installs_before; [apply installs_set_responder_ephemeral | intros _].
  apply emits_after_keys.
Qed.

End RunnerMore.

(** * Properties of [process_test_vector] *)

Section VectorParserProperties.
Context `{JL : JsonLibrary} `{NL : NoiseLibrary}.
Variable calloc_ok : nat -> bool.
Variable reader_line_number : JSONReader Lexer -> Z.
Import TestVector VectorParser.

(** The two ways in which a loop of the parser can stop. *)
Definition benign (why : Stop) : Prop := why = OutOfFuel \/ why = NullString.

(** [holds Q o]: what the run returned satisfies [Q], and when it stopped
    it did so for one of the two reasons above. *)
Definition holds {A : Type} (Q : A -> Prop) (o : Outcome A) : Prop :=
  match o with
  | Returned a => Q a
  | Stopped why => benign why
  end.

Lemma holds_bind {A B : Type} (Q : A -> Prop) (R : B -> Prop) (m : Outcome A)
    (k : A -> Outcome B) :
  holds Q m -> (forall a, Q a -> holds R (k a)) -> holds R (m ≫= k).
Proof. destruct m as [a|why]; cbn; auto. Qed.

Lemma holds_impl {A : Type} (Q R : A -> Prop) (o : Outcome A) :
  holds Q o -> (forall a, Q a -> R a) -> holds R o.
Proof. destruct o as [a|why]; cbn; auto. Qed.

(** ** The [messages] array *)

Definition messages_of (p : Parse) : list RawMessage := raw_messages (vec p).
Definition count_of (p : Parse) : Z := raw_num_messages (vec p).

(** [num_messages] is within the array, which keeps its 32 entries. *)
Definition bounded (p : Parse) : Prop :=
  0 <= count_of p <= MAX_MESSAGES /\ Z.of_nat (length (messages_of p)) = MAX_MESSAGES.

(** What a step on the entry [messages[num_messages]] leaves alone. *)
Definition same_entries (p p' : Parse) : Prop :=
  count_of p' = count_of p
  /\ length (messages_of p') = length (messages_of p)
  /\ take (Z.to_nat (count_of p)) (messages_of p')
     = take (Z.to_nat (count_of p)) (messages_of p).

Lemma same_entries_refl (p : Parse) : same_entries p p.
Proof. repeat split. Qed.

Lemma same_entries_trans (p p' p'' : Parse) :
  same_entries p p' -> same_entries p' p'' -> same_entries p p''.
Proof.
  intros (Hc & Hl & Ht) (Hc' & Hl' & Ht'). rewrite Hc in Ht'.
  repeat split; congruence.
Qed.

Lemma lookup_in_array (p : Parse) :
  bounded p -> count_of p < MAX_MESSAGES ->
  exists m, messages_of p !! Z.to_nat (count_of p) = Some m.
Proof.
  intros [Hc Hl] Hlt. apply lookup_lt_is_Some. lia.
Qed.

Lemma message_field_entries (f : MessageField) (p : Parse) :
  bounded p -> count_of p < MAX_MESSAGES ->
  holds (same_entries p) (message_field calloc_ok f p).
Proof.
  intros Hb Hlt. destruct (lookup_in_array p Hb Hlt) as [m Hm].
  unfold message_field. unfold messages_of, count_of in Hm. rewrite Hm.
  destruct (expect_binary_field _ _ _) as [[[size value] r]|]; cbn; [|right; reflexivity].
  unfold same_entries, messages_of, count_of. cbn.
  split; [reflexivity|]. split; [apply length_insert|].
  apply take_insert_ge. lia.
Qed.

Lemma bounded_same_entries (p p' : Parse) : bounded p -> same_entries p p' -> bounded p'.
Proof.
  intros [Hc Hl] (Hc' & Hl' & _). unfold bounded. rewrite Hc', Hl'. split; assumption.
Qed.

Lemma message_fields_loop_entries (fuel : nat) :
  forall p, bounded p -> count_of p < MAX_MESSAGES ->
    holds (same_entries p) (message_fields_loop calloc_ok fuel p).
Proof.
  induction fuel as [|fuel IH]; intros p Hb Hlt; cbn [message_fields_loop];
    destruct (_ && _); try apply same_entries_refl; try (left; reflexivity).
  assert (Hnext : forall p', same_entries p p' ->
            holds (same_entries p) (message_fields_loop calloc_ok fuel p')).
  { intros p' Hsame. eapply holds_impl.
    - apply IH; [eapply bounded_same_entries; eassumption|].
      destruct Hsame as [-> _]. exact Hlt.
    - intros p'' Hsame'. eapply same_entries_trans; eassumption. }
  destruct (json_is_name _ "payload");
    [|destruct (json_is_name _ "ciphertext")].
  - eapply holds_bind; [apply message_field_entries; assumption | exact Hnext].
  - eapply holds_bind; [apply message_field_entries; assumption | exact Hnext].
  - apply Hnext. repeat split.
Qed.

Lemma close_message_bounded (p : Parse) :
  bounded p -> count_of p < MAX_MESSAGES -> holds bounded (close_message p).
Proof.
  intros Hb Hlt. destruct (lookup_in_array p Hb Hlt) as [m Hm].
  unfold close_message. unfold messages_of, count_of in Hm. rewrite Hm. cbn.
  destruct Hb as [Hc Hl]. unfold bounded, count_of, messages_of in *. cbn. lia.
Qed.

Lemma messages_loop_bounded (fuel : nat) :
  forall p, bounded p -> holds bounded (messages_loop calloc_ok fuel p).
Proof.
  induction fuel as [|fuel IH]; intros p Hb; cbn [messages_loop];
    destruct (_ && _); try exact Hb; try (left; reflexivity).
  destruct (Z.geb_spec (raw_num_messages (vec p)) MAX_MESSAGES) as [Hfull|Hroom];
    [exact Hb|].
  eapply holds_bind; [apply message_fields_loop_entries; [exact Hb | exact Hroom]|].
  intros p1 Hsame. cbn in Hsame.
  eapply holds_bind; [|intros p2 Hb2; apply IH, Hb2].
  apply close_message_bounded.
  - eapply bounded_same_entries; [|exact Hsame]. exact Hb.
  - destruct Hsame as [-> _]. exact Hroom.
Qed.

Lemma string_field_entries (f : StringField) (p : Parse) :
  same_entries p (string_field f p).
Proof.
  unfold string_field. destruct (expect_string_field _ _) as [value r].
  repeat split.
Qed.

Lemma binary_field_entries (f : BinaryField) (p : Parse) :
  holds (same_entries p) (binary_field calloc_ok f p).
Proof.
  unfold binary_field.
  destruct (expect_binary_field _ _ _) as [[[size value] r]|]; cbn; [|right; reflexivity].
  repeat split.
Qed.

Lemma vector_field_bounded (fuel : nat) (p : Parse) :
  bounded p -> holds bounded (vector_field calloc_ok reader_line_number fuel p).
Proof.
  intros Hb. unfold vector_field.
  repeat lazymatch goal with
  | |- holds _ (if json_is_name _ ?n then _ else _) => destruct (json_is_name _ n)
  end;
  lazymatch goal with
  | |- holds _ (Returned (string_field _ _)) =>
    cbn; eapply bounded_same_entries; [|apply string_field_entries]; exact Hb
  | |- holds _ (binary_field _ _ _) =>
    eapply holds_impl; [apply binary_field_entries|];
    intros p' Hsame; eapply bounded_same_entries; eassumption
  | |- _ => idtac
  end.
  - eapply holds_bind; [apply messages_loop_bounded; exact Hb|].
    intros p' Hb'. exact Hb'.
  - exact Hb.
Qed.

Lemma fields_loop_bounded (fuel : nat) :
  forall p, bounded p -> holds bounded (fields_loop calloc_ok reader_line_number fuel p).
Proof.
  induction fuel as [|fuel IH]; intros p Hb; cbn [fields_loop];
    destruct (_ && _); try exact Hb; try (left; reflexivity).
  eapply holds_bind; [apply vector_field_bounded, Hb | intros p' Hb'; apply IH, Hb'].
Qed.

Lemma zero_vector_bounded (r : JSONReader Lexer) : bounded (mkParse r zero_vector 0).
Proof.
  unfold bounded, count_of, messages_of, zero_vector. cbn [vec raw_num_messages raw_messages].
  rewrite length_replicate. unfold MAX_MESSAGES. lia.
Qed.

(** X9: [process_test_vector] never reads or writes an entry of
    [messages] outside the array: [num_messages] stays between 0 and
    [MAX_MESSAGES] while the vector is parsed, and an entry is touched only
    while it is below [MAX_MESSAGES]. *)
Theorem messages_stay_in_array (fuel : nat) (r : JSONReader Lexer) (s : RunState) :
  process_test_vector calloc_ok reader_line_number fuel r s <> Stopped OutOfBounds
  /\ forall p,
       fields_loop calloc_ok reader_line_number fuel (mkParse r zero_vector 0) = Returned p ->
       0 <= raw_num_messages (vec p) <= MAX_MESSAGES.
Proof.
  pose proof (fields_loop_bounded fuel _ (zero_vector_bounded r)) as Hloop.
  split.
  - unfold process_test_vector.
    destruct (fields_loop _ _ _ _) as [p|why]; cbn in *;
      [|destruct Hloop; congruence].
    destruct (no_errors (reader p)); [|discriminate].
    destruct (to_vector (vec p)) as [v|]; [|discriminate].
    destruct (test_vector_run v s) as [[value|] s']; discriminate.
  - intros p Hp. rewrite Hp in Hloop. destruct Hloop as [Hc _]. exact Hc.
Qed.

(** ** Messages without a buffer *)

Definition has_both (m : RawMessage) : Prop :=
  ptr (raw_payload m) <> None /\ ptr (raw_ciphertext m) <> None.

(** The entries below [num_messages] have both buffers. *)
Definition earlier (p : Parse) : Prop :=
  Forall has_both (take (Z.to_nat (count_of p)) (messages_of p)).

(** They do unless an error has been counted. *)
Definition complete (p : Parse) : Prop := no_errors (reader p) = true -> earlier p.

Lemma holds_and {A : Type} (Q R : A -> Prop) (o : Outcome A) :
  holds Q o -> holds R o -> holds (fun a => Q a /\ R a) o.
Proof. destruct o as [a|why]; cbn; auto. Qed.

Lemma earlier_same_entries (p p' : Parse) : earlier p -> same_entries p p' -> earlier p'.
Proof.
  unfold earlier. intros He (Hc & _ & Ht). rewrite Hc, Ht. exact He.
Qed.

Lemma expect_token_sticky (r : JSONReader Lexer) (tok : JSONToken) (nm : string) :
  no_errors r = false -> expect_token r tok nm = r.
Proof. intros H. unfold expect_token. rewrite H. reflexivity. Qed.

Lemma to_message_is_Some (m : RawMessage) : has_both m -> is_Some (to_message m).
Proof.
  intros [Hp Hc]. unfold to_message, block_bytes.
  destruct (ptr (raw_payload m)); [|contradiction].
  destruct (ptr (raw_ciphertext m)); [|contradiction]. cbn. eauto.
Qed.

Lemma to_vector_is_Some (p : Parse) : earlier p -> is_Some (to_vector (vec p)).
Proof.
  intros He. unfold to_vector.
  assert (Hms : is_Some (mapM to_message
                           (take (Z.to_nat (raw_num_messages (vec p))) (raw_messages (vec p))))).
  { apply mapM_is_Some. eapply Forall_impl; [exact He|].
    intros m Hm. apply to_message_is_Some, Hm. }
  destruct Hms as [ms ->]. cbn. eauto.
Qed.

Section Complete.

(** The reader's error count: the library does not make it negative, and
    [json_error] counts the error it reports. *)
Hypothesis json_next_token_counts :
  forall r, 0 <= errors r -> 0 <= errors (json_next_token r).
Hypothesis json_error_counts :
  forall r m, 0 <= errors r -> 0 < errors (json_error r m).

Definition counted (p : Parse) : Prop := 0 <= errors (reader p).

Lemma json_error_no_errors (r : JSONReader Lexer) (m : string) :
  0 <= errors r -> no_errors (json_error r m) = false.
Proof. intros H. apply Z.eqb_neq. pose proof (json_error_counts r m H). lia. Qed.

Lemma json_error_keeps (r : JSONReader Lexer) (m : string) :
  0 <= errors r -> 0 <= errors (json_error r m).
Proof. intros H. pose proof (json_error_counts r m H). lia. Qed.

Lemma expect_token_keeps (r : JSONReader Lexer) (tok : JSONToken) (nm : string) :
  0 <= errors r -> 0 <= errors (expect_token r tok nm).
Proof.
  intros H. unfold expect_token. destruct (negb _); [exact H|].
  destruct (JSONToken_eqb _ _); [apply json_next_token_counts | apply json_error_keeps];
    exact H.
Qed.

Lemma skip_comma_keeps (r : JSONReader Lexer) :
  0 <= errors r ->
  0 <= errors (if no_errors r && JSONToken_eqb (token r) JSON_TOKEN_COMMA
               then json_next_token r else r).
Proof. intros H. destruct (_ && _); [apply json_next_token_counts|]; exact H. Qed.

Lemma expect_string_field_keeps (r : JSONReader Lexer) (value : option string) :
  0 <= errors r -> 0 <= errors (snd (expect_string_field r value)).
Proof.
  intros H. unfold expect_string_field.
  assert (H1 : 0 <= errors (expect_token (json_next_token r) JSON_TOKEN_COLON ":"))
    by (apply expect_token_keeps, json_next_token_counts, H).
  destruct (_ && _); cbn [snd]; [|exact H1].
  apply skip_comma_keeps, json_next_token_counts. exact H1.
Qed.

Lemma expect_binary_field_keeps (ok : bool) (r r' : JSONReader Lexer)
    (value value' : option (list Z)) (size : Z) :
  0 <= errors r -> expect_binary_field ok r value = Some (size, value', r') ->
  0 <= errors r'.
Proof.
  intros H. unfold expect_binary_field.
  assert (H1 : 0 <= errors (expect_token (json_next_token r) JSON_TOKEN_COLON ":"))
    by (apply expect_token_keeps, json_next_token_counts, H).
  destruct (_ && _); [|intros Heq; inversion Heq; subst; exact H1].
  destruct (str_value _) as [hex|]; [|discriminate].
  destruct ok; [|intros Heq; inversion Heq; subst; apply json_error_keeps, H1].
  destruct (hex_loop _ _ _ _) as [buf []]; intros Heq; inversion Heq; subst.
  - apply skip_comma_keeps, json_next_token_counts, H1.
  - apply json_error_keeps, H1.
Qed.

Lemma message_field_counted (f : MessageField) (p : Parse) :
  bounded p -> count_of p < MAX_MESSAGES -> counted p ->
  holds counted (message_field calloc_ok f p).
Proof.
  intros Hb Hlt Hn. destruct (lookup_in_array p Hb Hlt) as [m Hm].
  unfold message_field. unfold messages_of, count_of in Hm. rewrite Hm.
  destruct (expect_binary_field _ _ _) as [[[size value] r]|] eqn:Hfield; cbn;
    [|right; reflexivity].
  eapply expect_binary_field_keeps; [exact Hn | exact Hfield].
Qed.

(** The two facts a step on the current entry keeps. *)
Definition entry_step (p p' : Parse) : Prop := same_entries p p' /\ counted p'.

Lemma message_fields_loop_step (fuel : nat) :
  forall p, bounded p -> count_of p < MAX_MESSAGES -> counted p ->
    holds (entry_step p) (message_fields_loop calloc_ok fuel p).
Proof.
  induction fuel as [|fuel IH]; intros p Hb Hlt Hn; cbn [message_fields_loop];
    destruct (_ && _); try (split; [apply same_entries_refl | exact Hn]);
    try (left; reflexivity).
  assert (Hnext : forall p', entry_step p p' ->
            holds (entry_step p) (message_fields_loop calloc_ok fuel p')).
  { intros p' [Hsame Hn']. eapply holds_impl.
    - apply IH; [eapply bounded_same_entries; eassumption | | exact Hn'].
      destruct Hsame as [-> _]. exact Hlt.
    - intros p'' [Hsame' Hn'']. split; [|exact Hn''].
      eapply same_entries_trans; eassumption. }
  assert (Hfield : forall f, holds (entry_step p) (message_field calloc_ok f p)).
  { intros f. apply holds_and;
      [apply message_field_entries | apply message_field_counted]; assumption. }
  destruct (json_is_name _ "payload");
    [|destruct (json_is_name _ "ciphertext")].
  - eapply holds_bind; [apply Hfield | exact Hnext].
  - eapply holds_bind; [apply Hfield | exact Hnext].
  - apply Hnext. split; [repeat split | apply json_error_keeps, Hn].
Qed.

Definition sound (p : Parse) : Prop := bounded p /\ counted p /\ complete p.

Lemma close_message_sound (p : Parse) :
  bounded p -> count_of p < MAX_MESSAGES -> counted p -> earlier p ->
  holds sound (close_message p).
Proof.
  intros Hb Hlt Hn He. apply holds_and; [apply close_message_bounded; assumption|].
  destruct (lookup_in_array p Hb Hlt) as [m Hm].
  unfold close_message. unfold messages_of, count_of in Hm. rewrite Hm. cbn.
  set (r1 := if is_Some_bool (ptr (raw_payload m)) then reader p
             else json_error (reader p) "Missing payload for message").
  set (r2 := if is_Some_bool (ptr (raw_ciphertext m)) then r1
             else json_error r1 "Missing ciphertext for message").
  assert (H1 : 0 <= errors r1).
  { unfold r1. case (is_Some_bool (ptr (raw_payload m)));
      [exact Hn | apply json_error_keeps, Hn]. }
  assert (H2 : 0 <= errors r2).
  { unfold r2. case (is_Some_bool (ptr (raw_ciphertext m)));
      [exact H1 | apply json_error_keeps, H1]. }
  assert (Hcases : has_both m \/ no_errors r2 = false).
  { unfold r2, has_both.
    case (ptr (raw_ciphertext m)); cbn [is_Some_bool];
      [intros c | right; apply json_error_no_errors, H1].
    unfold r1. case (ptr (raw_payload m)); cbn [is_Some_bool];
      [intros b; left; split; discriminate | right; apply json_error_no_errors, Hn]. }
  split.
  { unfold counted. cbn. apply skip_comma_keeps, expect_token_keeps, H2. }
  unfold complete, earlier, count_of, messages_of. cbn.
  destruct Hcases as [Hboth|Hstuck].
  - intros _. destruct Hb as [[Hc _] _]. unfold count_of in Hc.
    replace (Z.to_nat (raw_num_messages (vec p) + 1))
      with (S (Z.to_nat (raw_num_messages (vec p)))) by lia.
    rewrite (take_S_r _ _ _ Hm). apply Forall_app. split; [exact He|].
    constructor; [exact Hboth | constructor].
  - rewrite (expect_token_sticky r2) by exact Hstuck. rewrite Hstuck. cbn [andb].
    congruence.
Qed.

Lemma messages_loop_sound (fuel : nat) :
  forall p, sound p -> holds sound (messages_loop calloc_ok fuel p).
Proof.
  induction fuel as [|fuel IH]; intros p (Hb & Hn & Hc); cbn [messages_loop];
    destruct (no_errors (reader p)) eqn:Hno; cbn [andb];
    try exact (conj Hb (conj Hn Hc)); destruct (JSONToken_eqb _ _);
    try exact (conj Hb (conj Hn Hc)); try (left; reflexivity).
  destruct (Z.geb_spec (raw_num_messages (vec p)) MAX_MESSAGES) as [Hfull|Hroom].
  { split; [exact Hb|]. split; [apply json_error_keeps, Hn|].
    unfold complete. cbn. rewrite json_error_no_errors by exact Hn. discriminate. }
  specialize (Hc Hno).
  eapply holds_bind;
    [apply message_fields_loop_step;
       [exact Hb | exact Hroom | apply expect_token_keeps, Hn]|].
  intros p1 [Hsame Hn1]. cbn in Hsame.
  eapply holds_bind; [|intros p2 Hs2; apply IH, Hs2].
  apply close_message_sound.
  - eapply bounded_same_entries; [|exact Hsame]. exact Hb.
  - destruct Hsame as [-> _]. exact Hroom.
  - exact Hn1.
  - eapply earlier_same_entries; [|exact Hsame]. exact Hc.
Qed.

Lemma string_field_counted (f : StringField) (p : Parse) :
  0 <= errors (reader p) -> counted (string_field f p).
Proof.
  intros Hn. unfold string_field, counted.
  pose proof (expect_string_field_keeps (reader p) (strings (vec p) f) Hn) as H.
  destruct (expect_string_field _ _) as [value r]. exact H.
Qed.

Lemma binary_field_counted (f : BinaryField) (p : Parse) :
  counted p -> holds counted (binary_field calloc_ok f p).
Proof.
  intros Hn. unfold binary_field.
  destruct (expect_binary_field _ _ _) as [[[size value] r]|] eqn:Hfield; cbn;
    [|right; reflexivity].
  eapply expect_binary_field_keeps; [exact Hn | exact Hfield].
Qed.

Lemma vector_field_sound (fuel : nat) (p : Parse) :
  no_errors (reader p) = true -> sound p ->
  holds sound (vector_field calloc_ok reader_line_number fuel p).
Proof.
  intros Hno (Hb & Hn & Hc). specialize (Hc Hno).
  assert (Hkept : forall p', same_entries p p' -> counted p' -> sound p').
  { intros p' Hsame Hn'. split; [eapply bounded_same_entries; eassumption|].
    split; [exact Hn'|]. intros _. eapply earlier_same_entries; eassumption. }
  unfold vector_field.
  repeat lazymatch goal with
  | |- holds _ (if json_is_name _ ?n then _ else _) => destruct (json_is_name _ n)
  end;
  lazymatch goal with
  | |- holds _ (Returned (string_field _ _)) =>
    cbn; apply Hkept;
      [eapply same_entries_trans; [|apply string_field_entries]; repeat split
      | apply string_field_counted, Hn]
  | |- holds _ (binary_field _ _ _) =>
    eapply holds_impl;
      [apply holds_and; [apply binary_field_entries | apply binary_field_counted, Hn]
      | intros p' [Hsame Hn']; apply Hkept; assumption]
  | |- _ => idtac
  end.
  - eapply holds_bind.
    + apply messages_loop_sound, Hkept; [repeat split|].
      apply expect_token_keeps, expect_token_keeps, json_next_token_counts, Hn.
    + intros p' (Hb' & Hn' & Hc'). cbn. split; [exact Hb'|]. split.
      { unfold counted. cbn. apply skip_comma_keeps, expect_token_keeps, Hn'. }
      unfold complete. cbn [reader with_reader].
      destruct (no_errors (reader p')) eqn:Hno'.
      * intros _. exact (Hc' Hno').
      * rewrite (expect_token_sticky (reader p')) by exact Hno'. rewrite Hno'.
        cbn [andb]. congruence.
  - cbn. split; [exact Hb|]. split; [apply json_error_keeps, Hn|].
    unfold complete. cbn. rewrite json_error_no_errors by exact Hn. discriminate.
Qed.

Lemma fields_loop_sound (fuel : nat) :
  forall p, sound p -> holds sound (fields_loop calloc_ok reader_line_number fuel p).
Proof.
  induction fuel as [|fuel IH]; intros p Hs; cbn [fields_loop];
    destruct (no_errors (reader p)) eqn:Hno; cbn [andb];
    try exact Hs; destruct (JSONToken_eqb _ _); try exact Hs; try (left; reflexivity).
  eapply holds_bind; [apply vector_field_sound; assumption | intros p' Hs'; apply IH, Hs'].
Qed.

Lemma zero_vector_sound (r : JSONReader Lexer) :
  0 <= errors r -> sound (mkParse r zero_vector 0).
Proof.
  intros Hn. split; [apply zero_vector_bounded|]. split; [exact Hn|]. intros _. constructor.
Qed.

(** X10: a vector is given to the runner only with a payload and a
    ciphertext for each of its messages, provided that the error count of
    the reader is never negative and [json_error] counts the error it
    reports: an entry without one of them is reported, and
    [test_vector_run] is not called once an error has been counted. *)
Theorem run_vectors_have_both_buffers (fuel : nat) (r : JSONReader Lexer) (s : RunState) :
  0 <= errors r ->
  process_test_vector calloc_ok reader_line_number fuel r s <> Stopped NullMessage
  /\ forall p,
       fields_loop calloc_ok reader_line_number fuel (mkParse r zero_vector 0) = Returned p ->
       errors (reader p) = 0 ->
       Forall has_both (take (Z.to_nat (raw_num_messages (vec p))) (raw_messages (vec p))).
Proof.
  intros Hn.
  pose proof (fields_loop_sound fuel _ (zero_vector_sound r Hn)) as Hloop.
  split.
  - unfold process_test_vector.
    destruct (fields_loop _ _ _ _) as [p|why]; cbn in *;
      [|destruct Hloop; congruence].
    destruct Hloop as (_ & _ & Hc). destruct (no_errors (reader p)) eqn:Hno; [|discriminate].
    destruct (to_vector_is_Some p (Hc Hno)) as [v ->].
    destruct (test_vector_run v s) as [[value|] s']; discriminate.
  - intros p Hp Hzero. rewrite Hp in Hloop. destruct Hloop as (_ & _ & Hc).
    apply Hc. unfold no_errors. rewrite Hzero. reflexivity.
Qed.

End Complete.

End VectorParserProperties.

(** ** A vector parsed and run on the loopback library *)

Definition field (nm value : string) : Loopback.TokenStream :=
  [(JSON_TOKEN_STRING, Some nm); (JSON_TOKEN_COLON, None); (JSON_TOKEN_STRING, Some value);
   (JSON_TOKEN_COMMA, None)].

(** The tokens of [sample_vector "NN"] after the opening brace; the last
    message is closed by [last_message]. *)
Definition sample_tokens (last_message : Loopback.TokenStream) : Loopback.TokenStream :=
  field "name" "Noise_NN_25519_ChaChaPoly_SHA256" ++ field "pattern" "NN"
  ++ field "dh" "25519" ++ field "cipher" "ChaChaPoly" ++ field "hash" "SHA256"
  ++ field "init_ephemeral" "0102" ++ field "resp_ephemeral" "0304"
  ++ [(JSON_TOKEN_STRING, Some "messages"); (JSON_TOKEN_COLON, None);
      (JSON_TOKEN_LSQUARE, None); (JSON_TOKEN_LBRACE, None)]
  ++ field "payload" "6869"
  ++ [(JSON_TOKEN_STRING, Some "ciphertext"); (JSON_TOKEN_COLON, None);
      (JSON_TOKEN_STRING, Some "6869"); (JSON_TOKEN_RBRACE, None); (JSON_TOKEN_COMMA, None);
      (JSON_TOKEN_LBRACE, None)]
  ++ last_message
  ++ [(JSON_TOKEN_RBRACE, None); (JSON_TOKEN_RSQUARE, None); (JSON_TOKEN_RBRACE, None)].

Definition process_sample (last_message : Loopback.TokenStream)
  : VectorParser.Outcome (@VectorParser.Processed Loopback.json Loopback.noise) :=
  @VectorParser.process_test_vector Loopback.json Loopback.noise (fun _ => true) (fun _ => 1)
    32 (Loopback.reader_on (sample_tokens last_message)) sample_start.

(** The file is read up to the brace that closes the vector, and the
    vector given to the runner is [sample_vector "NN"]. *)
Example sample_tokens_run :
  match process_sample (field "payload" "" ++ removelast (field "ciphertext" "")) with
  | VectorParser.Returned done =>
    VectorParser.retval done = 1
    /\ VectorParser.vector_run done = Some (sample_vector "NN")
    /\ token (VectorParser.reader_after done) = JSON_TOKEN_RBRACE
    /\ lexer (VectorParser.reader_after done) = []
  | VectorParser.Stopped _ => False
  end.
Proof. vm_compute. repeat split. Qed.

(** When the last message has no ciphertext the error is counted and
    the vector is not run. *)
Example sample_tokens_missing_ciphertext :
  match process_sample (removelast (field "payload" "")) with
  | VectorParser.Returned done =>
    VectorParser.retval done = 1
    /\ VectorParser.vector_run done = None
    /\ errors (VectorParser.reader_after done) = 1
  | VectorParser.Stopped _ => False
  end.
Proof. vm_compute. repeat split. Qed.

(** * The dump of a block is read back as the block *)

Section DumpProperties.
Context `{JL : JsonLibrary}.
Import TestVector Diagnostics.

Definition is_blank (c : ascii) : bool := Ascii.eqb c " " || Ascii.eqb c newline.

(** A text with its spaces and line breaks taken out. *)
Fixpoint without_blanks (s : string) : string :=
  match s with
  | EmptyString => EmptyString
  | String c rest =>
    if is_blank c then without_blanks rest else String c (without_blanks rest)
  end.

(** Two digits for each byte. *)
Fixpoint hex_text (block : list Z) : string :=
  match block with
  | [] => EmptyString
  | b :: rest => String (hex_char (b / 16)) (String (hex_char (b mod 16)) (hex_text rest))
  end.

Lemma append_empty (s : string) : s +:+ EmptyString = s.
Proof.
  induction s as [|c s IH]; [reflexivity|].
  change (String c s +:+ EmptyString) with (String c (s +:+ EmptyString)).
  rewrite IH. reflexivity.
Qed.

Lemma without_blanks_app (a b : string) :
  without_blanks (a +:+ b) = without_blanks a +:+ without_blanks b.
Proof.
  induction a as [|c a IH]; [reflexivity|].
  change (String c a +:+ b) with (String c (a +:+ b)). cbn [without_blanks].
  rewrite IH. destruct (is_blank c); reflexivity.
Qed.

Lemma hex_char_digit (d : Z) :
  0 <= d < 16 ->
  hex_digit_value (hex_char d) = Some d
  /\ is_blank (hex_char d) = false
  /\ Ascii.eqb (hex_char d) zero = false.
Proof.
  intros Hd. rewrite <- (Z2Nat.id d) at 2 by lia. unfold hex_char.
  assert (Hn : (Z.to_nat d < 16)%nat) by lia. revert Hn.
  generalize (Z.to_nat d). intros n Hn.
  do 16 (destruct n as [|n]; [vm_compute; repeat split|]). lia.
Qed.

Lemma byte_digits (b : Z) : 0 <= b < 256 -> 0 <= b / 16 < 16 /\ 0 <= b mod 16 < 16.
Proof.
  intros Hb. split; [|apply Z.mod_pos_bound; lia].
  split; [apply Z.div_pos; lia | apply Z.div_lt_upper_bound; lia].
Qed.

Lemma without_blanks_dump_loop (block : list Z) (len : Z) :
  Forall (fun b => 0 <= b < 256) block ->
  forall index, without_blanks (dump_loop block index len) = hex_text block.
Proof.
  induction 1 as [|b rest Hb _ IH]; intros index; [reflexivity|].
  cbn [dump_loop hex_text]. rewrite !without_blanks_app, IH.
  destruct (byte_digits b Hb) as [Hhigh Hlow].
  destruct (hex_char_digit _ Hhigh) as (_ & Hh & _).
  destruct (hex_char_digit _ Hlow) as (_ & Hl & _).
  replace (without_blanks (if _ && _ then break_line else EmptyString)) with EmptyString
    by (destruct (_ && _); reflexivity).
  unfold printf_02x. cbn [without_blanks]. rewrite Hh, Hl. reflexivity.
Qed.

Lemma without_blanks_dump_block (block : list Z) :
  Forall (fun b => 0 <= b < 256) block ->
  without_blanks (dump_block block) = hex_text block.
Proof.
  intros Hall. unfold dump_block. rewrite !without_blanks_app.
  rewrite without_blanks_dump_loop by exact Hall.
  replace (without_blanks (if _ >? 16 then break_line else EmptyString)) with EmptyString
    by (destruct (_ >? 16); reflexivity).
  change (hex_text block +:+ EmptyString = hex_text block). apply append_empty.
Qed.

Lemma cstring_hex_text (block : list Z) :
  Forall (fun b => 0 <= b < 256) block -> cstring (hex_text block) = hex_text block.
Proof.
  induction 1 as [|b rest Hb _ IH]; [reflexivity|].
  destruct (byte_digits b Hb) as [Hhigh Hlow].
  destruct (hex_char_digit _ Hhigh) as (_ & _ & Hh).
  destruct (hex_char_digit _ Hlow) as (_ & _ & Hl).
  cbn [hex_text cstring]. rewrite Hh, Hl, IH. reflexivity.
Qed.

Lemma length_hex_text (block : list Z) :
  String.length (hex_text block) = (2 * length block)%nat.
Proof. induction block as [|b rest IH]; cbn; [reflexivity | rewrite IH; lia]. Qed.

Lemma get_hex_text (block : list Z) :
  forall i b, block !! i = Some b ->
    String.get (2 * i) (hex_text block) = Some (hex_char (b / 16))
    /\ String.get (2 * i + 1) (hex_text block) = Some (hex_char (b mod 16)).
Proof.
  induction block as [|b0 rest IH]; intros i b Hi; [discriminate|].
  destruct i as [|i].
  - inversion Hi; subst. split; reflexivity.
  - replace (2 * S i)%nat with (S (S (2 * i))) by lia. cbn [hex_text String.get plus].
    apply IH. exact Hi.
Qed.

Lemma digits_of_hex_text (block : list Z) (i : nat) (b : Z) :
  Forall (fun b => 0 <= b < 256) block -> block !! i = Some b ->
  digit_at (hex_text block) (2 * i) = Some (b / 16)
  /\ digit_at (hex_text block) (2 * i + 1) = Some (b mod 16).
Proof.
  intros Hall Hi. unfold digit_at. rewrite cstring_hex_text by exact Hall.
  destruct (get_hex_text block i b Hi) as [-> ->].
  assert (Hb : 0 <= b < 256).
  { exact (Forall_lookup_1 _ _ _ _ Hall Hi). }
  destruct (byte_digits b Hb) as [Hhigh Hlow].
  destruct (hex_char_digit _ Hhigh) as (-> & _).
  destruct (hex_char_digit _ Hlow) as (-> & _). split; reflexivity.
Qed.

(** X11: the bytes [dump_block] prints are in the notation that
    [expect_binary_field] reads.  Without its spaces and line breaks, the
    dump of a block of bytes is a string value from which
    [expect_binary_field] returns the length of the block and a buffer
    that begins with the block. *)
Theorem dump_block_reads_back (reader : JSONReader Lexer) (value : option (list Z))
    (block : list Z) :
  let r1 := expect_token (json_next_token reader) JSON_TOKEN_COLON ":" in
  Forall (fun b => 0 <= b < 256) block ->
  errors r1 = 0 -> token r1 = JSON_TOKEN_STRING ->
  str_value r1 = Some (without_blanks (dump_block block)) ->
  exists buf reader',
    expect_binary_field true reader value
    = Some (Z.of_nat (length block), Some buf, reader')
    /\ take (length block) buf = block.
Proof.
  intros r1 Hall Herr Htok Hstr. rewrite without_blanks_dump_block in Hstr by exact Hall.
  assert (Hlen : strlen (hex_text block) / 2 = Z.of_nat (length block)).
  { unfold strlen. rewrite cstring_hex_text, length_hex_text by exact Hall.
    rewrite Nat2Z.inj_mul, Z.mul_comm. apply Z.div_mul. lia. }
  destruct (hex_loop_valid (hex_text block) (length block) 0
              (replicate (S (length block)) 0)) as (buf & Hrun & Hl & _ & Hdec).
  - intros j Hj.
    assert (Hi : (j / 2 < length block)%nat) by (apply Nat.Div0.div_lt_upper_bound; lia).
    destruct (lookup_lt_is_Some_2 block (j / 2) Hi) as [b Hb].
    destruct (digits_of_hex_text block _ b Hall Hb) as [He Ho].
    pose proof (Nat.div_mod_eq j 2) as Hj2.
    assert (Hcases : (j mod 2 = 0 \/ j mod 2 = 1)%nat)
      by (pose proof (Nat.mod_upper_bound j 2); lia).
    destruct Hcases as [Hm|Hm]; rewrite Hm in Hj2.
    + replace j with (2 * (j / 2))%nat at 1 by lia. rewrite He. eauto.
    + replace j with (2 * (j / 2) + 1)%nat at 1 by lia. rewrite Ho. eauto.
  - rewrite length_replicate. lia.
  - unfold expect_binary_field. fold r1. unfold no_errors. rewrite Herr, Htok, Hstr.
    cbn [Z.eqb andb JSONToken_eqb]. rewrite Hlen, Nat2Z.id.
    replace (Z.to_nat (Z.of_nat (length block) + 1)) with (S (length block)) by lia.
    rewrite Hrun. eexists buf, _. split; [reflexivity|].
    apply list_eq. intros i. destruct (decide (i < length block)%nat) as [Hi|Hi].
    + rewrite lookup_take_lt by exact Hi.
      destruct (Hdec i) as (d1 & d2 & Hd1 & Hd2 & ->); [lia|].
      destruct (lookup_lt_is_Some_2 block i Hi) as [b Hb].
      destruct (digits_of_hex_text block i b Hall Hb) as [He Ho].
      rewrite Hb. f_equal.
      assert (d1 = b / 16) by congruence. assert (d2 = b mod 16) by congruence. subst.
      symmetry. apply Z.div_mod. lia.
    + rewrite lookup_take_ge by lia. symmetry. apply lookup_ge_None. lia.
Qed.

End DumpProperties.

(** ** Sample runs of the test driver *)

Lemma test_vector_run_never_skips_witness :
  fst (@TestVector.bind Loopback.noise unit unit
         (@TestVector.test_name_parsing Loopback.noise (sample_vector "NN"))
         (fun _ => @TestVector.test_connection Loopback.noise (sample_vector "NN"))
         sample_start)
  = TestVector.Ok tt.
Proof.
  pose proof sample_vector_passes as Hpass.
  destruct (@TestVector.test_vector_run Loopback.noise (sample_vector "NN") sample_start)
    as [result s'] eqn:Hrun.
  cbn [fst] in Hpass. subst result.
  exact (f_equal fst (@test_vector_run_never_skips Loopback.noise _ _ _ Hrun)).
Defined.

Lemma loopback_next_token_counts (r : JSONReader Loopback.TokenStream) :
  0 <= errors r -> 0 <= errors (Loopback.next_token r).
Proof. intros H. unfold Loopback.next_token. destruct (lexer r) as [|[t v] rest]; exact H. Qed.

Lemma loopback_json_error_counts (r : JSONReader Loopback.TokenStream) (m : string) :
  0 <= errors r -> 0 < errors (@json_error Loopback.json r m).
Proof. intros H. change (0 < errors r + 1). lia. Qed.

(** A vector whose last message has no ciphertext. *)
Lemma run_vectors_have_both_buffers_witness :
  process_sample (removelast (field "payload" ""))
  <> VectorParser.Stopped VectorParser.NullMessage.
Proof.
  destruct (@run_vectors_have_both_buffers Loopback.json Loopback.noise (fun _ => true)
              (fun _ => 1) loopback_next_token_counts loopback_json_error_counts 32
              (Loopback.reader_on (sample_tokens (removelast (field "payload" ""))))
              sample_start) as [Hrun _]; [vm_compute; discriminate|].
  exact Hrun.
Defined.

(** A block of 18 bytes is dumped on two lines. *)
Lemma dump_block_reads_back_witness :
  let block := [0; 1; 2; 3; 4; 5; 6; 7; 8; 9; 10; 11; 12; 13; 14; 15; 254; 255] in
  let reader :=
    Loopback.reader_on [(JSON_TOKEN_STRING, Some "payload"); (JSON_TOKEN_COLON, None);
                        (JSON_TOKEN_STRING, Some (without_blanks (Diagnostics.dump_block block)));
                        (JSON_TOKEN_COMMA, None)] in
  exists buf reader',
    @TestVector.expect_binary_field Loopback.json true reader None = Some (18, Some buf, reader')
    /\ take 18 buf = block.
Proof.
  intros block reader.
  apply (@dump_block_reads_back Loopback.json reader None block);
    [|reflexivity | reflexivity | reflexivity].
  repeat constructor; lia.
Defined.

(** * The exit status of the test driver *)

Section VectorDriverProperties.
Context `{JL : JsonLibrary}.
Variable process_test_vector : JSONReader Lexer -> Z * JSONReader Lexer.
Variable FILE : Type.
Variable fopen : nat -> string -> option FILE.
Variable json_init : string -> FILE -> JSONReader Lexer.
Import TestVector VectorDriver.

(** File [path], opened in turn [k], was read to its end without an error. *)
Definition file_passes (fuel k : nat) (path : string) : Prop :=
  exists file reader log,
    fopen k path = Some file
    /\ process_test_vectors process_test_vector fuel (json_init path file)
       = Some (reader, log)
    /\ errors reader <= 0.

Lemma files_loop_status (fuel : nat) (files : list string) :
  forall (k : nat) (retval status : Z),
    files_loop process_test_vector FILE fopen json_init fuel k files retval = Some status ->
    (status = retval \/ status = 1)
    /\ (status = 0 <->
        retval = 0
        /\ forall i path, files !! i = Some path -> file_passes fuel (k + i) path).
Proof.
  induction files as [|path rest IH]; intros k retval status; cbn [files_loop].
  - intros Hs. inversion Hs; subst. split; [left; reflexivity|].
    split; [intros ->; split; [reflexivity | intros i p Hi; discriminate Hi] | tauto].
  - destruct (fopen k path) as [file|] eqn:Hopen.
    + destruct (process_test_vectors _ _ _) as [[reader log]|] eqn:Hfile; [|discriminate].
      intros Hs. destruct (IH _ _ _ Hs) as [Hval Hzero].
      destruct (Z.gtb_spec (errors reader) 0) as [Herr|Herr].
      * split; [right; destruct Hval; assumption|]. split.
        -- intros H0. apply Hzero in H0. destruct H0 as [H0 _]. discriminate H0.
        -- intros [-> Hall]. destruct (Hall 0%nat path eq_refl) as (f & r & l & Hf & Hr & He).
           rewrite Nat.add_0_r in Hf. rewrite Hopen in Hf. inversion Hf; subst f.
           rewrite Hfile in Hr. inversion Hr; subst. lia.
      * split; [exact Hval|]. rewrite Hzero. split.
        -- intros [-> Hall]. split; [reflexivity|]. intros [|i] p Hi.
           ++ inversion Hi; subst p. rewrite Nat.add_0_r. exists file, reader, log.
              repeat split; [exact Hopen | exact Hfile | exact Herr].
           ++ replace (k + S i)%nat with (S k + i)%nat by lia. apply Hall. exact Hi.
        -- intros [-> Hall]. split; [reflexivity|]. intros i p Hi.
           replace (S k + i)%nat with (k + S i)%nat by lia. apply Hall. exact Hi.
    + intros Hs. destruct (IH _ _ _ Hs) as [Hval Hzero].
      split; [right; destruct Hval; assumption|]. split.
      * intros H0. apply Hzero in H0. destruct H0 as [H0 _]. discriminate H0.
      * intros [_ Hall]. destruct (Hall 0%nat path eq_refl) as (f & _ & _ & Hf & _).
        rewrite Nat.add_0_r, Hopen in Hf. discriminate Hf.
Qed.

(** X12: the test driver exits with 0 or 1, and with 0 exactly when it
    was given at least one file and every file could be opened and was
    processed with no error left in its reader; without a file argument it
    exits with 1. *)
Theorem driver_exit_status (fuel : nat) (argv : list string) (status : Z) :
  main process_test_vector FILE fopen json_init fuel argv = Some status ->
  (status = 0 \/ status = 1)
  /\ (status = 0 <->
      (2 <= length argv)%nat
      /\ forall i path, argv !! S i = Some path -> file_passes fuel i path).
Proof.
  unfold main. destruct (Z.leb_spec (Z.of_nat (length argv)) 1) as [Hfew|Hmany].
  - intros Hs. inversion Hs; subst. split; [right; reflexivity|].
    split; [discriminate | intros [Hlen _]; lia].
  - intros Hs. destruct (files_loop_status _ _ _ _ _ Hs) as [Hval Hzero].
    split; [destruct Hval; [left | right]; assumption|].
    rewrite Hzero. split.
    + intros [_ Hall]. split; [lia|]. intros i path Hi.
      apply (Hall i path). rewrite lookup_drop. exact Hi.
    + intros [_ Hall]. split; [reflexivity|]. intros i path Hi.
      rewrite lookup_drop in Hi. apply (Hall i path Hi).
Qed.

End VectorDriverProperties.

(** A client that asks for Curve448 is turned away. *)
Lemma failed_setup_exits_witness :
  fst (@EchoServer.main Loopback.noise Loopback.echo 4 sample_keys 7000 (client_world 0x4402))
  = Some 1.
Proof.
  destruct (@failed_setup_exits Loopback.noise Loopback.echo 4 sample_keys 7000
              (client_world 0x4402)) as [Hexit _]; [vm_compute; reflexivity|].
  exact Hexit.
Defined.

(** One file with two vectors, closed as it should be. *)
Definition sample_fopen (k : nat) (path : string) : option Loopback.TokenStream :=
  if String.eqb path "vectors.json"
  then Some (Loopback.vectors_file 2 [(JSON_TOKEN_RSQUARE, None); (JSON_TOKEN_RBRACE, None)])
  else None.

Definition sample_json_init (path : string) (file : Loopback.TokenStream)
  : JSONReader Loopback.TokenStream :=
  mkReader 0 JSON_TOKEN_END None file.

Lemma driver_exit_status_witness :
  @file_passes Loopback.json Loopback.process_vector Loopback.TokenStream sample_fopen
    sample_json_init 8 0 "vectors.json".
Proof.
  destruct (@driver_exit_status Loopback.json Loopback.process_vector Loopback.TokenStream
              sample_fopen sample_json_init 8 ["test-vector"; "vectors.json"] 0)
    as [_ [Hpasses _]]; [vm_compute; reflexivity|].
  destruct (Hpasses eq_refl) as [_ Hall]. apply (Hall 0%nat). reflexivity.
Defined.
